(** * Computational Statistical Mechanics: sampling notebooks

    A shallow embedding of the two notebooks of the repository:

    - the inhomogeneous pebble game ([create_system],
      [get_neighborhood_table], the lattice [metropolis_pebble]), and
    - basic sampling (the generic [metropolis_pebble], [reject_finite],
      [tower_sample], [cont_tower_sample]).

    Modelling decisions.
    - A Python float is an IEEE 754 binary64 number ([spec_float] with
      precision 53 and maximal exponent 1024): [/], [+], [-] and [*] round to
      nearest, ties to even, and the comparisons are those of the format
      (a NaN compares false). The weights are floats; an integer weight or
      constant of the source (the [0], [1] of [uniform(0, 1)] and
      [min(1, ...)], the weights [1] and [2] of the pebble game) stands for
      the float of the same value, which computes the same results as long as
      the integers stay below [2^53]; integers beyond the range of the floats
      (whose division raises [OverflowError]) are outside the model.
    - The global generator of the [random] module is a tape of draws read
      through a cursor: every call of [random.randint] or [random.uniform]
      consumes one draw; [random.uniform(a, b)] computes
      [a + (b - a) * random()] in floating point.
    - [np.arccos] of the continuum sampler is the [acos] of the real numbers;
      its argument [1 - 2 * upsilon], which floating point computes exactly on
      the multiples of [2^-53] that [random()] returns, is taken over the
      real numbers as well.
    - A raised exception ([IndexError], [KeyError], [ZeroDivisionError],
      [ValueError]) aborts the call: the computation yields [None], whatever
      the exception.
    - A [dict] is a [gmap]; labels are strings. *)

From Stdlib Require Import QArith Qreals Reals Ratan Lra Lia.
From Stdlib Require Import Floats.SpecFloat.
From stdpp Require Import gmap strings list fin_maps.

Local Open Scope Z_scope.

(** ** Floats *)

Definition float : Type := spec_float.

(** The parameters of binary64. *)
Definition dbl_prec : Z := 53.
Definition dbl_emax : Z := 1024.

Definition fadd : float → float → float := SFadd dbl_prec dbl_emax.
Definition fsub : float → float → float := SFsub dbl_prec dbl_emax.
Definition fmul : float → float → float := SFmul dbl_prec dbl_emax.
Definition fdiv : float → float → float := SFdiv dbl_prec dbl_emax.

(** [x <= y], [x < y] and [x == y] on floats. *)
Definition fle : float → float → bool := SFleb.
Definition flt : float → float → bool := SFltb.
Definition feq : float → float → bool := SFeqb.

(** The float of an integer, and the float written [num/den] as a decimal
    literal ([decimal 15 100] is the literal [0.15]): both are the nearest
    float of the value. *)
Definition float_of_Z (z : Z) : float :=
  binary_normalize dbl_prec dbl_emax z 0 false.

Definition decimal (num den : Z) : float :=
  fdiv (float_of_Z num) (float_of_Z den).

(** [0.0] and [1.0]. *)
Definition F0 : float := S754_zero false.
Definition F1 : float := S754_finite false 4503599627370496 (-52).

(** A finite float above zero: a weight. *)
Definition pos_double (x : float) : bool :=
  match x with
  | S754_finite false m e => bounded dbl_prec dbl_emax m e
  | _ => false
  end.

(** A value of [random()]: a float of [[0, 1)] that is a multiple of
    [2^-53]. *)
Definition unit_double (x : float) : bool :=
  match x with
  | S754_zero false => true
  | S754_finite false m e =>
      bounded dbl_prec dbl_emax m e && flt x F1 &&
      (Zpos m mod 2 ^ (-53 - e) =? 0)
  | _ => false
  end.

(** The value of a finite float, as a rational and as a real number. *)
Definition SF2Q (x : float) : Q :=
  match x with
  | S754_finite s m e =>
      let z := if s then Zneg m else Zpos m in
      match e with
      | Z0 => inject_Z z
      | Zpos p => inject_Z (z * 2 ^ Zpos p)
      | Zneg p => z # (2 ^ p)%positive
      end
  | _ => 0%Q
  end.

Definition SF2R (x : float) : R := Q2R (SF2Q x).

(** ** Python primitives *)

(** [min(a, b)] of Python: the first argument unless the second is strictly
    smaller. *)
Definition py_min (a b : float) : float :=
  if flt b a then b else a.

(** True division [a / b]; a zero divisor raises [ZeroDivisionError]. *)
Definition py_div (a b : float) : option float :=
  if feq b F0 then None else Some (fdiv a b).

(** [l[k]] on a list: negative indices count from the end, an index out of
    range raises [IndexError]. *)
Definition py_index {A : Type} (l : list A) (k : Z) : option A :=
  if k <? 0
  then (if Z.of_nat (length l) + k <? 0 then None
        else l !! Z.to_nat (Z.of_nat (length l) + k))
  else l !! Z.to_nat k.

(** [max(l)]: the first item, replaced by each later item that is strictly
    greater; the empty list raises [ValueError]. *)
Definition py_max (l : list float) : option float :=
  match l with
  | [] => None
  | x :: l' => Some (foldl (λ m y, if flt m y then y else m) x l')
  end.

(** ** The random tape *)

(** One draw of the generator: [raw_int] feeds [randint], [raw_unit] is the
    value of [random()]. *)
Record Draw : Type := { raw_int : nat; raw_unit : float }.

Definition Tape : Type := nat → Draw.

(** [random()] is a multiple of [2^-53] in [[0, 1)]. *)
Definition valid_tape (tape : Tape) : Prop :=
  ∀ k, unit_double (raw_unit (tape k)) = true.

(** Computations that read the tape through a cursor and may raise. *)
Definition Rand (A : Type) : Type := Tape → nat → option (A * nat).

Global Instance Rand_ret : MRet Rand := λ A x _ k, Some (x, k).
Global Instance Rand_bind : MBind Rand := λ A B f m tape k,
  match m tape k with
  | Some (x, k') => f x tape k'
  | None => None
  end.

(** Lift a partial operation: [None] is the raised exception. *)
Definition lift {A : Type} (o : option A) : Rand A := λ _ k,
  match o with Some x => Some (x, k) | None => None end.

(** [random.randint(a, b)]: an integer of [[a, b]]; an empty range raises. *)
Definition randint (a b : Z) : Rand Z := λ tape k,
  if b <? a then None
  else Some (a + Z.of_nat (raw_int (tape k)) mod (b - a + 1), S k).

(** [random.uniform(a, b)] is [a + (b - a) * random()]. *)
Definition uniform (a b : float) : Rand float := λ tape k,
  Some (fadd a (fmul (fsub b a) (raw_unit (tape k))), S k).

(** [for x in xs: body], threading the loop-carried state; the loop runs in
    [option] (pure code that may raise) or in [Rand]. *)
Fixpoint for_each {M : Type → Type} `{MBind M, MRet M} {A T : Type}
    (xs : list A) (body : A → T → M T) (s : T) : M T :=
  match xs with
  | [] => mret s
  | x :: xs' => s' ← body x s; for_each xs' body s'
  end.

(** [range(n)] and [range(a, b)]. *)
Definition range (n : nat) : list nat := seq 0 n.
Definition range_from (a b : nat) : list nat := seq a (b - a).

(** ** Score tables *)

(** [scores = dict(); for i in activities: scores[i] = 0] *)
Definition init_scores (activities : list string) : gmap string nat :=
  foldl (λ sc a, <[a := 0%nat]> sc) ∅ activities.

(** [scores[k] += 1]; an absent key raises [KeyError]. *)
Definition incr (k : string) (scores : gmap string nat)
  : option (gmap string nat) :=
  v ← scores !! k; Some (<[k := S v]> scores).

(** Sum of all the counts of a score table. *)
Definition score_sum (scores : gmap string nat) : nat :=
  map_fold (λ _ v acc, (v + acc)%nat) 0%nat scores.

(** ** The Metropolis acceptance step

    The lines shared verbatim by both walkers:
<<
    gamma = min(1, new_pos_prob/current_pos_prob)
    if (random.uniform(0, 1) <= gamma):
        current_pos = new_pos
        current_pos_prob = new_pos_prob
    scores[current_pos] += 1
>> *)
Record Walk : Type := {
  current_pos : string;
  current_pos_prob : float;
  scores : gmap string nat
}.

Definition metropolis_accept (new_pos : string) (new_pos_prob : float)
    (w : Walk) : Rand Walk :=
  ratio ← lift (py_div new_pos_prob (current_pos_prob w));
  let gamma := py_min F1 ratio in
  u ← uniform F0 F1;
  let '(pos, prob) :=
    if fle u gamma then (new_pos, new_pos_prob)
    else (current_pos w, current_pos_prob w) in
  sc ← lift (incr pos (scores w));
  mret {| current_pos := pos; current_pos_prob := prob; scores := sc |}.

(** ** Notebook 1: the inhomogeneous pebble game *)
Module Lattice.

(** [string.ascii_uppercase] as a list of one-letter labels. *)
Definition ascii_uppercase : list string :=
  ["A"; "B"; "C"; "D"; "E"; "F"; "G"; "H"; "I"; "J"; "K"; "L"; "M";
   "N"; "O"; "P"; "Q"; "R"; "S"; "T"; "U"; "V"; "W"; "X"; "Y"; "Z"]%string.

(** A two-dimensional array as the list of its rows; [shape[0]] is the
    number of rows. *)
Definition Grid : Type := list (list string).

(** The slice [l[:k]]: it never raises, and clips at both ends. *)
Definition slice_to {A : Type} (l : list A) (k : Z) : list A :=
  if k <? 0 then take (Z.to_nat (Z.of_nat (length l) + k)) l
  else take (Z.to_nat k) l.

Fixpoint chunks {A : Type} (rows cols : nat) (l : list A) : list (list A) :=
  match rows with
  | O => []
  | S r => take cols l :: chunks r cols (drop cols l)
  end.

(** [a.reshape(n, n)]: with both dimensions equal a negative [n] is refused
    (two unknown dimensions for [-1], a negative dimension below), and
    otherwise the array must hold exactly [n * n] elements. *)
Definition reshape_square {A : Type} (l : list A) (n : Z)
  : option (list (list A)) :=
  if n <? 0 then None
  else if Z.of_nat (length l) =? n * n
       then Some (chunks (Z.to_nat n) (Z.to_nat n) l)
       else None.

Definition create_system (n : Z) : option Grid :=
  let letters := ascii_uppercase in
  reshape_square (slice_to letters (n * n)) n.

(** [system[i, j]] for non-negative indices. *)
Definition at2 (system : Grid) (i j : nat) : option string :=
  row ← system !! i; row !! j.

(** The body of the double loop at cell [(i, j)]: the four entries in the
    order up, right, down, left, then the table update. *)
Definition neighbors_of (system : Grid) (n i j : nat) : option (list string) :=
  let neighbors : list string := [] in
  up ← (if (0 <? i)%nat then at2 system (i - 1) j
        else at2 system i j);
  let neighbors := neighbors ++ [up] in
  right ← (if (j <? n - 1)%nat then at2 system i (j + 1)
           else at2 system i j);
  let neighbors := neighbors ++ [right] in
  down ← (if (i <? n - 1)%nat then at2 system (i + 1) j
          else at2 system i j);
  let neighbors := neighbors ++ [down] in
  left ← (if (0 <? j)%nat then at2 system i (j - 1)
          else at2 system i j);
  let neighbors := neighbors ++ [left] in
  Some neighbors.

Definition cell_update (system : Grid) (n i j : nat)
    (table : gmap string (list string)) : option (gmap string (list string)) :=
  neighbors ← neighbors_of system n i j;
  key ← at2 system i j;
  Some (<[key := neighbors]> table).

Definition get_neighborhood_table (system : Grid)
  : option (gmap string (list string)) :=
  let n := length system in
  for_each (range n) (λ i table,
    for_each (range n) (λ j table, cell_update system n i j table) table) ∅.

(** The keys of the hard-coded score table of the lattice walker. *)
Definition score_labels : list string :=
  ["A"; "B"; "C"; "D"; "E"; "F"; "G"; "H"; "I"; "J"; "K"; "L"; "M";
   "N"; "O"; "P"]%string.

(** The state before the first iteration. *)
Definition initial_walk (sta_prob : gmap string float) : option Walk :=
  let scores := init_scores score_labels in
  let current_pos := "A"%string in
  current_pos_prob ← sta_prob !! current_pos;
  Some {| current_pos := current_pos; current_pos_prob := current_pos_prob;
          scores := scores |}.

(** One iteration of the loop. *)
Definition iteration (neighborhood_table : gmap string (list string))
    (sta_prob : gmap string float) (w : Walk) : Rand Walk :=
  new_direct ← randint 0 3;
  nbrs ← lift (neighborhood_table !! current_pos w);
  new_pos ← lift (py_index nbrs new_direct);
  new_pos_prob ← lift (sta_prob !! new_pos);
  metropolis_accept new_pos new_pos_prob w.

Definition metropolis_pebble (num_iter : nat)
    (neighborhood_table : gmap string (list string))
    (sta_prob : gmap string float) : Rand (gmap string nat) :=
  w0 ← lift (initial_walk sta_prob);
  w ← for_each (range num_iter)
        (λ _ w, iteration neighborhood_table sta_prob w) w0;
  mret (scores w).

End Lattice.

(** ** Notebook 2: basic sampling *)
Module Basic.

(** The state before the first iteration. *)
Definition initial_walk (activities : list string) (probabilities : list float)
  : option Walk :=
  let scores := init_scores activities in
  current_pos ← py_index activities 0;
  current_pos_prob ← py_index probabilities 0;
  Some {| current_pos := current_pos; current_pos_prob := current_pos_prob;
          scores := scores |}.

(** One iteration of the loop. *)
Definition iteration (activities : list string) (probabilities : list float)
    (w : Walk) : Rand Walk :=
  new_idx ← randint 0 (Z.of_nat (length activities) - 1);
  new_pos ← lift (py_index activities new_idx);
  new_pos_prob ← lift (py_index probabilities new_idx);
  metropolis_accept new_pos new_pos_prob w.

Definition metropolis_pebble (num_iter : nat) (activities : list string)
    (probabilities : list float) : Rand (gmap string nat) :=
  w0 ← lift (initial_walk activities probabilities);
  w ← for_each (range num_iter)
        (λ _ w, iteration activities probabilities w) w0;
  mret (scores w).

(** *** Rejection sampling *)

(** One iteration, on the pair of the score table and the accept counter. *)
Definition reject_iteration (activities : list string)
    (probabilities : list float) (max_prob : float) (st : gmap string nat * nat)
  : Rand (gmap string nat * nat) :=
  k ← randint 0 (Z.of_nat (length activities) - 1);
  gamma ← uniform F0 max_prob;
  p ← lift (py_index probabilities k);
  if fle gamma p then
    a ← lift (py_index activities k);
    sc ← lift (incr a st.1);
    mret (sc, S st.2)
  else mret st.

Definition reject_finite (num_iter : nat) (activities : list string)
    (probabilities : list float) : Rand (gmap string nat * nat) :=
  let scores := init_scores activities in
  max_prob ← lift (py_max probabilities);
  let accept_count := 0%nat in
  for_each (range num_iter)
    (λ _ st, reject_iteration activities probabilities max_prob st)
    (scores, accept_count).

(** *** Tower sampling *)

(** [cum_prob = [0]; for i in range(len(probabilities)):
    cum_prob.append(cum_prob[i] + probabilities[i])] *)
Definition cumulative (probabilities : list float) : option (list float) :=
  for_each (range (length probabilities)) (λ i cum_prob,
    c ← cum_prob !! i;
    p ← probabilities !! i;
    Some (cum_prob ++ [fadd c p])) [F0].

(** The inner scan [for i in range(1, len(cum_prob))]: the first index with
    [gamma <= cum_prob[i]] scores and breaks; when there is none the scores
    are left as they are. *)
Fixpoint scan (idxs : list nat) (gamma : float) (cum_prob : list float)
    (activities : list string) (scores : gmap string nat)
  : option (gmap string nat) :=
  match idxs with
  | [] => Some scores
  | i :: idxs' =>
      c ← cum_prob !! i;
      if fle gamma c then
        a ← activities !! (i - 1)%nat;
        incr a scores
      else scan idxs' gamma cum_prob activities scores
  end.

Definition tower_iteration (activities : list string) (cum_prob : list float)
    (scores : gmap string nat) : Rand (gmap string nat) :=
  top ← lift (py_index cum_prob (-1));
  gamma ← uniform F0 top;
  lift (scan (range_from 1 (length cum_prob)) gamma cum_prob activities scores).

Definition tower_sample (num_iter : nat) (activities : list string)
    (probabilities : list float) : Rand (gmap string nat) :=
  let scores := init_scores activities in
  cum_prob ← lift (cumulative probabilities);
  for_each (range num_iter)
    (λ _ scores, tower_iteration activities cum_prob scores) scores.

(** *** Continuum tower sampling *)

Definition cont_tower_sample (num_iter : nat) : Rand (list R) :=
  for_each (range num_iter) (λ _ results,
    upsilon ← uniform F0 F1;
    let x := acos (1 - 2 * SF2R upsilon)%R in
    mret (results ++ [x])) [].

End Basic.

(** ** Well-formed inputs and loop invariants *)

(** Inputs of the generic samplers: at least one activity, a weight for
    every activity, every weight a finite float above zero. *)
Definition basic_inputs (activities : list string)
    (probabilities : list float) : Prop :=
  activities ≠ [] ∧
  (length activities ≤ length probabilities)%nat ∧
  Forall (λ p, pos_double p = true) probabilities.

(** Invariant of the generic walker: every activity and the current position
    have a score, and the cached weight is positive. *)
Definition basic_walk_inv (activities : list string) (w : Walk) : Prop :=
  list_to_set activities ⊆ dom (scores w) ∧
  current_pos w ∈ dom (scores w) ∧
  pos_double (current_pos_prob w) = true.

(** A label the lattice walker can move to: one of the labels of the system,
    with a positive stationary weight. *)
Definition lattice_label_ok (labels : list string)
    (sta_prob : gmap string float) (q : string) : bool :=
  bool_decide (q ∈ labels) &&
  match sta_prob !! q with Some p => pos_double p | None => false end.

(** Inputs on which the lattice walker never raises, for the labels of a
    system: every label is one of the sixteen hard-coded score keys and has
    (at least) four neighbours, all of them labels of the system of positive
    weight, and so is the start ["A"]. *)
Definition lattice_inputs (labels : list string)
    (neighborhood_table : gmap string (list string))
    (sta_prob : gmap string float) : bool :=
  forallb (λ p,
    bool_decide (p ∈ Lattice.score_labels) &&
    match neighborhood_table !! p with
    | Some nbrs =>
        (4 <=? length nbrs)%nat &&
        forallb (lattice_label_ok labels sta_prob) (take 4 nbrs)
    | None => false
    end) labels
  && lattice_label_ok labels sta_prob "A".

Definition lattice_walk_inv (labels : list string) (w : Walk) : Prop :=
  dom (scores w) = list_to_set Lattice.score_labels ∧
  current_pos w ∈ labels ∧
  pos_double (current_pos_prob w) = true.

(** The end of an iteration of a walker: it stands on [pos], whose weight
    [prob] it caches, and the score of [pos] has grown by one; when [pos] has
    no score the iteration raises ([KeyError]). *)
Definition step_to (pos : string) (prob : float) (w : Walk) (k : nat)
  : option (Walk * nat) :=
  match scores w !! pos with
  | Some v =>
      Some ({| current_pos := pos; current_pos_prob := prob;
               scores := <[pos := S v]> (scores w) |}, k)
  | None => None
  end.

(** [n] iterations of a loop body that ignores the loop index, from the
    state [s] at the cursor [k] to the state [s'] at the cursor [k']: every
    iteration completes, and each starts where the previous one ended. *)
Inductive iterated {T : Type} (body : T → Rand T) (tape : Tape)
  : nat → T → nat → T → nat → Prop :=
  | iterated_O s k : iterated body tape 0 s k s k
  | iterated_S n s k s1 k1 s' k' :
      body s tape k = Some (s1, k1) →
      iterated body tape n s1 k1 s' k' →
      iterated body tape (S n) s k s' k'.

(** ** The inputs of the notebooks *)

Definition notebook_activities : list string :=
  ["trip"; "novel"; "cricket"; "movie"; "video games"; "studying";
   "football"]%string.

(** [[0.1, 0.15, 0.25, 0.2, 0.1, 0.15, 0.05]] *)
Definition notebook_probabilities : list float :=
  [decimal 1 10; decimal 15 100; decimal 25 100; decimal 2 10; decimal 1 10;
   decimal 15 100; decimal 5 100].

Definition notebook_sta_prob : gmap string float :=
  list_to_map
    [("A", float_of_Z 2); ("B", float_of_Z 2); ("C", float_of_Z 2);
     ("D", float_of_Z 2); ("E", float_of_Z 2); ("F", float_of_Z 1);
     ("G", float_of_Z 1); ("H", float_of_Z 2); ("I", float_of_Z 2);
     ("J", float_of_Z 1); ("K", float_of_Z 1); ("L", float_of_Z 2);
     ("M", float_of_Z 2); ("N", float_of_Z 2); ("O", float_of_Z 2);
     ("P", float_of_Z 2)]%string.

(** The grid printed by the notebook for [create_system(4)]. *)
Definition notebook_system : Lattice.Grid :=
  [["A"; "B"; "C"; "D"]; ["E"; "F"; "G"; "H"];
   ["I"; "J"; "K"; "L"]; ["M"; "N"; "O"; "P"]]%string.

(** [get_neighborhood_table(create_system(4))] *)
Definition notebook_table : gmap string (list string) :=
  default ∅ (Lattice.create_system 4 ≫= Lattice.get_neighborhood_table).

(** A tape for running the samplers on concrete inputs: its unit draws cycle
    through [0.0], [0.25], [0.5], [0.75]. *)
Definition quarter (i : nat) : float :=
  match i with
  | 0%nat => F0
  | 1%nat => decimal 1 4
  | 2%nat => decimal 1 2
  | _ => decimal 3 4
  end.

Definition sample_tape : Tape := λ k,
  {| raw_int := 7 * k + 3; raw_unit := quarter (k mod 4) |}.

(** ** Vocabulary for the neighbour table *)

(** An [n] by [n] array. *)
Definition square (system : Lattice.Grid) (n : nat) : Prop :=
  length system = n ∧ Forall (λ row : list string, length row = n) system.

(** The label and the computed neighbour list of a cell, as total functions
    (they are only read at cells of the grid). *)
Definition label_at (system : Lattice.Grid) (i j : nat) : string :=
  default ""%string (Lattice.at2 system i j).

Definition neighbors_at (system : Lattice.Grid) (n i j : nat) : list string :=
  default [] (Lattice.neighbors_of system n i j).

(** The table updates in the order the double loop performs them. *)
Definition table_entries (system : Lattice.Grid) (n : nat)
  : list (string * list string) :=
  i ← range n;
  (λ j, (label_at system i j, neighbors_at system n i j)) <$> range n.

(** A batch of table updates [table[k] = v], applied in order. *)
Definition apply_updates {V : Type} (t : gmap string V)
    (es : list (string * V)) : gmap string V :=
  foldl (λ t e, <[e.1 := e.2]> t) t es.

(** ** Vocabulary for the tower sampler *)

(** The total weight, summed from the left as the code does. *)
Definition weight_sum (l : list float) : float := foldl fadd F0 l.

(** The sequence [C] with [C[0] = acc] and [C[i] = C[i-1] + w[i-1]]. *)
Fixpoint prefix_sums (acc : float) (l : list float) : list float :=
  match l with
  | [] => [acc]
  | w :: l' => acc :: prefix_sums (fadd acc w) l'
  end.

(** ** Further inputs *)

(** A five by five system with unit weights, and a tape that always proposes
    the direction "down" and always accepts. *)
Definition system5_table : gmap string (list string) :=
  default ∅ (Lattice.create_system 5 ≫= Lattice.get_neighborhood_table).

Definition system5_sta_prob : gmap string float :=
  list_to_map ((λ l, (l, F1)) <$> take 25 Lattice.ascii_uppercase).

Definition down_tape : Tape := λ _, {| raw_int := 2; raw_unit := F0 |}.


(** A tape whose unit draws are all zero. *)
Definition zero_tape : Tape := λ _, {| raw_int := 0; raw_unit := F0 |}.

(** Tapes for the ties: the draws are the float [0.8], respectively the float
    [3002399751580331 / 2^53], whose product by [3.0] rounds to [1.0]; both
    propose the index [1]. *)
Definition tie_tape : Tape := λ _, {| raw_int := 1; raw_unit := decimal 8 10 |}.

Definition third_tape : Tape := λ _,
  {| raw_int := 1; raw_unit := S754_finite false 6004799503160662 (-54) |}.

(** ** Vocabulary for the rounding of floats *)

(** The exponent of the binary64 number with [e] digits before the point. *)
Definition dbl_fexp (e : Z) : Z := Z.max (e - 53) (-1074).

(** A shift register holds bits that were shifted out. *)
Definition inexact (mrs : shr_record) : bool := shr_r mrs || shr_s mrs.

(** [y] is [x] shifted right by [n] digits. *)
Definition shifted (n : Z) (x y : shr_record) : Prop :=
  0 <= shr_m x →
  shr_m y = shr_m x / 2 ^ n ∧
  inexact y = inexact x || negb (shr_m x mod 2 ^ n =? 0).

Ltac cmp_cases :=
  repeat match goal with
  | |- context [Z.compare ?a ?b] => destruct (Z.compare_spec a b)
  | H : context [Z.compare ?a ?b] |- _ => destruct (Z.compare_spec a b)
  | |- context [Pos.compare_cont Eq ?a ?b] =>
      change (Pos.compare_cont Eq a b) with (Pos.compare a b);
      destruct (Pos.compare_spec a b)
  | H : context [Pos.compare_cont Eq ?a ?b] |- _ =>
      change (Pos.compare_cont Eq a b) with (Pos.compare a b) in H;
      destruct (Pos.compare_spec a b)
  end.

(** * Properties *)

(** ** Floats: digits and shifts *)

Lemma digits2_pos_bounds (p : positive) :
  2 ^ (Zpos (digits2_pos p) - 1) <= Zpos p < 2 ^ Zpos (digits2_pos p).
Proof.
  induction p as [p IH|p IH|]; cbn [digits2_pos].
  - rewrite Pos2Z.inj_succ.
    replace (Z.succ (Zpos (digits2_pos p)) - 1) with (Z.succ (Zpos (digits2_pos p) - 1)) by lia.
    rewrite !Z.pow_succ_r by lia. lia.
  - rewrite Pos2Z.inj_succ.
    replace (Z.succ (Zpos (digits2_pos p)) - 1) with (Z.succ (Zpos (digits2_pos p) - 1)) by lia.
    rewrite !Z.pow_succ_r by lia. lia.
  - simpl. lia.
Qed.

Lemma digits2_pos_le (p : positive) (n : Z) :
  Zpos p < 2 ^ n → Zpos (digits2_pos p) <= n.
Proof.
  intros Hp. pose proof (digits2_pos_bounds p) as [Hlo _].
  destruct (Z.le_gt_cases (Zpos (digits2_pos p)) n) as [|Hgt]; [assumption|].
  exfalso.
  assert (0 <= n).
  { destruct (Z.le_gt_cases 0 n) as [|Hneg]; [assumption|].
    rewrite Z.pow_neg_r in Hp by lia. lia. }
  assert (2 ^ n <= 2 ^ (Zpos (digits2_pos p) - 1)) by (apply Z.pow_le_mono_r; lia).
  lia.
Qed.

Lemma bounded_spec m e :
  bounded dbl_prec dbl_emax m e = true ↔
  e = Z.max (Zpos (digits2_pos m) + e - 53) (-1074) ∧ e <= 971.
Proof.
  unfold bounded, canonical_mantissa, fexp, emin, dbl_prec, dbl_emax.
  rewrite andb_true_iff, Z.eqb_eq, Z.leb_le. simpl. lia.
Qed.

Lemma shifted_1 x : shifted 1 x (shr_1 x).
Proof.
  destruct x as [m r s]. unfold shifted, inexact. cbn [shr_m shr_r shr_s].
  intros Hm. change (2 ^ 1) with 2.
  destruct m as [|[p|p|]|p]; cbn [shr_1 shr_m shr_r shr_s]; try lia.
  - split; [reflexivity|]. simpl. destruct r, s; reflexivity.
  - split; [rewrite Pos2Z.inj_xI; apply (Z.div_unique_pos _ 2 _ 1); lia|].
    replace (Zpos p~1 mod 2) with 1
      by (rewrite Pos2Z.inj_xI; apply (Z.mod_unique_pos _ 2 (Zpos p) 1); lia).
    simpl. destruct r, s; reflexivity.
  - split; [rewrite Pos2Z.inj_xO; apply (Z.div_unique_pos _ 2 _ 0); lia|].
    replace (Zpos p~0 mod 2) with 0
      by (rewrite Pos2Z.inj_xO; apply (Z.mod_unique_pos _ 2 (Zpos p) 0); lia).
    simpl. destruct r, s; reflexivity.
  - split; [reflexivity|]. simpl. destruct r, s; reflexivity.
Qed.

Lemma shifted_trans a b x y z :
  0 < a → 0 < b → shifted a x y → shifted b y z → shifted (a + b) x z.
Proof.
  intros Ha Hb Hxy Hyz Hx. destruct (Hxy Hx) as [Hym Hyi].
  assert (0 < 2 ^ a) by (apply Z.pow_pos_nonneg; lia).
  assert (0 < 2 ^ b) by (apply Z.pow_pos_nonneg; lia).
  assert (0 <= shr_m y) as Hy by (rewrite Hym; apply Z.div_pos; lia).
  destruct (Hyz Hy) as [Hzm Hzi].
  rewrite Z.pow_add_r by lia.
  split.
  - rewrite Hzm, Hym. apply Z.div_div; lia.
  - rewrite Hzi, Hyi, Hym. rewrite <- orb_assoc. f_equal.
    rewrite Z.rem_mul_r by lia.
    pose proof (Z.mod_pos_bound (shr_m x) (2 ^ a) ltac:(lia)).
    pose proof (Z.mod_pos_bound (shr_m x / 2 ^ a) (2 ^ b) ltac:(lia)).
    destruct (Z.eqb_spec (shr_m x mod 2 ^ a) 0) as [E1|E1];
    destruct (Z.eqb_spec ((shr_m x / 2 ^ a) mod 2 ^ b) 0) as [E2|E2];
    destruct (Z.eqb_spec (shr_m x mod 2 ^ a
                 + 2 ^ a * ((shr_m x / 2 ^ a) mod 2 ^ b)) 0) as [E3|E3];
    simpl; try reflexivity; nia.
Qed.

Lemma iter_pos_shifted p x : shifted (Zpos p) x (SpecFloat.iter_pos shr_1 p x).
Proof.
  revert x. induction p as [p IH|p IH|]; intros x; cbn [SpecFloat.iter_pos].
  - rewrite Pos2Z.inj_xI.
    replace (2 * Zpos p + 1) with (1 + (Zpos p + Zpos p)) by lia.
    eapply shifted_trans; [lia|lia|apply shifted_1|].
    eapply shifted_trans; [lia|lia|apply IH|apply IH].
  - rewrite Pos2Z.inj_xO.
    replace (2 * Zpos p) with (Zpos p + Zpos p) by lia.
    eapply shifted_trans; [lia|lia|apply IH|apply IH].
  - apply shifted_1.
Qed.

Lemma fexp_dbl e : fexp dbl_prec dbl_emax e = dbl_fexp e.
Proof. reflexivity. Qed.

Lemma shr_fexp_spec m e l :
  0 <= m →
  let n := dbl_fexp (Zdigits2 m + e) - e in
  let res := shr_fexp dbl_prec dbl_emax m e l in
  (n <= 0 → res = (shr_record_of_loc m l, e)) ∧
  (0 < n → res.2 = e + n ∧ shifted n (shr_record_of_loc m l) res.1).
Proof.
  intros Hm n res. subst res. unfold shr_fexp. rewrite fexp_dbl. fold n.
  destruct n as [|p|p] eqn:En; unfold shr.
  - split; [reflexivity|lia].
  - split; [lia|]. intros _. split; [reflexivity|]. apply iter_pos_shifted.
  - split; [reflexivity|lia].
Qed.

Lemma shr_m_of_loc m l : shr_m (shr_record_of_loc m l) = m.
Proof. destruct l as [|[]]; reflexivity. Qed.

Lemma inexact_of_loc_Exact m : inexact (shr_record_of_loc m loc_Exact) = false.
Proof. reflexivity. Qed.

Lemma round_nearest_even_bounds mrs :
  let m' := round_nearest_even (shr_m mrs) (loc_of_shr_record mrs) in
  shr_m mrs <= m' ∧ m' <= shr_m mrs + (if inexact mrs then 1 else 0).
Proof.
  destruct mrs as [m [] []]; unfold inexact; cbn; try lia.
  destruct (Z.even m); lia.
Qed.

(** comparisons of positive finite numbers *)
Lemma fle_finite_pos m1 e1 m2 e2 :
  fle (S754_finite false m1 e1) (S754_finite false m2 e2) = true ↔
  e1 < e2 ∨ (e1 = e2 ∧ Zpos m1 <= Zpos m2).
Proof.
  unfold fle, SFleb, SFcompare.
  destruct (Z.compare_spec e1 e2) as [He|He|He].
  - change (Pos.compare_cont Eq m1 m2) with (Pos.compare m1 m2).
    destruct (Pos.compare_spec m1 m2) as [Hm|Hm|Hm]; split; try done; try lia.
  - split; [lia|done].
  - split; [done|lia].
Qed.

Lemma flt_finite_pos m1 e1 m2 e2 :
  flt (S754_finite false m1 e1) (S754_finite false m2 e2) = true ↔
  e1 < e2 ∨ (e1 = e2 ∧ Zpos m1 < Zpos m2).
Proof.
  unfold flt, SFltb, SFcompare.
  destruct (Z.compare_spec e1 e2) as [He|He|He].
  - change (Pos.compare_cont Eq m1 m2) with (Pos.compare m1 m2).
    destruct (Pos.compare_spec m1 m2) as [Hm|Hm|Hm]; split; try done; try lia.
  - split; [lia|done].
  - split; [done|lia].
Qed.

(** The result of the last normalisation step of a rounding is at most a
    double [(mb, eb)] that bounds the rounded mantissa. *)
Lemma round_finish_le m1 e1 mb eb :
  0 <= m1 → e1 <= eb → m1 <= Zpos mb * 2 ^ (eb - e1) →
  Zpos (digits2_pos mb) <= 53 → -1074 <= eb <= 971 →
  let res := shr_fexp dbl_prec dbl_emax m1 e1 loc_Exact in
  fle match shr_m res.1 with
      | Z0 => S754_zero false
      | Zpos m => if res.2 <=? dbl_emax - dbl_prec
                  then S754_finite false m res.2 else S754_infinity false
      | Zneg _ => S754_nan
      end (S754_finite false mb eb) = true.
Proof.
  intros Hm1 He1 Hle Hdb Heb res.
  destruct (shr_fexp_spec m1 e1 loc_Exact Hm1) as [Hstay Hshift].
  fold res in Hstay, Hshift.
  change (dbl_emax - dbl_prec) with 971.
  destruct (Z.le_gt_cases (dbl_fexp (Zdigits2 m1 + e1) - e1) 0) as [Hn|Hn].
  - rewrite (Hstay Hn). cbn [fst snd shr_record_of_loc shr_m].
    destruct m1 as [|p|p]; [reflexivity| |lia].
    destruct (Z.leb_spec e1 971); [|lia].
    apply fle_finite_pos.
    destruct (Z.eq_dec e1 eb) as [->|]; [|lia].
    right. rewrite Z.sub_diag in Hle. simpl in Hle. lia.
  - destruct (Hshift ltac:(lia)) as [He2 Hsh].
    destruct (Hsh ltac:(rewrite shr_m_of_loc; lia)) as [Hm2 _].
    rewrite shr_m_of_loc in Hm2.
    set (n := dbl_fexp (Zdigits2 m1 + e1) - e1) in *.
    assert (0 < 2 ^ n) by (apply Z.pow_pos_nonneg; lia).
    assert (0 <= shr_m res.1) as Hnn by (rewrite Hm2; apply Z.div_pos; lia).
    destruct (shr_m res.1) as [|p2|p2] eqn:Ep2; [reflexivity| |lia].
    destruct m1 as [|p1|p1]; [rewrite Z.div_0_l in Hm2 by lia; lia| |lia].
    assert (Zpos (digits2_pos p1) <= Zpos (digits2_pos mb) + (eb - e1)) as Hd1.
    { apply digits2_pos_le.
      pose proof (digits2_pos_bounds mb) as [_ Hub].
      rewrite Z.pow_add_r by lia.
      assert (0 < 2 ^ (eb - e1)) by (apply Z.pow_pos_nonneg; lia).
      nia. }
    assert (res.2 <= eb) as Hr2.
    { rewrite He2. unfold n, dbl_fexp in *. cbn [Zdigits2] in *. lia. }
    destruct (Z.leb_spec res.2 971); [|lia].
    apply fle_finite_pos.
    destruct (Z.eq_dec res.2 eb) as [Heq|]; [|lia].
    right. split; [exact Heq|].
    assert (n = eb - e1) as Hneq by lia.
    rewrite Hm2, Hneq.
    apply Z.div_le_upper_bound; [rewrite <- Hneq; lia|]. lia.
Qed.

Lemma binary_round_aux_le m e mb eb :
  0 <= m → e <= eb → m <= Zpos mb * 2 ^ (eb - e) →
  dbl_fexp (Zdigits2 m + e) <= eb →
  Zpos (digits2_pos mb) <= 53 → -1074 <= eb <= 971 →
  fle (binary_round_aux dbl_prec dbl_emax false m e loc_Exact)
      (S754_finite false mb eb) = true.
Proof.
  intros Hm He Hle Hf Hdb Heb.
  unfold binary_round_aux.
  destruct (shr_fexp_spec m e loc_Exact Hm) as [Hstay Hshift].
  destruct (shr_fexp dbl_prec dbl_emax m e loc_Exact) as [mrs1 e1] eqn:E1.
  cbn [fst snd] in Hstay, Hshift.
  pose proof (round_nearest_even_bounds mrs1) as [Hlo Hhi].
  set (m1 := round_nearest_even (shr_m mrs1) (loc_of_shr_record mrs1)) in *.
  assert (0 <= shr_m mrs1 ∧ e1 <= eb ∧ m1 <= Zpos mb * 2 ^ (eb - e1))
    as (Hnn & He1 & Hm1).
  { destruct (Z.le_gt_cases (dbl_fexp (Zdigits2 m + e) - e) 0) as [Hn|Hn].
    - specialize (Hstay Hn). injection Hstay as -> ->.
      cbn [shr_record_of_loc shr_m inexact shr_r shr_s orb] in *. lia.
    - destruct (Hshift ltac:(lia)) as [-> Hsh].
      destruct (Hsh ltac:(rewrite shr_m_of_loc; lia)) as [Hq Hi].
      rewrite shr_m_of_loc in Hq, Hi. rewrite inexact_of_loc_Exact in Hi.
      simpl in Hi.
      set (n := dbl_fexp (Zdigits2 m + e) - e) in *.
      assert (0 < 2 ^ n) by (apply Z.pow_pos_nonneg; lia).
      assert (0 < 2 ^ (eb - (e + n))) by (apply Z.pow_pos_nonneg; lia).
      assert (2 ^ (eb - e) = 2 ^ (eb - (e + n)) * 2 ^ n) as Hsplit
        by (rewrite <- Z.pow_add_r by lia; f_equal; lia).
      pose proof (Z.div_mod m (2 ^ n) ltac:(lia)) as Hdm.
      pose proof (Z.mod_pos_bound m (2 ^ n) ltac:(lia)) as Hmod.
      split; [rewrite Hq; apply Z.div_pos; lia|]. split; [lia|].
      rewrite Hsplit in Hle. rewrite Hi in Hhi.
      destruct (Z.eqb_spec (m mod 2 ^ n) 0) as [Hz|Hz]; simpl in Hhi.
      + assert (shr_m mrs1 <= Zpos mb * 2 ^ (eb - (e + n))); [|lia].
        rewrite Hq. apply Z.div_le_upper_bound; lia.
      + assert (shr_m mrs1 < Zpos mb * 2 ^ (eb - (e + n))); [|lia].
        rewrite Hq. apply Z.div_lt_upper_bound; [lia|].
        destruct (Z.eq_dec m (Zpos mb * 2 ^ (eb - (e + n)) * 2 ^ n)) as [Heq|Hne].
        * exfalso. apply Hz. rewrite Heq. apply Z.mod_mul. lia.
        * lia. }
  pose proof (round_finish_le m1 e1 mb eb ltac:(lia) He1 Hm1 Hdb Heb) as Hfin.
  cbv zeta in Hfin.
  destruct (shr_fexp dbl_prec dbl_emax m1 e1 loc_Exact) as [mrs2 e2].
  exact Hfin.
Qed.

Lemma shr_fexp_nonneg m e l :
  0 <= m → 0 <= shr_m (shr_fexp dbl_prec dbl_emax m e l).1.
Proof.
  intros Hm. destruct (shr_fexp_spec m e l Hm) as [Hstay Hshift].
  destruct (Z.le_gt_cases (dbl_fexp (Zdigits2 m + e) - e) 0) as [Hn|Hn].
  - rewrite (Hstay Hn). cbn [fst]. rewrite shr_m_of_loc. exact Hm.
  - destruct (Hshift ltac:(lia)) as [_ Hsh].
    destruct (Hsh ltac:(rewrite shr_m_of_loc; lia)) as [Hq _].
    rewrite Hq, shr_m_of_loc. apply Z.div_pos; [lia|].
    apply Z.pow_pos_nonneg; lia.
Qed.

(** A rounding of a non-negative mantissa is a zero, a finite number or an
    infinity of the given sign, never a NaN. *)
Lemma binary_round_aux_sign s m e l :
  0 <= m →
  match binary_round_aux dbl_prec dbl_emax s m e l with
  | S754_zero s' | S754_infinity s' | S754_finite s' _ _ => s' = s
  | S754_nan => False
  end.
Proof.
  intros Hm. unfold binary_round_aux.
  pose proof (shr_fexp_nonneg m e l Hm) as H1.
  destruct (shr_fexp dbl_prec dbl_emax m e l) as [mrs1 e1]. cbn [fst] in H1.
  pose proof (round_nearest_even_bounds mrs1) as [Hlo _].
  set (m1 := round_nearest_even (shr_m mrs1) (loc_of_shr_record mrs1)) in *.
  pose proof (shr_fexp_nonneg m1 e1 loc_Exact ltac:(lia)) as H2.
  destruct (shr_fexp dbl_prec dbl_emax m1 e1 loc_Exact) as [mrs2 e2].
  cbn [fst] in H2.
  destruct (shr_m mrs2); [reflexivity| |lia].
  destruct (e2 <=? dbl_emax - dbl_prec); reflexivity.
Qed.

(** ** Products with a unit draw *)

Lemma pos_double_spec x :
  pos_double x = true ↔
  ∃ m e, x = S754_finite false m e ∧ bounded dbl_prec dbl_emax m e = true.
Proof.
  split.
  - destruct x as [| | |[] m e]; try discriminate. intros H. eauto.
  - intros (m & e & -> & H). exact H.
Qed.

Lemma unit_double_spec x :
  unit_double x = true →
  x = F0 ∨ ∃ m e, x = S754_finite false m e ∧
                  bounded dbl_prec dbl_emax m e = true ∧
                  Zpos m < 2 ^ (- e) ∧ e < 0.
Proof.
  destruct x as [[]| | |[] m e]; try discriminate; [left; reflexivity|].
  cbn [unit_double]. intros [[Hb Hlt]%andb_true_iff _]%andb_true_iff. right.
  exists m, e. split; [reflexivity|]. split; [exact Hb|].
  apply flt_finite_pos in Hlt. apply bounded_spec in Hb as [Hc _].
  pose proof (digits2_pos_bounds m) as [_ Hub].
  destruct Hlt as [He|[-> Hm]].
  - split; [|lia].
    assert (2 ^ Zpos (digits2_pos m) <= 2 ^ (- e))
      by (apply Z.pow_le_mono_r; lia).
    lia.
  - split; [|lia]. exact Hm.
Qed.

Lemma digits2_pos_mul (a b : positive) :
  Zpos (digits2_pos (a * b)) <= Zpos (digits2_pos a) + Zpos (digits2_pos b).
Proof.
  apply digits2_pos_le. rewrite Pos2Z.inj_mul, Z.pow_add_r by lia.
  pose proof (digits2_pos_bounds a). pose proof (digits2_pos_bounds b). nia.
Qed.

(** The product of a positive double by a draw of [[0, 1)], rounded, lies
    between zero and that double. *)
Lemma fmul_unit_range b r :
  pos_double b = true → unit_double r = true →
  fle F0 (fmul b r) = true ∧ fle (fmul b r) b = true.
Proof.
  intros (mb & eb & -> & Hb)%pos_double_spec
         [->|(mr & er & -> & Hr & Hlt & Her)]%unit_double_spec.
  - split; reflexivity.
  - unfold fmul. cbn [SFmul xorb].
    split.
    + pose proof (binary_round_aux_sign false (Zpos (mb * mr)) (eb + er)
                    loc_Exact ltac:(lia)) as Hs.
      destruct (binary_round_aux _ _ _ _ _ _) as [s|s| |s m e];
        try (subst s); try reflexivity; contradiction.
    + apply bounded_spec in Hb as [Hcb Heb].
      pose proof (digits2_pos_bounds mr) as [Hlo _].
      assert (Zpos (digits2_pos mr) <= - er) as Hdr
        by (apply digits2_pos_le; exact Hlt).
      pose proof (digits2_pos_mul mb mr) as Hdm.
      apply binary_round_aux_le; try lia.
      * replace (eb - (eb + er)) with (- er) by lia.
        rewrite Pos2Z.inj_mul. nia.
      * cbn [Zdigits2]. unfold dbl_fexp. lia.
Qed.

Lemma digits2_pos_unique p d :
  2 ^ (d - 1) <= Zpos p < 2 ^ d → Zpos (digits2_pos p) = d.
Proof.
  intros [Hlo Hhi]. pose proof (digits2_pos_bounds p) as [Hlo' Hhi'].
  pose proof (digits2_pos_le p d Hhi).
  destruct (Z.lt_ge_cases (Zpos (digits2_pos p)) d) as [Hlt|]; [|lia].
  exfalso.
  assert (2 ^ Zpos (digits2_pos p) <= 2 ^ (d - 1))
    by (apply Z.pow_le_mono_r; lia).
  lia.
Qed.

(** Multiplying by [1.0] is exact. *)
Lemma fmul_one_l m e :
  bounded dbl_prec dbl_emax m e = true →
  fmul F1 (S754_finite false m e) = S754_finite false m e.
Proof.
  intros Hb. apply bounded_spec in Hb as [Hc He].
  unfold fmul, F1. cbn [SFmul xorb]. unfold binary_round_aux.
  set (P := Zpos (4503599627370496 * m)).
  assert (P = 2 ^ 52 * Zpos m) as HP by (unfold P; rewrite Pos2Z.inj_mul; reflexivity).
  assert (0 < 2 ^ 52) as H52 by reflexivity.
  pose proof (digits2_pos_bounds m) as [Hlo Hhi].
  assert (Zdigits2 P = Zpos (digits2_pos m) + 52) as HdP.
  { unfold P. cbn [Zdigits2]. apply digits2_pos_unique. fold P. rewrite HP.
    replace (Zpos (digits2_pos m) + 52 - 1) with (52 + (Zpos (digits2_pos m) - 1))
      by lia.
    replace (Zpos (digits2_pos m) + 52) with (52 + Zpos (digits2_pos m)) by lia.
    rewrite !Z.pow_add_r by lia. nia. }
  destruct (shr_fexp_spec P (-52 + e) loc_Exact ltac:(lia)) as [_ Hshift].
  assert (dbl_fexp (Zdigits2 P + (-52 + e)) - (-52 + e) = 52) as Hn
    by (rewrite HdP; unfold dbl_fexp; lia).
  rewrite Hn in Hshift. destruct (Hshift ltac:(lia)) as [He1 Hsh].
  destruct (Hsh ltac:(simpl; lia)) as [Hq Hi].
  destruct (shr_fexp dbl_prec dbl_emax P (-52 + e) loc_Exact) as [[m1 r1 s1] e1].
  cbn [fst snd shr_m shr_record_of_loc] in He1, Hq, Hi.
  unfold inexact in Hi. cbn [shr_r shr_s] in Hi.
  rewrite HP, Z.mul_comm, Z.div_mul in Hq by lia.
  rewrite HP, Z.mul_comm, Z.mod_mul in Hi by lia. simpl in Hi.
  apply orb_false_iff in Hi as [-> ->]. subst m1.
  cbn [shr_m loc_of_shr_record round_nearest_even].
  destruct (shr_fexp_spec (Zpos m) e1 loc_Exact ltac:(lia)) as [Hstay _].
  rewrite Hstay by (cbn [Zdigits2]; unfold dbl_fexp; lia).
  cbn [shr_record_of_loc shr_m].
  replace e1 with e by lia.
  change (dbl_emax - dbl_prec) with 971.
  destruct (Z.leb_spec e 971); [reflexivity|lia].
Qed.

(** ** The order of the doubles *)

Lemma SFcompare_refl x : x ≠ S754_nan → SFcompare x x = Some Eq.
Proof.
  destruct x as [s|[]| |[] m e]; try done; intros _; cbn.
  - rewrite Z.compare_refl.
    change (Pos.compare_cont Eq m m) with (Pos.compare m m).
    rewrite Pos.compare_refl. reflexivity.
  - rewrite Z.compare_refl.
    change (Pos.compare_cont Eq m m) with (Pos.compare m m).
    rewrite Pos.compare_refl. reflexivity.
Qed.

Lemma fle_refl x : x ≠ S754_nan → fle x x = true.
Proof. intros H. unfold fle, SFleb. rewrite SFcompare_refl by exact H. done. Qed.

Lemma fle_trans x y z : fle x y = true → fle y z = true → fle x z = true.
Proof.
  unfold fle, SFleb.
  destruct x as [sx|[]| |[] mx ex], y as [sy|[]| |[] my ey],
           z as [sz|[]| |[] mz ez]; cbn; try done;
    intros Hxy Hyz; cmp_cases; simpl in *; try done; lia.
Qed.

Lemma flt_fle x y : flt x y = true → fle x y = true.
Proof. unfold flt, fle, SFltb, SFleb. destruct (SFcompare x y) as [[]|]; done. Qed.

(** Two numbers are comparable unless one is a NaN. *)
Lemma flt_false_fle x y :
  x ≠ S754_nan → y ≠ S754_nan → flt x y = false → fle y x = true.
Proof.
  unfold fle, flt, SFleb, SFltb.
  destruct x as [sx|[]| |[] mx ex], y as [sy|[]| |[] my ey]; cbn; try done;
    intros _ _ H; cmp_cases; simpl in *; try done; lia.
Qed.


Lemma flt_fle_trans x y z : flt x y = true → fle y z = true → flt x z = true.
Proof.
  unfold fle, flt, SFleb, SFltb.
  destruct x as [sx|[]| |[] mx ex], y as [sy|[]| |[] my ey],
           z as [sz|[]| |[] mz ez]; cbn; try done;
    intros Hxy Hyz; cmp_cases; simpl in *; try done; lia.
Qed.

Lemma pos_double_positive x : pos_double x = true → flt F0 x = true.
Proof. intros (m & e & -> & _)%pos_double_spec. reflexivity. Qed.

Lemma pos_double_not_nan x : pos_double x = true → x ≠ S754_nan.
Proof. intros (m & e & -> & _)%pos_double_spec. done. Qed.

Lemma pos_double_nonzero x : pos_double x = true → feq x F0 = false.
Proof. intros (m & e & -> & _)%pos_double_spec. reflexivity. Qed.

Lemma unit_double_range x :
  unit_double x = true → fle F0 x = true ∧ flt x F1 = true.
Proof.
  destruct x as [[]| | |[] m e]; try discriminate.
  - intros _. split; reflexivity.
  - cbn [unit_double]. intros [[_ H]%andb_true_iff _]%andb_true_iff.
    split; [reflexivity|exact H].
Qed.

(** ** Division *)



(** ** Floats: the draws of [random.uniform] *)

Lemma fmul_pos_shape b r :
  pos_double b = true → unit_double r = true →
  match fmul b r with
  | S754_zero s | S754_finite s _ _ | S754_infinity s => s = false
  | S754_nan => False
  end.
Proof.
  intros (mb & eb & -> & Hb)%pos_double_spec
         [->|(mr & er & -> & Hr & Hlt & Her)]%unit_double_spec.
  - reflexivity.
  - unfold fmul. cbn [SFmul xorb].
    apply (binary_round_aux_sign false (Zpos (mb * mr)) (eb + er) loc_Exact).
    lia.
Qed.

(** [uniform(0, 1)] returns the value of [random()] itself. *)
Lemma uniform_unit_value r :
  unit_double r = true → fadd F0 (fmul (fsub F1 F0) r) = r.
Proof.
  destruct r as [[]| | |[] m e]; try discriminate; intros H.
  - reflexivity.
  - cbn [unit_double] in H.
    apply andb_true_iff in H as [[Hb _]%andb_true_iff _].
    change (fsub F1 F0) with F1. rewrite (fmul_one_l m e Hb). reflexivity.
Qed.

(** [uniform(0, b)] is the rounded product [b * random()], a float of
    [[0, b]]. *)
Lemma uniform_range_value b r :
  pos_double b = true → unit_double r = true →
  fadd F0 (fmul (fsub b F0) r) = fmul b r ∧
  fle F0 (fmul b r) = true ∧ fle (fmul b r) b = true.
Proof.
  intros Hb Hr.
  pose proof (fmul_pos_shape b r Hb Hr) as Hs.
  destruct (fmul_unit_range b r Hb Hr) as [H0 H1].
  split; [|split; assumption].
  apply pos_double_spec in Hb as (mb & eb & -> & Hb).
  change (fsub (S754_finite false mb eb) F0) with (S754_finite false mb eb).
  destruct (fmul (S754_finite false mb eb) r) as [s|s| |s m e];
    try contradiction; subst s; reflexivity.
Qed.

(** Adding a zero does not change how a float compares. *)
Lemma fadd_zero_r_compare g c w :
  feq w F0 = true → SFcompare g (fadd c w) = SFcompare g c.
Proof.
  destruct w as [s|[]| |[] m e]; try discriminate. intros _.
  destruct c as [[]|[]| |sc mc ec], s, g as [sg|[]| |[] mg eg]; reflexivity.
Qed.

(** ** Floats: real values of the draws *)

Lemma unit_double_value u :
  unit_double u = true →
  (0 <= SF2Q u)%Q ∧ (SF2Q u < 1)%Q ∧ (SF2Q u == 0 ↔ u = F0)%Q.
Proof.
  intros [->|(m & e & -> & Hb & Hm & He)]%unit_double_spec.
  - split; [apply Qle_refl|]. split; [reflexivity|]. split; reflexivity.
  - destruct e as [|p|p]; try lia. cbn [SF2Q].
    assert (Zpos (2 ^ p) = 2 ^ Zpos p) as Hpow by apply Pos2Z.inj_pow.
    change (- Zneg p) with (Zpos p) in Hm.
    split; [unfold Qle; simpl; lia|].
    split; [unfold Qlt; simpl; lia|].
    split; [|discriminate].
    unfold Qeq. simpl. lia.
Qed.

Lemma unit_double_real u :
  unit_double u = true →
  (0 <= SF2R u < 1)%R ∧ (SF2R u = 0%R ↔ u = F0).
Proof.
  intros Hu. destruct (unit_double_value u Hu) as (H0 & H1 & Hz).
  unfold SF2R. split.
  - apply Qle_Rle in H0. apply Qlt_Rlt in H1.
    rewrite RMicromega.Q2R_0 in H0. rewrite RMicromega.Q2R_1 in H1.
    split; assumption.
  - split.
    + intros Heq. apply Hz. apply eqR_Qeq.
      rewrite RMicromega.Q2R_0. exact Heq.
    + intros ->. apply RMicromega.Q2R_0.
Qed.

(** On the draws the order of the floats is the order of their values. *)
Lemma unit_double_le_value u v :
  unit_double u = true → unit_double v = true → fle u v = true →
  (SF2Q u <= SF2Q v)%Q.
Proof.
  intros Hu Hv Hle. destruct (unit_double_value v Hv) as (Hv0 & _).
  apply unit_double_spec in Hu as [->|(m1 & e1 & -> & Hb1 & Hm1 & He1)];
    [exact Hv0|].
  apply unit_double_spec in Hv as [->|(m2 & e2 & -> & Hb2 & Hm2 & He2)];
    [discriminate|].
  apply fle_finite_pos in Hle.
  destruct e1 as [|p1|p1], e2 as [|p2|p2]; try lia. cbn [SF2Q].
  unfold Qle. cbn [Qnum Qden].
  rewrite !Pos2Z.inj_pow.
  destruct Hle as [Hlt|[Heq Hm]].
  - apply bounded_spec in Hb1 as [Hc1 _]. apply bounded_spec in Hb2 as [Hc2 _].
    pose proof (digits2_pos_bounds m1) as [_ Hhi1].
    pose proof (digits2_pos_bounds m2) as [Hlo2 _].
    assert (Zpos (digits2_pos m2) = 53) as Hd2 by lia.
    rewrite Hd2 in Hlo2. change (2 ^ (53 - 1)) with (2 ^ 52) in Hlo2.
    assert (Zpos m1 < 2 ^ 53) as Hm153.
    { eapply Z.lt_le_trans; [exact Hhi1|]. apply Z.pow_le_mono_r; lia. }
    replace (2 ^ Zpos p1) with (2 ^ Zpos p2 * 2 ^ (Zpos p1 - Zpos p2))
      by (rewrite <- Z.pow_add_r by lia; f_equal; lia).
    assert (2 <= 2 ^ (Zpos p1 - Zpos p2)).
    { change 2 with (2 ^ 1) at 1. apply Z.pow_le_mono_r; lia. }
    assert (0 < 2 ^ Zpos p2) by (apply Z.pow_pos_nonneg; lia).
    change (2 ^ 53) with (2 * 2 ^ 52) in Hm153.
    assert (Zpos m1 <= Zpos m2 * 2 ^ (Zpos p1 - Zpos p2)) as Hle by nia.
    replace (Zpos m2 * (2 ^ Zpos p2 * 2 ^ (Zpos p1 - Zpos p2)))
      with (Zpos m2 * 2 ^ (Zpos p1 - Zpos p2) * 2 ^ Zpos p2) by ring.
    apply Z.mul_le_mono_nonneg_r; lia.
  - injection Heq as ->.
    assert (0 < 2 ^ Zpos p2) by (apply Z.pow_pos_nonneg; lia). nia.
Qed.

(** ** Floats: quotients of at least one *)



(** ** Score tables *)
Section score_tables.
Implicit Types (sc : gmap string nat) (k : string).

Lemma score_sum_empty : score_sum ∅ = 0%nat.
Proof. apply map_fold_empty. Qed.

Lemma score_sum_insert_fresh k v sc :
  sc !! k = None → score_sum (<[k := v]> sc) = (v + score_sum sc)%nat.
Proof.
  intros Hk. unfold score_sum.
  apply (map_fold_insert_L (λ _ v acc, (v + acc)%nat)); [|exact Hk].
  intros. lia.
Qed.

Lemma score_sum_lookup k v sc :
  sc !! k = Some v → score_sum sc = (v + score_sum (delete k sc))%nat.
Proof.
  intros Hk. unfold score_sum.
  apply (map_fold_delete_L (λ _ v acc, (v + acc)%nat)); [|exact Hk].
  intros. lia.
Qed.

(** Overwriting a count moves the sum by the difference. *)
Lemma score_sum_insert k v v' sc :
  sc !! k = Some v →
  (score_sum (<[k := v']> sc) + v = v' + score_sum sc)%nat.
Proof.
  intros Hk. rewrite (score_sum_lookup k v sc Hk).
  rewrite <- (insert_delete_eq sc k v').
  rewrite score_sum_insert_fresh by apply lookup_delete_eq. lia.
Qed.

(** [scores[k] += 1] adds exactly one hit. *)
Lemma score_sum_incr k sc sc' :
  incr k sc = Some sc' → score_sum sc' = S (score_sum sc).
Proof.
  unfold incr. destruct (sc !! k) as [v|] eqn:Hk; simpl; [|discriminate].
  intros [= <-]. pose proof (score_sum_insert k v (S v) sc Hk). lia.
Qed.

Lemma incr_dom k sc sc' : incr k sc = Some sc' → dom sc' = dom sc.
Proof.
  unfold incr. destruct (sc !! k) as [v|] eqn:Hk; simpl; [|discriminate].
  intros [= <-]. rewrite dom_insert_L.
  apply elem_of_dom_2 in Hk. set_solver.
Qed.

Lemma incr_is_Some k sc : k ∈ dom sc → is_Some (incr k sc).
Proof.
  intros [v Hv]%elem_of_dom. unfold incr. rewrite Hv. simpl. eauto.
Qed.

Lemma init_scores_from_dom sc0 activities :
  dom (foldl (λ sc a, <[a := 0%nat]> sc) sc0 activities)
  = dom sc0 ∪ list_to_set activities.
Proof.
  revert sc0. induction activities as [|a l IH]; intros sc0; simpl.
  - set_solver.
  - rewrite IH, dom_insert_L. set_solver.
Qed.

Lemma init_scores_dom activities :
  dom (init_scores activities) = list_to_set activities.
Proof. unfold init_scores. rewrite init_scores_from_dom. set_solver. Qed.

Lemma init_scores_from_sum sc0 activities :
  score_sum sc0 = 0%nat →
  score_sum (foldl (λ sc a, <[a := 0%nat]> sc) sc0 activities) = 0%nat.
Proof.
  revert sc0. induction activities as [|a l IH]; intros sc0 H0; simpl.
  - exact H0.
  - apply IH. destruct (sc0 !! a) as [v|] eqn:Ha.
    + pose proof (score_sum_insert a v 0%nat sc0 Ha). lia.
    + rewrite score_sum_insert_fresh by exact Ha. lia.
Qed.

(** A fresh score table holds no hit. *)
Lemma init_scores_sum activities : score_sum (init_scores activities) = 0%nat.
Proof. apply init_scores_from_sum, score_sum_empty. Qed.

End score_tables.

(** ** The monad of tape readers *)
Section rand_monad.
Context {A B : Type}.

Lemma bind_Some (m : Rand A) (f : A → Rand B) tape k y k'' :
  (m ≫= f) tape k = Some (y, k'') ↔
  ∃ x k', m tape k = Some (x, k') ∧ f x tape k' = Some (y, k'').
Proof.
  unfold mbind, Rand_bind. destruct (m tape k) as [[x k']|].
  - split; [eauto|]. intros (? & ? & [= <- <-] & ?). assumption.
  - split; [discriminate|]. intros (? & ? & ? & ?). discriminate.
Qed.

Lemma bind_eq (m : Rand A) (f : A → Rand B) tape k x k' :
  m tape k = Some (x, k') → (m ≫= f) tape k = f x tape k'.
Proof. intros H. unfold mbind, Rand_bind. rewrite H. reflexivity. Qed.

Lemma lift_Some (o : option A) tape k x k' :
  lift o tape k = Some (x, k') ↔ o = Some x ∧ k' = k.
Proof.
  unfold lift. destruct o; split; try discriminate.
  - intros [= <- <-]. auto.
  - intros [[= <-] ->]. reflexivity.
  - intros [? _]. discriminate.
Qed.

End rand_monad.

(** A loop whose body always completes from a state satisfying the
    invariant, then satisfying it for one more iteration, completes after
    exactly [length xs] iterations. The invariant sees the number of
    iterations done, the loop state and the tape cursor. *)
Lemma for_each_counted {A T : Type} (I : nat → T → nat → Prop)
    (body : A → T → Rand T) (tape : Tape) (xs : list A) :
  (∀ x n s k, I n s k → ∃ s' k', body x s tape k = Some (s', k') ∧ I (S n) s' k') →
  ∀ n s k, I n s k →
    ∃ s' k', for_each xs body s tape k = Some (s', k') ∧
             I (n + length xs)%nat s' k'.
Proof.
  intros Hbody. induction xs as [|x xs IH]; intros n s k Hs; simpl.
  - exists s, k. split; [reflexivity|]. rewrite Nat.add_0_r. exact Hs.
  - destruct (Hbody x n s k Hs) as (s1 & k1 & Hb & Hs1).
    rewrite (bind_eq _ _ _ _ _ _ Hb).
    replace (n + S (length xs))%nat with (S n + length xs)%nat by lia.
    apply IH, Hs1.
Qed.

(** Whenever a loop completes, an invariant of its body holds at the end. *)
Lemma for_each_preserves {A T : Type} (I : T → Prop) (body : A → T → Rand T)
    (tape : Tape) (xs : list A) :
  (∀ x s k s' k', I s → body x s tape k = Some (s', k') → I s') →
  ∀ s k s' k', I s → for_each xs body s tape k = Some (s', k') → I s'.
Proof.
  intros Hbody. induction xs as [|x xs IH]; intros s k s' k' Hs; simpl.
  - intros [= <- <-]. exact Hs.
  - intros (s1 & k1 & Hb & Hrest)%bind_Some. eauto.
Qed.

(** A loop over [range(n)] whose body ignores the index is [n] iterations of
    the body. *)
Lemma for_each_seq_iterated {T : Type} (body : T → Rand T) (tape : Tape)
    (n a : nat) s k s' k' :
  for_each (seq a n) (λ _, body) s tape k = Some (s', k') ↔
  iterated body tape n s k s' k'.
Proof.
  revert a s k. induction n as [|n IH]; intros a s k; simpl.
  - split.
    + intros [= <- <-]. constructor.
    + intros Hit. inversion Hit; subst. reflexivity.
  - split.
    + intros (s1 & k1 & Hb & Hrest)%bind_Some.
      econstructor; [exact Hb|]. apply (IH (S a)), Hrest.
    + intros Hit. inversion Hit as [|? ? ? s1 k1 ? ? Hb Hrest]; subst.
      apply bind_Some. exists s1, k1. split; [exact Hb|].
      apply (IH (S a)), Hrest.
Qed.

Lemma for_each_iterated {T : Type} (body : T → Rand T) (tape : Tape)
    (n : nat) s k s' k' :
  for_each (range n) (λ _, body) s tape k = Some (s', k') ↔
  iterated body tape n s k s' k'.
Proof. apply for_each_seq_iterated. Qed.

(** ** Python primitives *)

Lemma py_div_pos a b : pos_double b = true → py_div a b = Some (fdiv a b).
Proof.
  intros Hb. unfold py_div. rewrite (pos_double_nonzero b Hb). reflexivity.
Qed.

(** [random.uniform(0, 1)] is the raw draw, a float of [[0, 1)]. *)
Lemma uniform_unit tape k :
  valid_tape tape →
  uniform F0 F1 tape k = Some (raw_unit (tape k), S k).
Proof.
  intros Htape. unfold uniform. rewrite uniform_unit_value by apply Htape.
  reflexivity.
Qed.

(** [random.uniform(0, b)] is the rounded product of [b] and the raw draw, a
    float of [[0, b]]. *)
Lemma uniform_range tape k b :
  valid_tape tape → pos_double b = true →
  uniform F0 b tape k = Some (fmul b (raw_unit (tape k)), S k) ∧
  fle F0 (fmul b (raw_unit (tape k))) = true ∧
  fle (fmul b (raw_unit (tape k))) b = true.
Proof.
  intros Htape Hb.
  destruct (uniform_range_value b (raw_unit (tape k)) Hb (Htape k))
    as (Heq & H0 & H1).
  unfold uniform. rewrite Heq. auto.
Qed.

Lemma randint_range a b tape k :
  a <= b →
  ∃ r, randint a b tape k = Some (r, S k) ∧ a <= r <= b.
Proof.
  intros Hab. unfold randint. destruct (Z.ltb_spec b a); [lia|].
  eexists. split; [reflexivity|].
  pose proof (Z.mod_pos_bound (Z.of_nat (raw_int (tape k))) (b - a + 1)). lia.
Qed.

Lemma py_index_nonneg {A : Type} (l : list A) (k : Z) :
  0 <= k → py_index l k = l !! Z.to_nat k.
Proof. intros Hk. unfold py_index. destruct (Z.ltb_spec k 0); [lia|done]. Qed.

Lemma py_index_in_range {A : Type} (l : list A) (k : Z) :
  0 <= k < Z.of_nat (length l) → ∃ x, py_index l k = Some x ∧ x ∈ l.
Proof.
  intros Hk. rewrite py_index_nonneg by lia.
  destruct (lookup_lt_is_Some_2 l (Z.to_nat k)) as [x Hx]; [lia|].
  exists x. split; [exact Hx|]. eapply list_elem_of_lookup_2, Hx.
Qed.

(** ** The shared acceptance step *)

(** With a positive cached weight the step reads one draw [u] and moves to
    the candidate exactly when [u <= min(1, new/current)], the quotient being
    the rounded one; the position it ends on gets the hit. *)
Lemma metropolis_accept_eq new_pos new_prob w tape k :
  valid_tape tape →
  pos_double (current_pos_prob w) = true →
  metropolis_accept new_pos new_prob w tape k =
    if fle (raw_unit (tape k))
           (py_min F1 (fdiv new_prob (current_pos_prob w)))
    then step_to new_pos new_prob w (S k)
    else step_to (current_pos w) (current_pos_prob w) w (S k).
Proof.
  intros Htape Hpos. unfold metropolis_accept, mbind, Rand_bind, lift.
  rewrite (py_div_pos _ _ Hpos), (uniform_unit tape k Htape).
  unfold step_to, incr.
  destruct (fle _ _).
  - destruct (scores w !! new_pos); reflexivity.
  - destruct (scores w !! current_pos w); reflexivity.
Qed.


(** Whatever the inputs, a step that completes has read one draw and
    incremented exactly the score of the position it ends on, the candidate
    or the previous position. *)
Lemma metropolis_accept_scores new_pos new_prob w tape k w' k' :
  metropolis_accept new_pos new_prob w tape k = Some (w', k') →
  k' = S k ∧
  incr (current_pos w') (scores w) = Some (scores w') ∧
  ((current_pos w' = new_pos ∧ current_pos_prob w' = new_prob) ∨
   (current_pos w' = current_pos w ∧
    current_pos_prob w' = current_pos_prob w)).
Proof.
  unfold metropolis_accept.
  intros (ratio & k1 & Hdiv & Hrest)%bind_Some.
  apply lift_Some in Hdiv as [_ ->].
  apply bind_Some in Hrest as (u & k2 & Hu & Hrest).
  injection Hu as _ <-.
  destruct (fle u (py_min F1 ratio));
    apply bind_Some in Hrest as (sc & k3 & Hsc & Hret);
    apply lift_Some in Hsc as [Hsc ->];
    injection Hret as <- <-; cbn [current_pos current_pos_prob scores];
    auto.
Qed.

(** With a positive cached weight and scores for both positions the step
    completes. *)
Lemma metropolis_accept_spec new_pos new_prob w tape k :
  pos_double (current_pos_prob w) = true →
  new_pos ∈ dom (scores w) →
  current_pos w ∈ dom (scores w) →
  ∃ w', metropolis_accept new_pos new_prob w tape k = Some (w', S k) ∧
    incr (current_pos w') (scores w) = Some (scores w') ∧
    ((current_pos w' = new_pos ∧ current_pos_prob w' = new_prob) ∨
     (current_pos w' = current_pos w ∧
      current_pos_prob w' = current_pos_prob w)).
Proof.
  intros Hpos Hnew Hcur.
  assert (∃ w' k', metropolis_accept new_pos new_prob w tape k
                   = Some (w', k')) as (w' & k' & Hw').
  { unfold metropolis_accept, mbind, Rand_bind, lift, uniform.
    rewrite (py_div_pos _ _ Hpos).
    destruct (fle _ _).
    - destruct (incr_is_Some _ _ Hnew) as [sc ->]. eauto.
    - destruct (incr_is_Some _ _ Hcur) as [sc ->]. eauto. }
  destruct (metropolis_accept_scores _ _ _ _ _ _ _ Hw') as (-> & Hincr & Hpos').
  exists w'. auto.
Qed.

(** ** Iterations of the two walkers *)

Lemma lattice_label_ok_spec labels sta_prob q :
  lattice_label_ok labels sta_prob q = true →
  q ∈ labels ∧ ∃ p, sta_prob !! q = Some p ∧ pos_double p = true.
Proof.
  unfold lattice_label_ok. intros [Hq Hp]%andb_true_iff.
  apply bool_decide_eq_true in Hq. split; [exact Hq|].
  destruct (sta_prob !! q) as [p|]; [|discriminate].
  exists p. split; [reflexivity|exact Hp].
Qed.

Lemma lattice_inputs_neighbors labels neighborhood_table sta_prob p :
  lattice_inputs labels neighborhood_table sta_prob = true →
  p ∈ labels →
  p ∈ Lattice.score_labels ∧
  ∃ nbrs, neighborhood_table !! p = Some nbrs ∧ (4 ≤ length nbrs)%nat ∧
    ∀ d q, (d < 4)%nat → nbrs !! d = Some q →
      lattice_label_ok labels sta_prob q = true.
Proof.
  unfold lattice_inputs. intros [Hall _]%andb_true_iff Hp.
  rewrite forallb_forall in Hall.
  specialize (Hall p (proj1 (list_elem_of_In _ _) Hp)).
  apply andb_true_iff in Hall as [Hsc Hall].
  apply bool_decide_eq_true in Hsc. split; [exact Hsc|].
  destruct (neighborhood_table !! p) as [nbrs|]; [|discriminate].
  apply andb_true_iff in Hall as [Hlen Hnb].
  exists nbrs. split; [reflexivity|]. apply Nat.leb_le in Hlen.
  split; [exact Hlen|]. intros d q Hd Hq.
  rewrite forallb_forall in Hnb. apply Hnb, list_elem_of_In.
  apply list_elem_of_lookup. exists d. rewrite lookup_take_lt by lia. exact Hq.
Qed.

(** An iteration whose lookups succeed is the acceptance step on the
    candidate they give. *)
Lemma basic_iteration_candidate activities probabilities w tape k
    (new_idx : nat) new_pos new_prob :
  randint 0 (Z.of_nat (length activities) - 1) tape k
    = Some (Z.of_nat new_idx, S k) →
  activities !! new_idx = Some new_pos →
  probabilities !! new_idx = Some new_prob →
  Basic.iteration activities probabilities w tape k
  = metropolis_accept new_pos new_prob w tape (S k).
Proof.
  intros Hr Ha Hp. unfold Basic.iteration.
  rewrite (bind_eq _ _ tape k _ (S k) Hr).
  rewrite (bind_eq _ _ tape (S k) new_pos (S k))
    by (apply lift_Some; rewrite py_index_nonneg, Nat2Z.id by lia; auto).
  rewrite (bind_eq _ _ tape (S k) new_prob (S k))
    by (apply lift_Some; rewrite py_index_nonneg, Nat2Z.id by lia; auto).
  reflexivity.
Qed.

Lemma lattice_iteration_candidate neighborhood_table sta_prob w tape k
    (new_direct : nat) nbrs new_pos new_prob :
  randint 0 3 tape k = Some (Z.of_nat new_direct, S k) →
  neighborhood_table !! current_pos w = Some nbrs →
  nbrs !! new_direct = Some new_pos →
  sta_prob !! new_pos = Some new_prob →
  Lattice.iteration neighborhood_table sta_prob w tape k
  = metropolis_accept new_pos new_prob w tape (S k).
Proof.
  intros Hr Hnb Hd Hp. unfold Lattice.iteration.
  rewrite (bind_eq _ _ tape k _ (S k) Hr).
  rewrite (bind_eq _ _ tape (S k) nbrs (S k)) by (apply lift_Some; auto).
  rewrite (bind_eq _ _ tape (S k) new_pos (S k))
    by (apply lift_Some; rewrite py_index_nonneg, Nat2Z.id by lia; auto).
  rewrite (bind_eq _ _ tape (S k) new_prob (S k)) by (apply lift_Some; auto).
  reflexivity.
Qed.

(** Whatever the inputs, an iteration that completes has read two draws and
    incremented exactly one score, the one of the position the walker is on
    after the acceptance test. *)
Lemma basic_iteration_scores activities probabilities w tape k w' k' :
  Basic.iteration activities probabilities w tape k = Some (w', k') →
  k' = S (S k) ∧ incr (current_pos w') (scores w) = Some (scores w').
Proof.
  unfold Basic.iteration.
  intros (r & k1 & Hr & Hrest)%bind_Some.
  unfold randint in Hr. destruct (_ <? _); [discriminate|].
  injection Hr as _ <-.
  apply bind_Some in Hrest as (a & k2 & Ha & Hrest).
  apply lift_Some in Ha as [_ ->].
  apply bind_Some in Hrest as (p & k3 & Hp & Hrest).
  apply lift_Some in Hp as [_ ->].
  destruct (metropolis_accept_scores _ _ _ _ _ _ _ Hrest) as (-> & Hincr & _).
  auto.
Qed.

Lemma lattice_iteration_scores neighborhood_table sta_prob w tape k w' k' :
  Lattice.iteration neighborhood_table sta_prob w tape k = Some (w', k') →
  k' = S (S k) ∧ incr (current_pos w') (scores w) = Some (scores w').
Proof.
  unfold Lattice.iteration.
  intros (r & k1 & Hr & Hrest)%bind_Some.
  unfold randint in Hr. destruct (_ <? _); [discriminate|].
  injection Hr as _ <-.
  apply bind_Some in Hrest as (nbrs & k2 & Hn & Hrest).
  apply lift_Some in Hn as [_ ->].
  apply bind_Some in Hrest as (a & k3 & Ha & Hrest).
  apply lift_Some in Ha as [_ ->].
  apply bind_Some in Hrest as (p & k4 & Hp & Hrest).
  apply lift_Some in Hp as [_ ->].
  destruct (metropolis_accept_scores _ _ _ _ _ _ _ Hrest) as (-> & Hincr & _).
  auto.
Qed.

Lemma basic_iteration_spec activities probabilities w tape k :
  basic_inputs activities probabilities →
  basic_walk_inv activities w →
  ∃ (idx : nat) new_pos new_prob w',
    randint 0 (Z.of_nat (length activities) - 1) tape k
      = Some (Z.of_nat idx, S k) ∧
    activities !! idx = Some new_pos ∧
    probabilities !! idx = Some new_prob ∧
    pos_double new_prob = true ∧
    Basic.iteration activities probabilities w tape k = Some (w', S (S k)) ∧
    incr (current_pos w') (scores w) = Some (scores w') ∧
    basic_walk_inv activities w'.
Proof.
  intros (Hne & Hlen & Hpos) (Hsub & Hcur & Hcp).
  assert (0 < length activities)%nat as Hl
    by (destruct activities; [congruence|simpl; lia]).
  destruct (randint_range 0 (Z.of_nat (length activities) - 1) tape k)
    as (r & Hr & Hrange); [lia|].
  destruct (py_index_in_range activities r) as (new_pos & Hnp & Hin); [lia|].
  destruct (py_index_in_range probabilities r) as (new_prob & Hnq & Hinq);
    [lia|].
  assert (pos_double new_prob = true) as Hnpos
    by (rewrite Forall_forall in Hpos; apply Hpos, Hinq).
  assert (new_pos ∈ dom (scores w)) as Hnd by set_solver.
  destruct (metropolis_accept_spec new_pos new_prob w tape (S k) Hcp Hnd Hcur)
    as (w' & Hw' & Hincr & Hcases).
  rewrite py_index_nonneg in Hnp by lia.
  rewrite py_index_nonneg in Hnq by lia.
  rewrite <- (Z2Nat.id r) in Hr by lia.
  exists (Z.to_nat r), new_pos, new_prob, w'.
  split; [exact Hr|]. split; [exact Hnp|]. split; [exact Hnq|].
  split; [exact Hnpos|].
  split; [rewrite (basic_iteration_candidate _ _ _ _ _ _ _ _ Hr Hnp Hnq);
          exact Hw'|].
  split; [exact Hincr|].
  pose proof (incr_dom _ _ _ Hincr) as Hdom.
  unfold basic_walk_inv. rewrite Hdom. split; [exact Hsub|].
  destruct Hcases as [[-> ->]|[-> ->]]; auto.
Qed.

Lemma lattice_iteration_spec labels neighborhood_table sta_prob w tape k :
  lattice_inputs labels neighborhood_table sta_prob = true →
  lattice_walk_inv labels w →
  ∃ (new_direct : nat) nbrs new_pos new_prob w',
    randint 0 3 tape k = Some (Z.of_nat new_direct, S k) ∧
    (new_direct < 4)%nat ∧
    neighborhood_table !! current_pos w = Some nbrs ∧
    nbrs !! new_direct = Some new_pos ∧
    sta_prob !! new_pos = Some new_prob ∧
    pos_double new_prob = true ∧
    Lattice.iteration neighborhood_table sta_prob w tape k
      = Some (w', S (S k)) ∧
    incr (current_pos w') (scores w) = Some (scores w') ∧
    lattice_walk_inv labels w'.
Proof.
  intros Hin (Hdom & Hcur & Hcp).
  destruct (randint_range 0 3 tape k) as (r & Hr & Hrange); [lia|].
  destruct (lattice_inputs_neighbors _ _ _ _ Hin Hcur)
    as (Hcsc & nbrs & Hnb & Hlen & Hok).
  destruct (py_index_in_range nbrs r) as (new_pos & Hnp & _); [lia|].
  rewrite py_index_nonneg in Hnp by lia.
  destruct (lattice_label_ok_spec labels sta_prob new_pos)
    as (Hlab & new_prob & Hsp & Hpos).
  { apply (Hok (Z.to_nat r)); [lia|exact Hnp]. }
  destruct (lattice_inputs_neighbors _ _ _ _ Hin Hlab) as (Hnsc & _).
  assert (new_pos ∈ dom (scores w)) as Hnd by (rewrite Hdom; set_solver).
  assert (current_pos w ∈ dom (scores w)) as Hcd by (rewrite Hdom; set_solver).
  destruct (metropolis_accept_spec new_pos new_prob w tape (S k) Hcp Hnd Hcd)
    as (w' & Hw' & Hincr & Hcases).
  rewrite <- (Z2Nat.id r) in Hr by lia.
  exists (Z.to_nat r), nbrs, new_pos, new_prob, w'.
  split; [exact Hr|].
  split; [lia|]. split; [exact Hnb|]. split; [exact Hnp|].
  split; [exact Hsp|]. split; [exact Hpos|].
  split; [rewrite (lattice_iteration_candidate _ _ _ _ _ _ _ _ _ Hr Hnb Hnp Hsp);
          exact Hw'|].
  split; [exact Hincr|].
  unfold lattice_walk_inv. rewrite (incr_dom _ _ _ Hincr).
  split; [exact Hdom|].
  destruct Hcases as [[-> ->]|[-> ->]]; auto.
Qed.

(** ** The walks *)

Lemma length_range n : length (range n) = n.
Proof. apply length_seq. Qed.

Lemma basic_initial_walk_spec activities probabilities :
  basic_inputs activities probabilities →
  ∃ w0, Basic.initial_walk activities probabilities = Some w0 ∧
        activities !! 0%nat = Some (current_pos w0) ∧
        probabilities !! 0%nat = Some (current_pos_prob w0) ∧
        scores w0 = init_scores activities ∧
        basic_walk_inv activities w0.
Proof.
  intros (Hne & Hlen & Hpos).
  destruct activities as [|a l]; [congruence|].
  destruct probabilities as [|p lp]; [simpl in Hlen; lia|].
  exists {| current_pos := a; current_pos_prob := p;
            scores := init_scores (a :: l) |}.
  split; [reflexivity|]. do 3 (split; [reflexivity|]).
  unfold basic_walk_inv. cbn [scores current_pos current_pos_prob].
  rewrite init_scores_dom. split; [set_solver|]. split; [set_solver|].
  apply Forall_cons in Hpos as [Hp _]. exact Hp.
Qed.

Lemma lattice_initial_walk_spec labels neighborhood_table sta_prob :
  lattice_inputs labels neighborhood_table sta_prob = true →
  ∃ w0, Lattice.initial_walk sta_prob = Some w0 ∧
        current_pos w0 = "A"%string ∧
        sta_prob !! "A"%string = Some (current_pos_prob w0) ∧
        scores w0 = init_scores Lattice.score_labels ∧
        lattice_walk_inv labels w0.
Proof.
  unfold lattice_inputs. intros [_ HA]%andb_true_iff.
  apply lattice_label_ok_spec in HA as (HAin & p & Hp & Hpos).
  unfold Lattice.initial_walk. rewrite Hp.
  exists {| current_pos := "A"; current_pos_prob := p;
            scores := init_scores Lattice.score_labels |}.
  split; [reflexivity|]. do 3 (split; [reflexivity|]).
  unfold lattice_walk_inv. cbn [scores current_pos current_pos_prob].
  split; [apply init_scores_dom|]. split; assumption.
Qed.

(** From a state satisfying the invariant, the loop of the generic walker
    completes, reads two draws per iteration and leaves as many hits as
    iterations. *)
Lemma basic_walk_loop activities probabilities tape num_iter w0 k :
  basic_inputs activities probabilities →
  basic_walk_inv activities w0 →
  ∃ w, for_each (range num_iter)
         (λ _ w, Basic.iteration activities probabilities w) w0 tape k
       = Some (w, (k + 2 * num_iter)%nat) ∧
       score_sum (scores w) = (score_sum (scores w0) + num_iter)%nat.
Proof.
  intros Hin Hinv.
  destruct (for_each_counted
    (λ n w c, basic_walk_inv activities w ∧ c = (k + 2 * n)%nat ∧
              score_sum (scores w) = (score_sum (scores w0) + n)%nat)
    (λ _ w, Basic.iteration activities probabilities w) tape (range num_iter))
    with (n := 0%nat) (s := w0) (k := k) as (w & k' & Hrun & _ & -> & Hsum).
  - intros _ n w c (Hw & -> & Hs).
    destruct (basic_iteration_spec _ _ w tape (k + 2 * n)%nat Hin Hw)
      as (_ & _ & _ & w' & _ & _ & _ & _ & Hit & Hincr & Hw').
    exists w', (S (S (k + 2 * n))). split; [exact Hit|].
    split; [exact Hw'|]. split; [lia|].
    rewrite (score_sum_incr _ _ _ Hincr). lia.
  - split; [exact Hinv|]. split; lia.
  - rewrite length_range in *. simpl in Hsum. exists w. split; [exact Hrun|exact Hsum].
Qed.

Lemma lattice_walk_loop labels neighborhood_table sta_prob tape num_iter w0 k :
  lattice_inputs labels neighborhood_table sta_prob = true →
  lattice_walk_inv labels w0 →
  ∃ w, for_each (range num_iter)
         (λ _ w, Lattice.iteration neighborhood_table sta_prob w) w0 tape k
       = Some (w, (k + 2 * num_iter)%nat) ∧
       score_sum (scores w) = (score_sum (scores w0) + num_iter)%nat.
Proof.
  intros Hin Hinv.
  destruct (for_each_counted
    (λ n w c, lattice_walk_inv labels w ∧ c = (k + 2 * n)%nat ∧
              score_sum (scores w) = (score_sum (scores w0) + n)%nat)
    (λ _ w, Lattice.iteration neighborhood_table sta_prob w) tape
    (range num_iter))
    with (n := 0%nat) (s := w0) (k := k) as (w & k' & Hrun & _ & -> & Hsum).
  - intros _ n w c (Hw & -> & Hs).
    destruct (lattice_iteration_spec _ _ _ w tape (k + 2 * n)%nat Hin Hw)
      as (_ & _ & _ & _ & w' & _ & _ & _ & _ & _ & _ & Hit & Hincr & Hw').
    exists w', (S (S (k + 2 * n))). split; [exact Hit|].
    split; [exact Hw'|]. split; [lia|].
    rewrite (score_sum_incr _ _ _ Hincr). lia.
  - split; [exact Hinv|]. split; lia.
  - rewrite length_range in *. simpl in Hsum. exists w. split; [exact Hrun|exact Hsum].
Qed.

(** A run of a walker is the start followed by [num_iter] iterations; the
    scores of the last state are returned. *)
Lemma basic_run_iterated num_iter activities probabilities tape k sc k' :
  Basic.metropolis_pebble num_iter activities probabilities tape k
    = Some (sc, k') ↔
  ∃ w0 w,
    Basic.initial_walk activities probabilities = Some w0 ∧
    iterated (Basic.iteration activities probabilities) tape num_iter
      w0 k w k' ∧
    sc = scores w.
Proof.
  unfold Basic.metropolis_pebble. split.
  - intros (w0 & k0 & Hw0 & Hrun)%bind_Some.
    apply lift_Some in Hw0 as [Hw0 ->].
    apply bind_Some in Hrun as (w & k1 & Hloop & Hret).
    injection Hret as <- <-.
    exists w0, w. split; [exact Hw0|]. split; [|reflexivity].
    apply for_each_iterated, Hloop.
  - intros (w0 & w & Hw0 & Hloop & ->).
    apply bind_Some. exists w0, k. split; [apply lift_Some; auto|].
    apply bind_Some. exists w, k'. split; [|reflexivity].
    apply for_each_iterated, Hloop.
Qed.

Lemma lattice_run_iterated num_iter neighborhood_table sta_prob tape k sc k' :
  Lattice.metropolis_pebble num_iter neighborhood_table sta_prob tape k
    = Some (sc, k') ↔
  ∃ w0 w,
    Lattice.initial_walk sta_prob = Some w0 ∧
    iterated (Lattice.iteration neighborhood_table sta_prob) tape num_iter
      w0 k w k' ∧
    sc = scores w.
Proof.
  unfold Lattice.metropolis_pebble. split.
  - intros (w0 & k0 & Hw0 & Hrun)%bind_Some.
    apply lift_Some in Hw0 as [Hw0 ->].
    apply bind_Some in Hrun as (w & k1 & Hloop & Hret).
    injection Hret as <- <-.
    exists w0, w. split; [exact Hw0|]. split; [|reflexivity].
    apply for_each_iterated, Hloop.
  - intros (w0 & w & Hw0 & Hloop & ->).
    apply bind_Some. exists w0, k. split; [apply lift_Some; auto|].
    apply bind_Some. exists w, k'. split; [|reflexivity].
    apply for_each_iterated, Hloop.
Qed.

(** Iterations that each read two draws and add one hit. *)
Lemma iterated_two_draws_one_hit (body : Walk → Rand Walk) tape n w k w' k' :
  (∀ s c s' c', body s tape c = Some (s', c') →
     c' = S (S c) ∧ incr (current_pos s') (scores s) = Some (scores s')) →
  iterated body tape n w k w' k' →
  k' = (k + 2 * n)%nat ∧
  score_sum (scores w') = (score_sum (scores w) + n)%nat.
Proof.
  intros Hbody Hit. induction Hit as [|n s k s1 k1 s' k' Hb _ IH].
  - split; lia.
  - destruct (Hbody _ _ _ _ Hb) as [-> Hincr].
    rewrite (score_sum_incr _ _ _ Hincr) in IH. lia.
Qed.

Lemma initial_walk_scores activities probabilities sta_prob :
  (∀ w0, Basic.initial_walk activities probabilities = Some w0 →
         scores w0 = init_scores activities) ∧
  (∀ w0, Lattice.initial_walk sta_prob = Some w0 →
         scores w0 = init_scores Lattice.score_labels).
Proof.
  split; intros w0.
  - unfold Basic.initial_walk.
    destruct (py_index activities 0); simpl; [|discriminate].
    destruct (py_index probabilities 0); simpl; [|discriminate].
    intros [= <-]. reflexivity.
  - unfold Lattice.initial_walk.
    destruct (sta_prob !! "A"%string); simpl; [|discriminate].
    intros [= <-]. reflexivity.
Qed.

(** ** Concrete inputs are well formed *)

Lemma quarter_unit i : unit_double (quarter i) = true.
Proof. destruct i as [|[|[|i]]]; reflexivity. Qed.

Lemma sample_tape_valid : valid_tape sample_tape.
Proof. intros k. apply quarter_unit. Qed.


Lemma zero_tape_valid : valid_tape zero_tape.
Proof. intros k. reflexivity. Qed.

Lemma down_tape_valid : valid_tape down_tape.
Proof. intros k. reflexivity. Qed.

Lemma tie_tape_valid : valid_tape tie_tape.
Proof. intros k. reflexivity. Qed.

Lemma third_tape_valid : valid_tape third_tape.
Proof. intros k. reflexivity. Qed.

Lemma notebook_basic_inputs :
  basic_inputs notebook_activities notebook_probabilities.
Proof.
  split; [discriminate|]. split; [simpl; lia|].
  unfold notebook_probabilities. repeat constructor.
Qed.

Lemma notebook_lattice_inputs :
  lattice_inputs Lattice.score_labels notebook_table notebook_sta_prob = true.
Proof. vm_compute. reflexivity. Qed.

(** ** Claims on the Metropolis walkers *)

(** C1. In every iteration of the generic walker and of the lattice walker,
    whose cached weight [w_current] is positive, the candidate drawn has the
    acceptance probability [gamma = min(1, w_new / w_current)] (the quotient
    rounded as the float division does: [gamma] is the quotient when it is
    below [1.0], and [1.0] otherwise); the variate [u] returned by
    [uniform(0, 1)] is a float of [[0, 1)], and the walker moves to the
    candidate exactly when [u <= gamma], the boundary [u = gamma] included,
    and stays otherwise; the position it ends on is scored. Every run of a
    walker is a sequence of such iterations from its start. *)
Theorem metropolis_acceptance_rule tape activities probabilities
    neighborhood_table sta_prob :
  valid_tape tape →
  (∀ w k (new_idx : nat) new_pos w_new,
     pos_double (current_pos_prob w) = true →
     randint 0 (Z.of_nat (length activities) - 1) tape k
       = Some (Z.of_nat new_idx, S k) →
     activities !! new_idx = Some new_pos →
     probabilities !! new_idx = Some w_new →
     let u := raw_unit (tape (S k)) in
     let ratio := fdiv w_new (current_pos_prob w) in
     let gamma := if flt ratio F1 then ratio else F1 in
     py_div w_new (current_pos_prob w) = Some ratio ∧
     py_min F1 ratio = gamma ∧
     uniform F0 F1 tape (S k) = Some (u, S (S k)) ∧
     fle F0 u = true ∧ flt u F1 = true ∧
     Basic.iteration activities probabilities w tape k
       = if fle u gamma then step_to new_pos w_new w (S (S k))
         else step_to (current_pos w) (current_pos_prob w) w (S (S k))) ∧
  (∀ w k (new_direct : nat) nbrs new_pos w_new,
     pos_double (current_pos_prob w) = true →
     randint 0 3 tape k = Some (Z.of_nat new_direct, S k) →
     neighborhood_table !! current_pos w = Some nbrs →
     nbrs !! new_direct = Some new_pos →
     sta_prob !! new_pos = Some w_new →
     let u := raw_unit (tape (S k)) in
     let ratio := fdiv w_new (current_pos_prob w) in
     let gamma := if flt ratio F1 then ratio else F1 in
     py_div w_new (current_pos_prob w) = Some ratio ∧
     py_min F1 ratio = gamma ∧
     uniform F0 F1 tape (S k) = Some (u, S (S k)) ∧
     fle F0 u = true ∧ flt u F1 = true ∧
     Lattice.iteration neighborhood_table sta_prob w tape k
       = if fle u gamma then step_to new_pos w_new w (S (S k))
         else step_to (current_pos w) (current_pos_prob w) w (S (S k))) ∧
  (∀ num_iter k sc k',
     Basic.metropolis_pebble num_iter activities probabilities tape k
       = Some (sc, k') ↔
     ∃ w0 w,
       Basic.initial_walk activities probabilities = Some w0 ∧
       iterated (Basic.iteration activities probabilities) tape num_iter
         w0 k w k' ∧
       sc = scores w) ∧
  (∀ num_iter k sc k',
     Lattice.metropolis_pebble num_iter neighborhood_table sta_prob tape k
       = Some (sc, k') ↔
     ∃ w0 w,
       Lattice.initial_walk sta_prob = Some w0 ∧
       iterated (Lattice.iteration neighborhood_table sta_prob) tape num_iter
         w0 k w k' ∧
       sc = scores w).
Proof.
  intros Htape. split; [|split; [|split]].
  - intros w k new_idx new_pos w_new Hpos Hr Ha Hp. cbv zeta.
    destruct (unit_double_range _ (Htape (S k))) as [H0 H1].
    split; [apply py_div_pos, Hpos|]. split; [reflexivity|].
    split; [apply uniform_unit, Htape|]. split; [exact H0|].
    split; [exact H1|].
    rewrite (basic_iteration_candidate _ _ _ _ _ _ _ _ Hr Ha Hp).
    apply metropolis_accept_eq; assumption.
  - intros w k new_direct nbrs new_pos w_new Hpos Hr Hn Hd Hp. cbv zeta.
    destruct (unit_double_range _ (Htape (S k))) as [H0 H1].
    split; [apply py_div_pos, Hpos|]. split; [reflexivity|].
    split; [apply uniform_unit, Htape|]. split; [exact H0|].
    split; [exact H1|].
    rewrite (lattice_iteration_candidate _ _ _ _ _ _ _ _ _ Hr Hn Hd Hp).
    apply metropolis_accept_eq; assumption.
  - intros. apply basic_run_iterated.
  - intros. apply lattice_run_iterated.
Qed.

Lemma metropolis_acceptance_rule_witness :
  valid_tape sample_tape ∧
  Basic.iteration notebook_activities notebook_probabilities
    {| current_pos := "trip"; current_pos_prob := decimal 1 10;
       scores := init_scores notebook_activities |} sample_tape 0%nat
  = step_to "movie" (decimal 2 10)
      {| current_pos := "trip"; current_pos_prob := decimal 1 10;
         scores := init_scores notebook_activities |} 2%nat ∧
  Lattice.iteration notebook_table notebook_sta_prob
    {| current_pos := "E"; current_pos_prob := float_of_Z 2;
       scores := init_scores Lattice.score_labels |} sample_tape 2%nat
  = step_to "E" (float_of_Z 2)
      {| current_pos := "E"; current_pos_prob := float_of_Z 2;
         scores := init_scores Lattice.score_labels |} 4%nat.
Proof.
  split; [exact sample_tape_valid|].
  destruct (metropolis_acceptance_rule sample_tape notebook_activities
              notebook_probabilities notebook_table notebook_sta_prob
              sample_tape_valid) as (Hbasic & Hlattice & _).
  split.
  - exact (proj2 (proj2 (proj2 (proj2 (proj2
      (Hbasic {| current_pos := "trip"; current_pos_prob := decimal 1 10;
                 scores := init_scores notebook_activities |}
              0%nat 3%nat "movie"%string (decimal 2 10)
              eq_refl eq_refl eq_refl eq_refl)))))).
  - exact (proj2 (proj2 (proj2 (proj2 (proj2
      (Hlattice {| current_pos := "E"; current_pos_prob := float_of_Z 2;
                   scores := init_scores Lattice.score_labels |}
                2%nat 1%nat ["A"; "F"; "I"; "E"]%string "F"%string
                (float_of_Z 1) eq_refl eq_refl eq_refl eq_refl eq_refl)))))).
Defined.

(** The tie of the acceptance test on floats: from the weight [5] to the
    weight [4] the probability is the float [4/5], which is the float [0.8];
    the draw [0.8] moves the walker. *)
Example boundary_draw_is_accepted :
  fdiv (float_of_Z 4) (float_of_Z 5) = decimal 8 10 ∧
  metropolis_accept "B" (float_of_Z 4)
    {| current_pos := "A"; current_pos_prob := float_of_Z 5;
       scores := init_scores ["A"; "B"]%string |} tie_tape 0%nat
  = step_to "B" (float_of_Z 4)
      {| current_pos := "A"; current_pos_prob := float_of_Z 5;
         scores := init_scores ["A"; "B"]%string |} 1%nat.
Proof. split; vm_compute; reflexivity. Qed.

(** C7, as the code has it. Whenever an iteration of either walker completes,
    accepted or rejected, it has read two draws and incremented exactly one
    score, the one of the position the walker is on after the acceptance
    test; a run that returns has done [num_iter] iterations and its scores
    sum to [num_iter]. The generic walker returns on positive weights
    covering a non-empty list of activities. The lattice walker returns when
    every label that can be reached is one of the sixteen hard-coded score
    keys, with four neighbours and a positive weight. *)
Theorem metropolis_scores_sum tape num_iter activities probabilities
    labels neighborhood_table sta_prob k :
  (∀ w c w' c',
     Basic.iteration activities probabilities w tape c = Some (w', c') →
     c' = S (S c) ∧
     incr (current_pos w') (scores w) = Some (scores w') ∧
     score_sum (scores w') = S (score_sum (scores w))) ∧
  (∀ w c w' c',
     Lattice.iteration neighborhood_table sta_prob w tape c = Some (w', c') →
     c' = S (S c) ∧
     incr (current_pos w') (scores w) = Some (scores w') ∧
     score_sum (scores w') = S (score_sum (scores w))) ∧
  (∀ sc k',
     Basic.metropolis_pebble num_iter activities probabilities tape k
       = Some (sc, k') →
     (∃ w0 w,
        Basic.initial_walk activities probabilities = Some w0 ∧
        iterated (Basic.iteration activities probabilities) tape num_iter
          w0 k w k' ∧
        sc = scores w) ∧
     k' = (k + 2 * num_iter)%nat ∧ score_sum sc = num_iter) ∧
  (∀ sc k',
     Lattice.metropolis_pebble num_iter neighborhood_table sta_prob tape k
       = Some (sc, k') →
     (∃ w0 w,
        Lattice.initial_walk sta_prob = Some w0 ∧
        iterated (Lattice.iteration neighborhood_table sta_prob) tape
          num_iter w0 k w k' ∧
        sc = scores w) ∧
     k' = (k + 2 * num_iter)%nat ∧ score_sum sc = num_iter) ∧
  (basic_inputs activities probabilities →
   ∃ sc, Basic.metropolis_pebble num_iter activities probabilities tape k
           = Some (sc, (k + 2 * num_iter)%nat) ∧
         score_sum sc = num_iter) ∧
  (lattice_inputs labels neighborhood_table sta_prob = true →
   ∃ sc, Lattice.metropolis_pebble num_iter neighborhood_table sta_prob tape k
           = Some (sc, (k + 2 * num_iter)%nat) ∧
         score_sum sc = num_iter).
Proof.
  assert (∀ sc k',
     Basic.metropolis_pebble num_iter activities probabilities tape k
       = Some (sc, k') →
     (∃ w0 w,
        Basic.initial_walk activities probabilities = Some w0 ∧
        iterated (Basic.iteration activities probabilities) tape num_iter
          w0 k w k' ∧
        sc = scores w) ∧
     k' = (k + 2 * num_iter)%nat ∧ score_sum sc = num_iter) as Hbasic.
  { intros sc k' (w0 & w & Hw0 & Hit & ->)%basic_run_iterated.
    split; [exists w0, w; auto|].
    apply iterated_two_draws_one_hit in Hit as [-> Hsum];
      [|intros s c s' c'; apply basic_iteration_scores].
    split; [reflexivity|].
    rewrite Hsum, (proj1 (initial_walk_scores _ _ sta_prob) _ Hw0),
      init_scores_sum. reflexivity. }
  assert (∀ sc k',
     Lattice.metropolis_pebble num_iter neighborhood_table sta_prob tape k
       = Some (sc, k') →
     (∃ w0 w,
        Lattice.initial_walk sta_prob = Some w0 ∧
        iterated (Lattice.iteration neighborhood_table sta_prob) tape
          num_iter w0 k w k' ∧
        sc = scores w) ∧
     k' = (k + 2 * num_iter)%nat ∧ score_sum sc = num_iter) as Hlattice.
  { intros sc k' (w0 & w & Hw0 & Hit & ->)%lattice_run_iterated.
    split; [exists w0, w; auto|].
    apply iterated_two_draws_one_hit in Hit as [-> Hsum];
      [|intros s c s' c'; apply lattice_iteration_scores].
    split; [reflexivity|].
    rewrite Hsum,
      (proj2 (initial_walk_scores activities probabilities _) _ Hw0),
      init_scores_sum. reflexivity. }
  split; [|split; [|split; [exact Hbasic|split; [exact Hlattice|split]]]].
  - intros w c w' c' Hit.
    destruct (basic_iteration_scores _ _ _ _ _ _ _ Hit) as [-> Hincr].
    split; [reflexivity|]. split; [exact Hincr|].
    exact (score_sum_incr _ _ _ Hincr).
  - intros w c w' c' Hit.
    destruct (lattice_iteration_scores _ _ _ _ _ _ _ Hit) as [-> Hincr].
    split; [reflexivity|]. split; [exact Hincr|].
    exact (score_sum_incr _ _ _ Hincr).
  - intros Hb.
    destruct (basic_initial_walk_spec _ _ Hb) as (w0 & H0 & _ & _ & Hsc & Hinv).
    destruct (basic_walk_loop _ _ tape num_iter w0 k Hb Hinv) as (w & Hrun & Hsum).
    exists (scores w). split.
    + unfold Basic.metropolis_pebble.
      rewrite (bind_eq _ _ tape k w0 k) by (apply lift_Some; auto).
      rewrite (bind_eq _ _ tape k w _ Hrun). reflexivity.
    + rewrite Hsum, Hsc, init_scores_sum. reflexivity.
  - intros Hl.
    destruct (lattice_initial_walk_spec _ _ _ Hl)
      as (w0 & H0 & _ & _ & Hsc & Hinv).
    destruct (lattice_walk_loop _ _ _ tape num_iter w0 k Hl Hinv)
      as (w & Hrun & Hsum).
    exists (scores w). split.
    + unfold Lattice.metropolis_pebble.
      rewrite (bind_eq _ _ tape k w0 k) by (apply lift_Some; auto).
      rewrite (bind_eq _ _ tape k w _ Hrun). reflexivity.
    + rewrite Hsum, Hsc, init_scores_sum. reflexivity.
Qed.

Lemma metropolis_scores_sum_witness :
  basic_inputs notebook_activities notebook_probabilities ∧
  lattice_inputs Lattice.score_labels notebook_table notebook_sta_prob
    = true ∧
  (∃ sc, Basic.metropolis_pebble 25 notebook_activities
           notebook_probabilities sample_tape 0%nat = Some (sc, 50%nat) ∧
         score_sum sc = 25%nat) ∧
  (∃ sc, Lattice.metropolis_pebble 25 notebook_table notebook_sta_prob
           sample_tape 0%nat = Some (sc, 50%nat) ∧
         score_sum sc = 25%nat).
Proof.
  split; [exact notebook_basic_inputs|].
  split; [exact notebook_lattice_inputs|].
  destruct (metropolis_scores_sum sample_tape 25 notebook_activities
              notebook_probabilities Lattice.score_labels notebook_table
              notebook_sta_prob 0%nat)
    as (_ & _ & _ & _ & Hbasic & Hlattice).
  split; [exact (Hbasic notebook_basic_inputs)|
          exact (Hlattice notebook_lattice_inputs)].
Defined.

Lemma system5_weights_positive l :
  l ∈ take 25 Lattice.ascii_uppercase →
  ∃ p, system5_sta_prob !! l = Some p ∧ pos_double p = true.
Proof.
  intros Hl. cbn [take Lattice.ascii_uppercase] in Hl.
  repeat (apply elem_of_cons in Hl as [->|Hl]);
    [(eexists; split; [vm_compute; reflexivity|reflexivity])..|].
  apply elem_of_nil in Hl. contradiction.
Qed.

(** C7 as stated fails for the lattice walker: on the five by five system of
    [create_system(5)], with a positive weight on each of its 25 labels, a
    walk that goes down from ["A"] reaches ["U"] in its fourth iteration,
    which has no score: the update raises and no scores are returned. *)
Lemma lattice_scores_sum_counterexample :
  ¬ (∀ (n : Z) system table (sta_prob : gmap string float) tape num_iter k,
       Lattice.create_system n = Some system →
       Lattice.get_neighborhood_table system = Some table →
       (∀ l, l ∈ concat system →
             ∃ p, sta_prob !! l = Some p ∧ pos_double p = true) →
       valid_tape tape →
       ∃ sc k',
         Lattice.metropolis_pebble num_iter table sta_prob tape k
           = Some (sc, k') ∧
         score_sum sc = num_iter).
Proof.
  intros Hclaim.
  destruct (Hclaim 5 (default [] (Lattice.create_system 5)) system5_table
              system5_sta_prob down_tape 4%nat 0%nat)
    as (sc & k' & Hrun & _).
  - reflexivity.
  - vm_compute. reflexivity.
  - intros l Hl. apply system5_weights_positive. exact Hl.
  - exact down_tape_valid.
  - vm_compute in Hrun. discriminate.
Qed.

(** On that system the first three iterations complete and the fourth
    raises. *)
Example lattice_walk_leaves_scores :
  (∃ sc, Lattice.metropolis_pebble 3 system5_table system5_sta_prob
           down_tape 0%nat = Some (sc, 6%nat) ∧ score_sum sc = 3%nat) ∧
  Lattice.metropolis_pebble 4 system5_table system5_sta_prob down_tape 0%nat
  = None.
Proof.
  split; [|vm_compute; reflexivity].
  eexists. split; [vm_compute; reflexivity|]. vm_compute. reflexivity.
Qed.

(** C4, as the code has it. The generic walker starts on [activities[0]] with
    the cached weight [probabilities[0]], the first entries of the lists the
    caller passes; the lattice walker starts on the fixed label ["A"] with the
    weight [sta_prob["A"]] and takes no seed argument. In both walkers the
    start is set before the loop, without a draw and without an acceptance
    test: the run is the loop started from that state at the unchanged
    cursor. *)
Theorem walkers_start_position activities probabilities neighborhood_table
    sta_prob num_iter tape k :
  (∀ w0, Basic.initial_walk activities probabilities = Some w0 ↔
         activities !! 0%nat = Some (current_pos w0) ∧
         probabilities !! 0%nat = Some (current_pos_prob w0) ∧
         scores w0 = init_scores activities) ∧
  (∀ w0, Lattice.initial_walk sta_prob = Some w0 ↔
         current_pos w0 = "A"%string ∧
         sta_prob !! "A"%string = Some (current_pos_prob w0) ∧
         scores w0 = init_scores Lattice.score_labels) ∧
  Basic.metropolis_pebble num_iter activities probabilities tape k
    = match Basic.initial_walk activities probabilities with
      | Some w0 =>
          (for_each (range num_iter)
             (λ _ w, Basic.iteration activities probabilities w) w0
           ≫= λ w, mret (scores w)) tape k
      | None => None
      end ∧
  Lattice.metropolis_pebble num_iter neighborhood_table sta_prob tape k
    = match Lattice.initial_walk sta_prob with
      | Some w0 =>
          (for_each (range num_iter)
             (λ _ w, Lattice.iteration neighborhood_table sta_prob w) w0
           ≫= λ w, mret (scores w)) tape k
      | None => None
      end.
Proof.
  split; [|split; [|split]].
  - intros [pos prob sc]. unfold Basic.initial_walk.
    cbn [current_pos current_pos_prob scores].
    rewrite !py_index_nonneg by lia. change (Z.to_nat 0) with 0%nat.
    destruct (activities !! 0%nat) as [a|]; simpl.
    2: { split; [discriminate|]. intros [? _]. discriminate. }
    destruct (probabilities !! 0%nat) as [p|]; simpl.
    2: { split; [discriminate|]. intros (_ & ? & _). discriminate. }
    split.
    + intros [= <- <- <-]. auto.
    + intros ([= <-] & [= <-] & ->). reflexivity.
  - intros [pos prob sc]. unfold Lattice.initial_walk.
    cbn [current_pos current_pos_prob scores].
    destruct (sta_prob !! "A"%string) as [p|]; simpl.
    2: { split; [discriminate|]. intros (_ & ? & _). discriminate. }
    split.
    + intros [= <- <- <-]. auto.
    + intros (-> & [= <-] & ->). reflexivity.
  - unfold Basic.metropolis_pebble.
    destruct (Basic.initial_walk activities probabilities); reflexivity.
  - unfold Lattice.metropolis_pebble.
    destruct (Lattice.initial_walk sta_prob); reflexivity.
Qed.

(** C4 as stated fails for the lattice walker: whatever the caller passes,
    the walk never starts on the label ["B"]. *)
Lemma lattice_seed_counterexample :
  ¬ (∀ seed : string, seed ∈ Lattice.score_labels →
       ∃ sta_prob w0,
         Lattice.initial_walk sta_prob = Some w0 ∧ current_pos w0 = seed).
Proof.
  intros Hclaim.
  destruct (Hclaim "B"%string) as (sta_prob & w0 & H0 & Hpos).
  { unfold Lattice.score_labels. set_solver. }
  unfold Lattice.initial_walk in H0.
  destruct (sta_prob !! "A"%string); simpl in H0; [|discriminate].
  injection H0 as <-. simpl in Hpos. discriminate.
Qed.

(** ** Rejection sampling *)

Lemma foldl_max_elem (l : list float) (x : float) :
  foldl (λ m y, if flt m y then y else m) x l ∈ x :: l.
Proof.
  revert x. induction l as [|y l IH]; intros x; simpl; [set_solver|].
  destruct (flt x y).
  - specialize (IH y). set_solver.
  - specialize (IH x). set_solver.
Qed.

Lemma foldl_max_spec (l : list float) (x : float) :
  x ≠ S754_nan → Forall (λ y, y ≠ S754_nan) l →
  let m := foldl (λ m y, if flt m y then y else m) x l in
  fle x m = true ∧ Forall (λ y, fle y m = true) l.
Proof.
  revert x. induction l as [|y l IH]; intros x Hx Hl; simpl.
  - split; [apply fle_refl, Hx|constructor].
  - apply Forall_cons in Hl as [Hy Hl].
    destruct (flt x y) eqn:E.
    + destruct (IH y Hy Hl) as (Hle & Hall).
      split; [eapply fle_trans; [apply flt_fle, E|exact Hle]|].
      constructor; assumption.
    + destruct (IH x Hx Hl) as (Hle & Hall).
      split; [exact Hle|]. constructor; [|exact Hall].
      eapply fle_trans; [|exact Hle]. apply flt_false_fle; assumption.
Qed.

(** [max(probabilities)] is an element of the list. *)
Lemma py_max_elem (l : list float) :
  l ≠ [] → ∃ m, py_max l = Some m ∧ m ∈ l.
Proof.
  destruct l as [|x l]; [congruence|]. intros _.
  eexists. split; [reflexivity|]. apply foldl_max_elem.
Qed.

(** On positive weights it bounds all of it. *)
Lemma py_max_spec (l : list float) :
  l ≠ [] → Forall (λ p, pos_double p = true) l →
  ∃ m, py_max l = Some m ∧ m ∈ l ∧ pos_double m = true ∧
       Forall (λ y, fle y m = true) l.
Proof.
  intros Hne Hpos. destruct (py_max_elem l Hne) as (m & Hm & Hin).
  exists m. split; [exact Hm|]. split; [exact Hin|].
  split; [rewrite Forall_forall in Hpos; apply Hpos, Hin|].
  destruct l as [|x l]; [congruence|]. injection Hm as <-.
  apply Forall_cons in Hpos as [Hx Hl].
  destruct (foldl_max_spec l x) as (Hle & Hall).
  - apply pos_double_not_nan, Hx.
  - eapply Forall_impl; [exact Hl|]. intros y. apply pos_double_not_nan.
  - constructor; assumption.
Qed.

(** One iteration of the rejection sampler: an index over the activities,
    a threshold [uniform(0, max_prob)], and a hit exactly when the threshold
    is at most the weight of the chosen activity. *)
Lemma reject_iteration_spec activities probabilities max_prob st tape k :
  activities ≠ [] →
  (length activities ≤ length probabilities)%nat →
  list_to_set activities ⊆ dom st.1 →
  ∃ (idx : nat) a p threshold sc,
    randint 0 (Z.of_nat (length activities) - 1) tape k
      = Some (Z.of_nat idx, S k) ∧
    activities !! idx = Some a ∧
    probabilities !! idx = Some p ∧
    uniform F0 max_prob tape (S k) = Some (threshold, S (S k)) ∧
    incr a st.1 = Some sc ∧
    Basic.reject_iteration activities probabilities max_prob st tape k
      = Some (if fle threshold p then (sc, S st.2) else st, S (S k)).
Proof.
  intros Hne Hlen Hsub.
  assert (0 < length activities)%nat as Hl
    by (destruct activities; [congruence|simpl; lia]).
  destruct (randint_range 0 (Z.of_nat (length activities) - 1) tape k)
    as (r & Hr & Hrange); [lia|].
  destruct (py_index_in_range activities r) as (a & Ha & Hin); [lia|].
  destruct (py_index_in_range probabilities r) as (p & Hp & _); [lia|].
  destruct (incr_is_Some a st.1) as [sc Hsc]; [set_solver|].
  exists (Z.to_nat r), a, p,
    (fadd F0 (fmul (fsub max_prob F0) (raw_unit (tape (S k))))), sc.
  unfold Basic.reject_iteration.
  rewrite (bind_eq _ _ tape k r (S k) Hr).
  rewrite (bind_eq _ _ tape (S k) _ (S (S k)) eq_refl).
  rewrite (bind_eq _ _ tape (S (S k)) p (S (S k)))
    by (apply lift_Some; auto).
  rewrite py_index_nonneg in Ha by lia.
  rewrite py_index_nonneg in Hp by lia.
  split; [rewrite Z2Nat.id by lia; exact Hr|].
  split; [exact Ha|]. split; [exact Hp|]. split; [reflexivity|].
  split; [exact Hsc|].
  destruct (fle _ p); [|reflexivity].
  rewrite (bind_eq _ _ tape (S (S k)) a (S (S k)))
    by (apply lift_Some; rewrite py_index_nonneg by lia; auto).
  rewrite (bind_eq _ _ tape (S (S k)) sc (S (S k)))
    by (apply lift_Some; auto).
  reflexivity.
Qed.

(** Whatever the inputs, an iteration that completes keeps the accept counter
    equal to the sum of the scores. *)
Lemma reject_iteration_count activities probabilities max_prob st tape k st' k' :
  Basic.reject_iteration activities probabilities max_prob st tape k
    = Some (st', k') →
  st.2 = score_sum st.1 → st'.2 = score_sum st'.1.
Proof.
  unfold Basic.reject_iteration.
  intros (r & k1 & _ & H1)%bind_Some.
  apply bind_Some in H1 as (g & k2 & _ & H2).
  apply bind_Some in H2 as (p & k3 & _ & H3).
  destruct (fle g p).
  - apply bind_Some in H3 as (a & k4 & _ & H4).
    apply bind_Some in H4 as (sc & k5 & Hsc & H5).
    apply lift_Some in Hsc as [Hsc _].
    injection H5 as <- _. simpl. intros ->.
    symmetry. apply (score_sum_incr _ _ _ Hsc).
  - injection H3 as <- _. auto.
Qed.

Lemma reject_loop activities probabilities max_prob tape num_iter k :
  activities ≠ [] →
  (length activities ≤ length probabilities)%nat →
  ∃ sc ac,
    for_each (range num_iter)
      (λ _ st, Basic.reject_iteration activities probabilities max_prob st)
      (init_scores activities, 0%nat) tape k
    = Some ((sc, ac), (k + 2 * num_iter)%nat) ∧
    (ac ≤ num_iter)%nat.
Proof.
  intros Hne Hlen.
  destruct (for_each_counted
    (λ n (st : gmap string nat * nat) c,
       list_to_set activities ⊆ dom st.1 ∧ c = (k + 2 * n)%nat ∧
       (st.2 ≤ n)%nat)
    (λ _ st, Basic.reject_iteration activities probabilities max_prob st)
    tape (range num_iter))
    with (n := 0%nat) (s := (init_scores activities, 0%nat)) (k := k)
    as ([sc ac] & k' & Hrun & _ & -> & Hac).
  - intros _ n st c (Hsub & -> & Hle).
    destruct (reject_iteration_spec activities probabilities max_prob st tape
                (k + 2 * n)%nat Hne Hlen Hsub)
      as (idx & a & p & t & sc & _ & _ & _ & _ & Hincr & Hit).
    eexists _, _. split; [exact Hit|].
    destruct (fle t p); cbn [fst snd].
    + rewrite (incr_dom _ _ _ Hincr). split; [exact Hsub|]. split; lia.
    + split; [exact Hsub|]. split; lia.
  - simpl. rewrite init_scores_dom. split; [done|]. split; lia.
  - rewrite length_range in *. simpl in Hac. exists sc, ac. split; [exact Hrun|lia].
Qed.

(** The run of the rejection sampler is the maximum followed by the
    iterations, from the fresh table and the counter 0. *)
Lemma reject_run_iterated num_iter activities probabilities tape k st k' :
  Basic.reject_finite num_iter activities probabilities tape k
    = Some (st, k') ↔
  ∃ max_prob,
    py_max probabilities = Some max_prob ∧
    iterated (Basic.reject_iteration activities probabilities max_prob) tape
      num_iter (init_scores activities, 0%nat) k st k'.
Proof.
  unfold Basic.reject_finite. split.
  - intros (max_prob & k0 & Hmax & Hrun)%bind_Some.
    apply lift_Some in Hmax as [Hmax ->].
    exists max_prob. split; [exact Hmax|]. apply for_each_iterated, Hrun.
  - intros (max_prob & Hmax & Hrun).
    apply bind_Some. exists max_prob, k. split; [apply lift_Some; auto|].
    apply for_each_iterated, Hrun.
Qed.

(** C5. With positive weights, each iteration of the rejection sampler draws
    an index over the activities and a threshold, the rounded product of
    [max_weight] and [random()], which lies in [[0, max_weight]]; it scores
    the chosen activity and counts one more accept exactly when the threshold
    is at most the weight of that activity, ties included, and changes
    nothing otherwise. The run is [num_iter] such iterations from the fresh
    table and the counter 0, and returns [accept_count <= num_iter]. *)
Theorem reject_finite_accept_rule tape num_iter activities probabilities k :
  valid_tape tape →
  basic_inputs activities probabilities →
  ∃ max_prob,
    py_max probabilities = Some max_prob ∧
    max_prob ∈ probabilities ∧
    Forall (λ p, fle p max_prob = true) probabilities ∧
    (∀ st c, list_to_set activities ⊆ dom st.1 →
       ∃ (idx : nat) a p sc,
         randint 0 (Z.of_nat (length activities) - 1) tape c
           = Some (Z.of_nat idx, S c) ∧
         (idx < length activities)%nat ∧
         activities !! idx = Some a ∧
         probabilities !! idx = Some p ∧
         let threshold := fmul max_prob (raw_unit (tape (S c))) in
         uniform F0 max_prob tape (S c) = Some (threshold, S (S c)) ∧
         fle F0 threshold = true ∧ fle threshold max_prob = true ∧
         incr a st.1 = Some sc ∧
         Basic.reject_iteration activities probabilities max_prob st tape c
           = Some (if fle threshold p then (sc, S st.2) else st, S (S c))) ∧
    ∃ sc accept_count,
      Basic.reject_finite num_iter activities probabilities tape k
        = Some ((sc, accept_count), (k + 2 * num_iter)%nat) ∧
      iterated (Basic.reject_iteration activities probabilities max_prob)
        tape num_iter (init_scores activities, 0%nat) k
        (sc, accept_count) (k + 2 * num_iter)%nat ∧
      (accept_count ≤ num_iter)%nat.
Proof.
  intros Htape (Hne & Hlen & Hpos).
  assert (probabilities ≠ []) as Hpne.
  { destruct activities; [congruence|].
    destruct probabilities; [simpl in Hlen; lia|discriminate]. }
  destruct (py_max_spec probabilities Hpne Hpos)
    as (max_prob & Hmax & Hin & Hmpos & Hub).
  exists max_prob. split; [exact Hmax|]. split; [exact Hin|].
  split; [exact Hub|]. split.
  - intros st c Hsub.
    destruct (reject_iteration_spec activities probabilities max_prob st tape c
                Hne Hlen Hsub)
      as (idx & a & p & t & sc & Hr & Ha & Hp & Hu & Hincr & Hit).
    destruct (uniform_range tape (S c) max_prob Htape Hmpos)
      as (Hu' & H0 & H1).
    rewrite Hu' in Hu. injection Hu as <-.
    exists idx, a, p, sc. split; [exact Hr|].
    split; [eapply lookup_lt_Some, Ha|].
    split; [exact Ha|]. split; [exact Hp|]. cbv zeta.
    split; [exact Hu'|]. split; [exact H0|]. split; [exact H1|].
    split; [exact Hincr|exact Hit].
  - destruct (reject_loop activities probabilities max_prob tape num_iter k
                Hne Hlen) as (sc & ac & Hrun & Hle).
    exists sc, ac. split; [|split; [|exact Hle]].
    + unfold Basic.reject_finite.
      rewrite (bind_eq _ _ tape k max_prob k) by (apply lift_Some; auto).
      exact Hrun.
    + apply for_each_iterated, Hrun.
Qed.

Lemma reject_finite_accept_rule_witness :
  valid_tape sample_tape ∧
  basic_inputs notebook_activities notebook_probabilities ∧
  ∃ sc accept_count,
    Basic.reject_finite 25 notebook_activities notebook_probabilities
      sample_tape 0%nat = Some ((sc, accept_count), 50%nat) ∧
    (accept_count ≤ 25)%nat.
Proof.
  split; [exact sample_tape_valid|].
  split; [exact notebook_basic_inputs|].
  destruct (reject_finite_accept_rule sample_tape 25 notebook_activities
              notebook_probabilities 0%nat sample_tape_valid
              notebook_basic_inputs)
    as (max_prob & _ & _ & _ & _ & sc & ac & Hrun & _ & Hle).
  exists sc, ac. split; [exact Hrun|exact Hle].
Defined.

(** The tie of the rejection test on floats: with the weights [3] and [1] and
    the draw [3002399751580331 / 2^53] the threshold rounds to [1.0], and the
    activity of weight [1] is accepted. *)
Example reject_tie_is_accepted :
  fmul (float_of_Z 3) (raw_unit (third_tape 1%nat)) = float_of_Z 1 ∧
  Basic.reject_finite 1 ["a"; "b"]%string [float_of_Z 3; float_of_Z 1]
    third_tape 0%nat
  = Some ((<["b"%string := 1%nat]> (init_scores ["a"; "b"]%string), 1%nat),
          2%nat).
Proof. split; vm_compute; reflexivity. Qed.

(** C9. Whatever the activities, weights, iteration count and tape, a run of
    the rejection sampler that returns has [accept_count] equal to the sum of
    the returned scores; and the run does return as soon as there is an
    activity and a weight for each activity. *)
Theorem reject_finite_count_is_score_sum tape num_iter activities
    probabilities k :
  (∀ sc accept_count k',
     Basic.reject_finite num_iter activities probabilities tape k
       = Some ((sc, accept_count), k') →
     accept_count = score_sum sc) ∧
  (activities ≠ [] →
   (length activities ≤ length probabilities)%nat →
   ∃ sc accept_count,
     Basic.reject_finite num_iter activities probabilities tape k
       = Some ((sc, accept_count), (k + 2 * num_iter)%nat) ∧
     accept_count = score_sum sc).
Proof.
  assert (∀ sc accept_count k',
     Basic.reject_finite num_iter activities probabilities tape k
       = Some ((sc, accept_count), k') →
     accept_count = score_sum sc) as Hsum.
  { intros sc ac k'. unfold Basic.reject_finite.
    intros (max_prob & k1 & _ & Hrun)%bind_Some.
    apply (for_each_preserves
             (λ st : gmap string nat * nat, st.2 = score_sum st.1)
             _ tape (range num_iter)) in Hrun; [exact Hrun| |].
    - intros _ st c st' c' Hst Hit.
      exact (reject_iteration_count _ _ _ _ _ _ _ _ Hit Hst).
    - simpl. symmetry. apply init_scores_sum. }
  split; [exact Hsum|].
  intros Hne Hlen.
  assert (probabilities ≠ []) as Hpne.
  { destruct activities; [congruence|].
    destruct probabilities; [simpl in Hlen; lia|discriminate]. }
  destruct (py_max_elem probabilities Hpne) as (max_prob & Hmax & _).
  destruct (reject_loop activities probabilities max_prob tape num_iter k
              Hne Hlen) as (sc & ac & Hrun & _).
  assert (Basic.reject_finite num_iter activities probabilities tape k
          = Some ((sc, ac), (k + 2 * num_iter)%nat)) as Hret.
  { unfold Basic.reject_finite.
    rewrite (bind_eq _ _ tape k max_prob k) by (apply lift_Some; auto).
    exact Hrun. }
  exists sc, ac. split; [exact Hret|]. exact (Hsum _ _ _ Hret).
Qed.

(** ** The grid of the pebble game *)

Lemma create_system_too_large n : 6 <= n → Lattice.create_system n = None.
Proof.
  intros Hn. unfold Lattice.create_system, Lattice.reshape_square.
  destruct (Z.ltb_spec n 0); [lia|].
  unfold Lattice.slice_to. destruct (Z.ltb_spec (n * n) 0); [nia|].
  rewrite length_take.
  change (length Lattice.ascii_uppercase) with 26%nat.
  destruct (Z.eqb_spec (Z.of_nat (Z.to_nat (n * n) `min` 26)) (n * n));
    [nia|reflexivity].
Qed.

(** A negative size is refused as well. *)
Lemma create_system_negative n : n < 0 → Lattice.create_system n = None.
Proof.
  intros Hn. unfold Lattice.create_system, Lattice.reshape_square.
  destruct (Z.ltb_spec n 0); [reflexivity|lia].
Qed.

(** C10. For a grid size [n >= 0], [create_system n] returns an [n] by [n]
    grid of distinct labels, the first [n * n] uppercase letters row by row,
    exactly when [n * n <= 26], that is [n <= 5]; from [n = 6] on the reshape
    of the 26 letters raises. *)
Theorem create_system_shape n :
  0 <= n →
  ((∃ system,
      Lattice.create_system n = Some system ∧
      Z.of_nat (length system) = n ∧
      Forall (λ row, Z.of_nat (length row) = n) system ∧
      concat system = take (Z.to_nat (n * n)) Lattice.ascii_uppercase ∧
      NoDup (concat system))
   ↔ n * n <= 26) ∧
  (n * n <= 26 ↔ n <= 5) ∧
  (6 <= n → Lattice.create_system n = None).
Proof.
  intros Hn. split; [|split; [nia|apply create_system_too_large]].
  split.
  - intros (system & Hsys & _).
    destruct (Z.le_gt_cases 6 n) as [H6|H6]; [|nia].
    rewrite (create_system_too_large n H6) in Hsys. discriminate.
  - intros Hsq.
    assert (n = 0 ∨ n = 1 ∨ n = 2 ∨ n = 3 ∨ n = 4 ∨ n = 5)
      as [->|[->|[->|[->|[->| ->]]]]] by nia;
      (eexists; split; [reflexivity|]; split; [reflexivity|];
       split; [repeat constructor|]; split; [reflexivity|];
       apply (bool_decide_unpack _); vm_compute; exact I).
Qed.

Lemma create_system_shape_witness :
  0 <= 4 ∧
  ∃ system,
    Lattice.create_system 4 = Some system ∧
    Z.of_nat (length system) = 4 ∧
    NoDup (concat system).
Proof.
  split; [lia|].
  destruct (create_system_shape 4 ltac:(lia)) as [[_ Hret] _].
  destruct Hret as (system & Hsys & Hlen & _ & _ & Hnd); [lia|].
  exists system. split; [exact Hsys|]. split; [exact Hlen|exact Hnd].
Defined.

(** ** The neighbour table *)

(** A loop in [option] whose body never raises is a left fold. *)
Lemma for_each_option_foldl {A T : Type} (xs : list A)
    (body : A → T → option T) (f : T → A → T) :
  (∀ x s, x ∈ xs → body x s = Some (f s x)) →
  ∀ s, for_each xs body s = Some (foldl f s xs).
Proof.
  induction xs as [|x xs IH]; intros Hbody s; simpl; [reflexivity|].
  rewrite Hbody by set_solver. simpl. apply IH.
  intros y s' Hy. apply Hbody. set_solver.
Qed.

Section table_updates.
Context {V : Type}.
Implicit Types (es : list (string * V)) (t : gmap string V).

Lemma apply_updates_other es t k :
  k ∉ es.*1 → apply_updates t es !! k = t !! k.
Proof.
  revert t. induction es as [|[k' v'] es IH]; intros t Hk; simpl; [reflexivity|].
  rewrite fmap_cons, not_elem_of_cons in Hk. destruct Hk as [Hne Hk].
  unfold apply_updates in *. simpl. rewrite IH by exact Hk.
  apply lookup_insert_ne. simpl in Hne. congruence.
Qed.

(** With distinct keys no update is overwritten. *)
Lemma apply_updates_lookup es t k v :
  NoDup es.*1 → (k, v) ∈ es → apply_updates t es !! k = Some v.
Proof.
  revert t. induction es as [|[k' v'] es IH]; intros t Hnd Hin.
  - set_solver.
  - rewrite fmap_cons in Hnd. apply NoDup_cons in Hnd as [Hfresh Hnd].
    apply elem_of_cons in Hin as [[= -> ->]|Hin].
    + change (apply_updates (<[k' := v']> t) es !! k' = Some v').
      rewrite apply_updates_other by exact Hfresh. apply lookup_insert_eq.
    + apply (IH _ Hnd Hin).
Qed.

Lemma apply_updates_dom es t :
  dom (apply_updates t es) = dom t ∪ list_to_set es.*1.
Proof.
  revert t. induction es as [|[k' v'] es IH]; intros t.
  - simpl. set_solver.
  - change (dom (apply_updates (<[k' := v']> t) es)
            = dom t ∪ list_to_set ((k', v') :: es).*1).
    rewrite IH, dom_insert_L. simpl. set_solver.
Qed.

End table_updates.

Lemma apply_updates_bind {A V : Type} (h : A → list (string * V)) (l : list A)
    (t : gmap string V) :
  apply_updates t (l ≫= h) = foldl (λ t x, apply_updates t (h x)) t l.
Proof.
  revert t. induction l as [|x l IH]; intros t; [reflexivity|].
  rewrite bind_cons. unfold apply_updates at 1. rewrite foldl_app.
  apply IH.
Qed.

Lemma list_from_lookups {A : Type} (d : A) (l : list A) :
  (λ i, default d (l !! i)) <$> seq 0 (length l) = l.
Proof.
  apply list_eq. intros i. rewrite list_lookup_fmap.
  destruct (decide (i < length l)%nat) as [Hlt|Hge].
  - rewrite lookup_seq_lt by exact Hlt. simpl.
    destruct (lookup_lt_is_Some_2 l i Hlt) as [x Hx]. rewrite Hx. reflexivity.
  - rewrite lookup_seq_ge by lia. simpl. symmetry.
    apply lookup_ge_None. lia.
Qed.

Lemma list_bind_ext_in {A B : Type} (f g : A → list B) (l : list A) :
  (∀ x, x ∈ l → f x = g x) → l ≫= f = l ≫= g.
Proof.
  induction l as [|x l IH]; intros Hfg; [reflexivity|].
  rewrite !bind_cons, Hfg, IH by set_solver. reflexivity.
Qed.

Lemma list_bind_fst {A K V : Type} (f : A → list (K * V)) (l : list A) :
  (l ≫= f).*1 = l ≫= (λ x, (f x).*1).
Proof.
  induction l as [|x l IH]; [reflexivity|].
  rewrite !bind_cons, fmap_app, IH. reflexivity.
Qed.

Section grid.
Variables (system : Lattice.Grid) (n : nat).
Hypothesis Hsq : square system n.

Lemma square_row i :
  (i < n)%nat → ∃ row, system !! i = Some row ∧ length row = n.
Proof.
  destruct Hsq as [Hlen Hrows]. intros Hi.
  destruct (lookup_lt_is_Some_2 system i) as [row Hrow]; [lia|].
  exists row. split; [exact Hrow|].
  rewrite Forall_forall in Hrows. apply Hrows.
  eapply list_elem_of_lookup_2, Hrow.
Qed.

Lemma at2_in_grid i j :
  (i < n)%nat → (j < n)%nat →
  Lattice.at2 system i j = Some (label_at system i j).
Proof.
  intros Hi Hj. destruct (square_row i Hi) as (row & Hrow & Hlen).
  unfold label_at, Lattice.at2. rewrite Hrow. simpl.
  destruct (lookup_lt_is_Some_2 row j) as [x Hx]; [lia|].
  rewrite Hx. reflexivity.
Qed.

Lemma row_labels i row :
  system !! i = Some row → length row = n →
  label_at system i <$> range n = row.
Proof.
  intros Hrow Hlen.
  transitivity ((λ j, default ""%string (row !! j)) <$> seq 0 (length row));
    [|apply list_from_lookups].
  rewrite Hlen. apply list_fmap_ext. intros _ j _.
  unfold label_at, Lattice.at2. rewrite Hrow. reflexivity.
Qed.

(** The keys of the updates, in order, are the labels of the grid row by
    row. *)
Lemma table_entries_keys : (table_entries system n).*1 = concat system.
Proof.
  unfold table_entries. rewrite list_bind_fst.
  rewrite (list_bind_ext_in _ (λ i, default [] (system !! i))).
  - destruct Hsq as [Hlen _].
    transitivity
      (concat ((λ i, default [] (system !! i)) <$> seq 0 (length system)));
      [|f_equal; apply list_from_lookups].
    rewrite Hlen.
    unfold range. induction (seq 0 n) as [|i l IH]; [reflexivity|].
    rewrite bind_cons, fmap_cons. simpl. rewrite IH. reflexivity.
  - intros i Hi. apply elem_of_seq in Hi.
    destruct (square_row i) as (row & Hrow & Hlen); [lia|].
    rewrite Hrow. simpl. rewrite <- list_fmap_compose.
    apply (row_labels i row Hrow Hlen).
Qed.

(** The four entries computed at a cell of the grid: the adjacent label where
    there is one, the label of the cell itself on a boundary. *)
Lemma neighbors_of_spec i j :
  (i < n)%nat → (j < n)%nat →
  Lattice.neighbors_of system n i j =
    Some [label_at system (if (0 <? i)%nat then i - 1 else i)%nat j;
          label_at system i (if (j <? n - 1)%nat then j + 1 else j)%nat;
          label_at system (if (i <? n - 1)%nat then i + 1 else i)%nat j;
          label_at system i (if (0 <? j)%nat then j - 1 else j)%nat].
Proof.
  intros Hi Hj. unfold Lattice.neighbors_of.
  assert (∀ (b : bool) (a c : nat),
            (if b then Lattice.at2 system a j else Lattice.at2 system c j)
            = Lattice.at2 system (if b then a else c) j) as Hrowif
    by (intros []; reflexivity).
  assert (∀ (b : bool) (a c : nat),
            (if b then Lattice.at2 system i a else Lattice.at2 system i c)
            = Lattice.at2 system i (if b then a else c)) as Hcolif
    by (intros []; reflexivity).
  rewrite !Hrowif, !Hcolif.
  rewrite (at2_in_grid (if (0 <? i)%nat then i - 1 else i)%nat j)
    by (try destruct (Nat.ltb_spec 0 i); lia).
  simpl.
  rewrite (at2_in_grid i (if (j <? n - 1)%nat then j + 1 else j)%nat)
    by (try destruct (Nat.ltb_spec j (n - 1)); lia).
  simpl.
  rewrite (at2_in_grid (if (i <? n - 1)%nat then i + 1 else i)%nat j)
    by (try destruct (Nat.ltb_spec i (n - 1)); lia).
  simpl.
  rewrite (at2_in_grid i (if (0 <? j)%nat then j - 1 else j)%nat)
    by (try destruct (Nat.ltb_spec 0 j); lia).
  reflexivity.
Qed.

Lemma cell_update_spec i j table :
  (i < n)%nat → (j < n)%nat →
  Lattice.cell_update system n i j table
  = Some (<[label_at system i j := neighbors_at system n i j]> table).
Proof.
  intros Hi Hj. unfold Lattice.cell_update, neighbors_at.
  rewrite (neighbors_of_spec i j Hi Hj). simpl.
  rewrite (at2_in_grid i j Hi Hj). reflexivity.
Qed.

(** The double loop completes, with the table of all the updates. *)
Lemma get_neighborhood_table_eq :
  Lattice.get_neighborhood_table system
  = Some (apply_updates ∅ (table_entries system n)).
Proof.
  unfold Lattice.get_neighborhood_table, table_entries.
  destruct Hsq as [Hlen _]. rewrite Hlen.
  rewrite apply_updates_bind.
  apply for_each_option_foldl. intros i table Hi. apply elem_of_seq in Hi.
  unfold apply_updates. rewrite foldl_fmap. simpl.
  apply (for_each_option_foldl (range n)
           (λ j table, Lattice.cell_update system n i j table)
           (λ table j, <[label_at system i j :=
                          neighbors_at system n i j]> table)).
  intros j t Hj. apply elem_of_seq in Hj.
  apply cell_update_spec; lia.
Qed.

End grid.

(** C3. For every [n] by [n] grid of distinct labels the table is built, its
    keys are the labels of the grid, and the entry of the cell [(i, j)] is
    the list [[up; right; down; left]]: each entry is the label of the
    adjacent cell in that direction when it exists, and the label of the cell
    itself when the direction leaves the grid. *)
Theorem neighborhood_table_spec (system : Lattice.Grid) (n : nat) :
  square system n →
  NoDup (concat system) →
  ∃ table,
    Lattice.get_neighborhood_table system = Some table ∧
    (∀ lbl, is_Some (table !! lbl) ↔ lbl ∈ concat system) ∧
    ∀ i j, (i < n)%nat → (j < n)%nat →
      ∃ lbl up right down left,
        Lattice.at2 system i j = Some lbl ∧
        table !! lbl = Some [up; right; down; left] ∧
        (if decide (i = 0)%nat then up = lbl
         else Lattice.at2 system (i - 1) j = Some up) ∧
        (if decide (j = n - 1)%nat then right = lbl
         else Lattice.at2 system i (j + 1) = Some right) ∧
        (if decide (i = n - 1)%nat then down = lbl
         else Lattice.at2 system (i + 1) j = Some down) ∧
        (if decide (j = 0)%nat then left = lbl
         else Lattice.at2 system i (j - 1) = Some left).
Proof.
  intros Hsq Hnd.
  exists (apply_updates ∅ (table_entries system n)).
  split; [apply get_neighborhood_table_eq, Hsq|]. split.
  - intros lbl.
    rewrite <- elem_of_dom, apply_updates_dom, (table_entries_keys _ _ Hsq).
    rewrite dom_empty_L. set_solver.
  - intros i j Hi Hj.
    exists (label_at system i j),
      (label_at system (if (0 <? i)%nat then i - 1 else i)%nat j),
      (label_at system i (if (j <? n - 1)%nat then j + 1 else j)%nat),
      (label_at system (if (i <? n - 1)%nat then i + 1 else i)%nat j),
      (label_at system i (if (0 <? j)%nat then j - 1 else j)%nat).
    split; [apply (at2_in_grid _ _ Hsq); assumption|]. split.
    + apply apply_updates_lookup;
        [rewrite (table_entries_keys _ _ Hsq); exact Hnd|].
      unfold table_entries. apply list_elem_of_bind. exists i.
      split; [|apply elem_of_seq; lia].
      apply list_elem_of_fmap. exists j.
      split; [|apply elem_of_seq; lia].
      unfold neighbors_at.
      rewrite (neighbors_of_spec _ _ Hsq i j Hi Hj). reflexivity.
    + repeat split; case_decide; subst.
      all: try (destruct (Nat.ltb_spec 0 i); [|lia]).
      all: try (destruct (Nat.ltb_spec 0 j); [|lia]).
      all: try (destruct (Nat.ltb_spec i (n - 1)); [|lia]).
      all: try (destruct (Nat.ltb_spec j (n - 1)); [|lia]).
      all: try (rewrite Nat.ltb_irrefl; reflexivity).
      all: apply (at2_in_grid _ _ Hsq); lia.
Qed.

Lemma notebook_system_square : square notebook_system 4.
Proof. split; [reflexivity|repeat constructor]. Qed.

Lemma notebook_system_NoDup : NoDup (concat notebook_system).
Proof. apply (bool_decide_unpack _). vm_compute. exact I. Qed.

Lemma neighborhood_table_spec_witness :
  square notebook_system 4 ∧
  NoDup (concat notebook_system) ∧
  ∃ table,
    Lattice.get_neighborhood_table notebook_system = Some table ∧
    (∀ lbl, is_Some (table !! lbl) ↔ lbl ∈ concat notebook_system) ∧
    ∃ up right down left,
      table !! "F"%string = Some [up; right; down; left] ∧
      Lattice.at2 notebook_system 0 1 = Some up ∧
      Lattice.at2 notebook_system 1 2 = Some right ∧
      Lattice.at2 notebook_system 2 1 = Some down ∧
      Lattice.at2 notebook_system 1 0 = Some left.
Proof.
  split; [exact notebook_system_square|].
  split; [exact notebook_system_NoDup|].
  destruct (neighborhood_table_spec notebook_system 4 notebook_system_square
              notebook_system_NoDup) as (table & Hret & Hdom & Hcells).
  exists table. split; [exact Hret|]. split; [exact Hdom|].
  destruct (Hcells 1%nat 1%nat ltac:(lia) ltac:(lia))
    as (lbl & up & right & down & left & Hlbl & Htab & Hu & Hr & Hd & Hl).
  injection Hlbl as <-.
  exists up, right, down, left. simpl in Hu, Hr, Hd, Hl.
  repeat split; assumption.
Defined.

(** The table and the grid of the notebook, as printed there. *)
Example create_system_4 : Lattice.create_system 4 = Some notebook_system.
Proof. reflexivity. Qed.

Example notebook_table_A :
  notebook_table !! "A"%string = Some ["A"; "B"; "E"; "A"]%string.
Proof. vm_compute. reflexivity. Qed.

Example notebook_table_F :
  notebook_table !! "F"%string = Some ["B"; "G"; "J"; "E"]%string.
Proof. vm_compute. reflexivity. Qed.

Example notebook_table_P :
  notebook_table !! "P"%string = Some ["L"; "P"; "P"; "O"]%string.
Proof. vm_compute. reflexivity. Qed.


(** ** Tower sampling *)

Lemma length_prefix_sums acc l : length (prefix_sums acc l) = S (length l).
Proof.
  revert acc. induction l as [|w l IH]; intros acc; simpl; [reflexivity|].
  rewrite IH. reflexivity.
Qed.

Lemma prefix_sums_head acc l : prefix_sums acc l !! 0%nat = Some acc.
Proof. destruct l; reflexivity. Qed.

Lemma prefix_sums_step acc l i w :
  l !! i = Some w →
  ∃ c, prefix_sums acc l !! i = Some c ∧
       prefix_sums acc l !! S i = Some (fadd c w).
Proof.
  revert acc i. induction l as [|x l IH]; intros acc i Hi; [discriminate|].
  destruct i as [|i]; simpl in Hi.
  - injection Hi as ->. exists acc. split; [reflexivity|].
    simpl. apply prefix_sums_head.
  - destruct (IH (fadd acc x) i Hi) as (c & Hc & Hc').
    exists c. split; assumption.
Qed.

(** The last cumulative weight is the total, summed from the left. *)
Lemma prefix_sums_last acc l :
  prefix_sums acc l !! length l = Some (foldl fadd acc l).
Proof.
  revert acc. induction l as [|x l IH]; intros acc; simpl; [reflexivity|].
  apply IH.
Qed.

(** The loop that builds [cum_prob], started in the middle. *)
Lemma cumulative_loop (rest done pre : list float) (c : float) :
  length pre = length done →
  for_each (seq (length done) (length rest))
    (λ i cum_prob,
       c ← cum_prob !! i; p ← (done ++ rest) !! i;
       Some (cum_prob ++ [fadd c p])) (pre ++ [c])
  = Some (pre ++ prefix_sums c rest).
Proof.
  revert done pre c. induction rest as [|w rest IH]; intros done pre c Hlen.
  - reflexivity.
  - cbn [length seq for_each].
    rewrite <- Hlen at 1. rewrite list_lookup_middle by reflexivity.
    rewrite list_lookup_middle by reflexivity. simpl.
    specialize (IH (done ++ [w]) (pre ++ [c]) (fadd c w)).
    rewrite !length_app, <- app_assoc in IH. simpl in IH.
    rewrite !Nat.add_1_r in IH. rewrite IH by lia.
    rewrite <- app_assoc. reflexivity.
Qed.

Lemma cumulative_eq probabilities :
  Basic.cumulative probabilities = Some (prefix_sums F0 probabilities).
Proof. apply (cumulative_loop probabilities [] [] F0). reflexivity. Qed.

(** What a completed scan did: nothing, when no cumulative weight reaches
    the draw, or one hit for the first index whose cumulative weight does. *)
Lemma scan_hit gamma cum_prob activities sc sc' (m a0 : nat) :
  Basic.scan (seq a0 m) gamma cum_prob activities sc = Some sc' →
  (sc' = sc ∧
   ∀ j cj, (a0 ≤ j < a0 + m)%nat → cum_prob !! j = Some cj →
           fle gamma cj = false) ∨
  ∃ (i : nat) ci act,
    (a0 ≤ i < a0 + m)%nat ∧
    cum_prob !! i = Some ci ∧ fle gamma ci = true ∧
    (∀ j cj, (a0 ≤ j < i)%nat → cum_prob !! j = Some cj →
             fle gamma cj = false) ∧
    activities !! (i - 1)%nat = Some act ∧
    incr act sc = Some sc'.
Proof.
  revert a0. induction m as [|m IH]; intros a0; simpl.
  - intros [= <-]. left. split; [reflexivity|]. intros; lia.
  - destruct (cum_prob !! a0) as [c|] eqn:Hc; simpl; [|discriminate].
    destruct (fle gamma c) eqn:E.
    + destruct (activities !! (a0 - 1)%nat) as [act|] eqn:Hact; simpl;
        [|discriminate].
      intros Hincr. right. exists a0, c, act.
      split; [lia|]. split; [exact Hc|].
      split; [exact E|]. split; [intros; lia|]. auto.
    + intros Hscan. apply IH in Hscan as [[-> Hnone]|Hhit].
      * left. split; [reflexivity|]. intros j cj Hj Hcj.
        destruct (decide (j = a0)) as [->|].
        -- rewrite Hc in Hcj. injection Hcj as <-. exact E.
        -- apply (Hnone j cj); [lia|exact Hcj].
      * destruct Hhit as (i & ci & act & Hi & Hci & Hle & Hfirst & Ha & Hincr).
        right. exists i, ci, act. split; [lia|]. split; [exact Hci|].
        split; [exact Hle|]. split; [|auto].
        intros j cj Hj Hcj. destruct (decide (j = a0)) as [->|].
        -- rewrite Hc in Hcj. injection Hcj as <-. exact E.
        -- apply (Hfirst j cj); [lia|exact Hcj].
Qed.

(** With a cumulative weight and an activity for every index, and a score
    for every activity, the scan completes. *)
Lemma scan_is_Some gamma cum_prob activities sc (m : nat) :
  list_to_set activities ⊆ dom sc →
  ∀ a : nat,
  (∀ i, a ≤ i < a + m → 1 ≤ i < length cum_prob ∧ i - 1 < length activities)%nat →
  is_Some (Basic.scan (seq a m) gamma cum_prob activities sc).
Proof.
  intros Hsub. induction m as [|m IH]; intros a Hidx; simpl; [eauto|].
  destruct (Hidx a) as [Ha1 Ha2]; [lia|].
  destruct (lookup_lt_is_Some_2 cum_prob a) as [c Hc]; [lia|].
  destruct (lookup_lt_is_Some_2 activities (a - 1)) as [act Hact]; [lia|].
  rewrite Hc. simpl. destruct (fle gamma c).
  - rewrite Hact. simpl. apply incr_is_Some, Hsub, elem_of_list_to_set.
    eapply list_elem_of_lookup_2, Hact.
  - apply IH. intros i Hi. apply Hidx. lia.
Qed.

Lemma py_index_minus_one {A : Type} (l : list A) (n : nat) (x : A) :
  length l = S n → l !! n = Some x → py_index l (-1) = Some x.
Proof.
  intros Hlen Hx. unfold py_index. simpl.
  destruct (Z.ltb_spec (Z.of_nat (length l) + -1) 0); [lia|].
  replace (Z.to_nat (Z.of_nat (length l) + -1)) with n by lia. exact Hx.
Qed.

(** Whatever the weights, an iteration of the tower sampler completes after
    one draw when there is an activity for every weight. *)
Lemma tower_iteration_is_Some activities probabilities sc tape c :
  (length probabilities ≤ length activities)%nat →
  list_to_set activities ⊆ dom sc →
  ∃ sc', Basic.tower_iteration activities (prefix_sums F0 probabilities) sc
           tape c = Some (sc', S c) ∧
         dom sc' = dom sc.
Proof.
  intros Hlen Hsub.
  pose proof (prefix_sums_last F0 probabilities) as Htop.
  unfold Basic.tower_iteration.
  rewrite (bind_eq _ _ tape c (foldl fadd F0 probabilities) c).
  2: { apply lift_Some. split; [|reflexivity].
       apply (py_index_minus_one _ (length probabilities));
         [apply length_prefix_sums|exact Htop]. }
  rewrite (bind_eq _ _ tape c _ (S c) eq_refl).
  unfold range_from. rewrite length_prefix_sums.
  destruct (scan_is_Some
              (fadd F0 (fmul (fsub (foldl fadd F0 probabilities) F0)
                             (raw_unit (tape c))))
              (prefix_sums F0 probabilities) activities sc
              (S (length probabilities) - 1) Hsub 1%nat) as [sc' Hsc'].
  { intros i Hi. rewrite length_prefix_sums. lia. }
  exists sc'. split; [apply lift_Some; auto|].
  apply scan_hit in Hsc' as [[-> _]|(i & ci & act & _ & _ & _ & _ & _ & Hincr)];
    [reflexivity|exact (incr_dom _ _ _ Hincr)].
Qed.


(** The run of the tower sampler is the cumulative sequence followed by the
    iterations, from the fresh table. *)
Lemma tower_run_iterated num_iter activities probabilities tape k sc k' :
  Basic.tower_sample num_iter activities probabilities tape k = Some (sc, k') ↔
  iterated
    (Basic.tower_iteration activities (prefix_sums F0 probabilities)) tape
    num_iter (init_scores activities) k sc k'.
Proof.
  unfold Basic.tower_sample.
  rewrite (bind_eq _ _ tape k (prefix_sums F0 probabilities) k)
    by (apply lift_Some; split; [apply cumulative_eq|reflexivity]).
  apply for_each_iterated.
Qed.




(** The tie of the scan on floats: with the weights [1] and [2] and the draw
    [3002399751580331 / 2^53] the value drawn rounds to [1.0 = C[1]], and
    the hit goes to the first activity. *)
Example tower_tie_hits_first :
  fmul (weight_sum [float_of_Z 1; float_of_Z 2]) (raw_unit (third_tape 0%nat))
    = float_of_Z 1 ∧
  Basic.tower_sample 1 ["a"; "b"]%string [float_of_Z 1; float_of_Z 2]
    third_tape 0%nat
  = Some (<["a"%string := 1%nat]> (init_scores ["a"; "b"]%string), 1%nat).
Proof. split; vm_compute; reflexivity. Qed.

(** ** Continuum tower sampling *)

(** The inverse of the distribution function on [[0, 1)]: the image is
    [[0, PI)], and [0] is reached at [0] only. *)
Lemma acos_inverse_cdf_range (u : R) :
  (0 <= u < 1)%R →
  (0 <= acos (1 - 2 * u) < PI)%R ∧ (acos (1 - 2 * u) = 0 ↔ u = 0)%R.
Proof.
  intros [H0 H1]. destruct (Req_dec u 0) as [->|Hne].
  - replace (1 - 2 * 0)%R with 1%R by ring. rewrite acos_1.
    pose proof PI_RGT_0. split; [lra|]. split; reflexivity.
  - destruct (acos_bound_lt (1 - 2 * u)) as [Hlo Hhi]; [lra|].
    split; [lra|]. split; [lra|contradiction].
Qed.

Lemma valid_tape_real tape j :
  valid_tape tape → (0 <= SF2R (raw_unit (tape j)) < 1)%R.
Proof. intros Htape. apply unit_double_real, Htape. Qed.

(** The batch of samples: one draw per sample, in order. *)
Lemma cont_tower_sample_run tape num_iter k :
  valid_tape tape →
  ∃ results,
    Basic.cont_tower_sample num_iter tape k
      = Some (results, (k + num_iter)%nat) ∧
    length results = num_iter ∧
    ∀ (i : nat) x, results !! i = Some x →
      x = acos (1 - 2 * SF2R (raw_unit (tape (k + i)%nat)))%R.
Proof.
  intros Htape.
  destruct (for_each_counted
    (λ n (results : list R) c,
       c = (k + n)%nat ∧ length results = n ∧
       ∀ (i : nat) x, results !! i = Some x →
         x = acos (1 - 2 * SF2R (raw_unit (tape (k + i)%nat)))%R)
    (λ (_ : nat) results,
       upsilon ← uniform F0 F1;
       mret (results ++ [acos (1 - 2 * SF2R upsilon)%R]))
    tape (range num_iter))
    with (n := 0%nat) (s := @nil R) (k := k)
    as (results & k' & Hrun & -> & Hlen & Hall).
  - intros _ n results c (-> & Hlen & Hall).
    rewrite (bind_eq _ _ tape (k + n)%nat _ _ (uniform_unit tape _ Htape)).
    eexists _, _. split; [reflexivity|].
    split; [lia|]. split; [rewrite length_app; simpl; lia|].
    intros i x Hx. destruct (decide (i < n)%nat) as [Hlt|Hge].
    + rewrite lookup_app_l in Hx by lia. apply Hall, Hx.
    + apply lookup_lt_Some in Hx as Hi. rewrite length_app in Hi.
      simpl in Hi. assert (i = n) as -> by lia.
      rewrite list_lookup_middle in Hx by lia.
      injection Hx as <-. reflexivity.
  - split; [lia|]. split; [reflexivity|]. intros i x Hx. discriminate.
  - rewrite length_range in *. exists results.
    split; [exact Hrun|]. split; [exact Hlen|exact Hall].
Qed.

(** C6, as the code has it. The continuum sampler returns [num_iter]
    samples; the sample of rank [i] is [arccos(1 - 2 u)] for the draw [u] of
    [[0, 1)] read at that rank, and it lies in [[0, PI)]: below [PI], and
    equal to [0] exactly when the draw is [0]. *)
Theorem cont_tower_sample_range tape num_iter k :
  valid_tape tape →
  ∃ results,
    Basic.cont_tower_sample num_iter tape k
      = Some (results, (k + num_iter)%nat) ∧
    length results = num_iter ∧
    ∀ (i : nat) x, results !! i = Some x →
      let upsilon := SF2R (raw_unit (tape (k + i)%nat)) in
      (0 <= upsilon < 1)%R ∧
      x = acos (1 - 2 * upsilon)%R ∧
      (0 <= x < PI)%R ∧
      (x = 0%R ↔ upsilon = 0%R).
Proof.
  intros Htape.
  destruct (cont_tower_sample_run tape num_iter k Htape)
    as (results & Hrun & Hlen & Hall).
  exists results. split; [exact Hrun|]. split; [exact Hlen|].
  intros i x Hx. cbv zeta.
  pose proof (valid_tape_real tape (k + i)%nat Htape) as Hu.
  rewrite (Hall i x Hx). split; [exact Hu|]. split; [reflexivity|].
  apply acos_inverse_cdf_range, Hu.
Qed.

Lemma cont_tower_sample_range_witness :
  valid_tape sample_tape ∧
  ∃ results,
    Basic.cont_tower_sample 25 sample_tape 0%nat = Some (results, 25%nat) ∧
    length results = 25%nat ∧
    Forall (λ x, 0 <= x < PI)%R results.
Proof.
  split; [exact sample_tape_valid|].
  destruct (cont_tower_sample_range sample_tape 25 0%nat sample_tape_valid)
    as (results & Hrun & Hlen & Hall).
  exists results. split; [exact Hrun|]. split; [exact Hlen|].
  apply Forall_lookup. intros i x Hx. apply (Hall i x Hx).
Defined.

(** C6 as stated fails: on a tape whose draws are all [0.0], a value that
    [random()] can return, the sampler returns the endpoint [0]. *)
Lemma cont_tower_sample_endpoint_counterexample :
  ¬ (∀ tape num_iter k results k',
       valid_tape tape →
       Basic.cont_tower_sample num_iter tape k = Some (results, k') →
       Forall (λ x, 0 < x < PI)%R results).
Proof.
  intros Hclaim.
  specialize (Hclaim zero_tape 1%nat 0%nat
                [acos (1 - 2 * SF2R F0)%R] 1%nat zero_tape_valid eq_refl).
  apply Forall_inv in Hclaim as [Hpos _].
  unfold SF2R, SF2Q, F0 in Hpos. rewrite RMicromega.Q2R_0 in Hpos.
  replace (1 - 2 * 0)%R with 1%R in Hpos by ring.
  rewrite acos_1 in Hpos. lra.
Qed.

(** * Further properties of the code *)

(** ** [create_system] on every integer *)

Lemma chunks_lookup {A : Type} (rows cols : nat) (l : list A) (i j : nat) :
  (i < rows)%nat → (j < cols)%nat →
  (Lattice.chunks rows cols l !! i ≫= λ row, row !! j)
  = l !! (i * cols + j)%nat.
Proof.
  revert l i. induction rows as [|r IH]; intros l i Hi Hj; [lia|].
  destruct i as [|i]; simpl.
  - apply lookup_take_lt, Hj.
  - rewrite IH by lia. rewrite lookup_drop. f_equal. lia.
Qed.

(** X1. [create_system(n)] returns a grid exactly for [0 <= n <= 5]: a
    negative size and a size from 6 on both raise in the reshape. *)
Theorem create_system_returns_iff (n : Z) :
  is_Some (Lattice.create_system n) ↔ 0 <= n <= 5.
Proof.
  split.
  - intros [system Hsys].
    destruct (Z.lt_ge_cases n 0) as [Hneg|Hnn].
    { rewrite create_system_negative in Hsys by exact Hneg. discriminate. }
    destruct (Z.le_gt_cases 6 n) as [H6|H6]; [|lia].
    rewrite create_system_too_large in Hsys by exact H6. discriminate.
  - intros Hn.
    assert (n = 0 ∨ n = 1 ∨ n = 2 ∨ n = 3 ∨ n = 4 ∨ n = 5)
      as [->|[->|[->|[->|[->| ->]]]]] by lia; eexists; reflexivity.
Qed.

(** X2. The grid is filled row by row: the cell [(i, j)] of
    [create_system(n)] holds the letter of rank [i * n + j] of the
    alphabet. *)
Theorem create_system_layout (n : Z) (i j : nat) :
  0 <= n <= 5 →
  (i < Z.to_nat n)%nat → (j < Z.to_nat n)%nat →
  ∃ system letter,
    Lattice.create_system n = Some system ∧
    Lattice.at2 system i j = Some letter ∧
    Lattice.ascii_uppercase !! (i * Z.to_nat n + j)%nat = Some letter.
Proof.
  intros Hn Hi Hj.
  unfold Lattice.create_system, Lattice.reshape_square, Lattice.slice_to.
  destruct (Z.ltb_spec n 0); [lia|].
  destruct (Z.ltb_spec (n * n) 0); [nia|].
  rewrite length_take. change (length Lattice.ascii_uppercase) with 26%nat.
  destruct (Z.eqb_spec (Z.of_nat (Z.to_nat (n * n) `min` 26)) (n * n)); [|nia].
  destruct (lookup_lt_is_Some_2 Lattice.ascii_uppercase
              (i * Z.to_nat n + j)%nat) as [letter Hletter].
  { change (length Lattice.ascii_uppercase) with 26%nat. nia. }
  eexists _, letter. split; [reflexivity|]. split; [|exact Hletter].
  unfold Lattice.at2. etrans; [apply chunks_lookup; assumption|].
  rewrite lookup_take_lt by nia. exact Hletter.
Qed.

Lemma create_system_layout_witness :
  0 <= 4 <= 5 ∧ (2 < Z.to_nat 4)%nat ∧ (3 < Z.to_nat 4)%nat ∧
  ∃ system,
    Lattice.create_system 4 = Some system ∧
    Lattice.at2 system 2 3 = Some "L"%string.
Proof.
  split; [lia|]. split; [simpl; lia|]. split; [simpl; lia|].
  destruct (create_system_layout 4 2 3 ltac:(lia) ltac:(simpl; lia)
              ltac:(simpl; lia)) as (system & letter & Hsys & Hat & Hletter).
  exists system. split; [exact Hsys|].
  rewrite Hat. simpl in Hletter. injection Hletter as <-. reflexivity.
Defined.

(** ** [get_neighborhood_table] beyond square grids of distinct labels *)

Lemma for_each_option_ext_in {A T : Type} (xs : list A)
    (body body' : A → T → option T) :
  (∀ x s, x ∈ xs → body x s = body' x s) →
  ∀ s, for_each xs body s = for_each xs body' s.
Proof.
  induction xs as [|x xs IH]; intros Hext s; simpl; [reflexivity|].
  rewrite Hext by set_solver.
  destruct (body' x s) as [s'|]; simpl; [|reflexivity].
  apply IH. intros y t Hy. apply Hext. set_solver.
Qed.

(** A loop in [option] with an iteration that raises from every state
    raises. *)
Lemma for_each_option_fails {A T : Type} (xs : list A)
    (body : A → T → option T) (x : A) :
  x ∈ xs → (∀ s, body x s = None) → ∀ s, for_each xs body s = None.
Proof.
  intros Hx Hfail. induction xs as [|y xs IH]; intros s; [set_solver|].
  simpl. destruct (body y s) as [s'|] eqn:Hy; simpl; [|reflexivity].
  apply elem_of_cons in Hx as [->|Hx]; [congruence|]. apply IH, Hx.
Qed.

Lemma at2_take_columns (system : list (list string)) (n i j : nat) :
  (j < n)%nat →
  Lattice.at2 (take n <$> system) i j = Lattice.at2 system i j.
Proof.
  intros Hj. unfold Lattice.at2, Lattice.Grid. rewrite list_lookup_fmap.
  destruct (system !! i) as [row|]; simpl; [|reflexivity].
  apply lookup_take_lt, Hj.
Qed.

Lemma neighbors_of_take_columns (system : list (list string)) (n i j : nat) :
  (j < n)%nat →
  Lattice.neighbors_of (take n <$> system) n i j
  = Lattice.neighbors_of system n i j.
Proof.
  intros Hj. unfold Lattice.neighbors_of.
  rewrite !(at2_take_columns system n _ j) by exact Hj.
  rewrite (at2_take_columns system n i (j - 1)) by lia.
  destruct (Nat.ltb_spec j (n - 1)); [|reflexivity].
  rewrite (at2_take_columns system n i (j + 1)) by lia. reflexivity.
Qed.

(** X3. Only the first [n] columns of an array of [n] rows are read: the
    table of a system is the table of its left [n] by [n] block, and raises
    exactly when that one does. *)
Theorem get_neighborhood_table_reads_square (system : list (list string)) :
  Lattice.get_neighborhood_table system
  = Lattice.get_neighborhood_table (take (length system) <$> system).
Proof.
  unfold Lattice.get_neighborhood_table. rewrite length_fmap.
  apply for_each_option_ext_in. intros i table _.
  apply for_each_option_ext_in. intros j t Hj. apply elem_of_seq in Hj.
  unfold Lattice.cell_update.
  rewrite neighbors_of_take_columns, at2_take_columns by lia. reflexivity.
Qed.

(** X4. An array with fewer columns than rows raises: the loop over the
    columns runs up to the number of rows and indexes past the end of the
    first row. *)
Theorem get_neighborhood_table_too_narrow (system : list (list string)) (m : nat) :
  Forall (λ row : list string, length row = m) system →
  (m < length system)%nat →
  Lattice.get_neighborhood_table system = None.
Proof.
  intros Hrows Hm. unfold Lattice.get_neighborhood_table.
  apply (for_each_option_fails _ _ 0%nat); [apply elem_of_seq; lia|].
  intros table.
  apply (for_each_option_fails _ _ m); [apply elem_of_seq; lia|].
  intros t. unfold Lattice.cell_update, Lattice.neighbors_of.
  assert (Lattice.at2 system 0 m = None) as ->; [|reflexivity].
  unfold Lattice.at2. destruct system as [|row rest]; [reflexivity|].
  simpl. apply lookup_ge_None. apply Forall_cons in Hrows as [-> _]. lia.
Qed.

Lemma get_neighborhood_table_too_narrow_witness :
  Forall (λ row : list string, length row = 1%nat) [["A"]; ["B"]]%string ∧
  (1 < length [["A"]; ["B"]]%string)%nat ∧
  Lattice.get_neighborhood_table [["A"]; ["B"]]%string = None.
Proof.
  assert (Forall (λ row : list string, length row = 1%nat)
            [["A"]; ["B"]]%string) as Hrows by (repeat constructor).
  split; [exact Hrows|]. split; [simpl; lia|].
  apply (get_neighborhood_table_too_narrow _ 1 Hrows). simpl. lia.
Defined.

Lemma apply_updates_lookup_inv {V : Type} (es : list (string * V))
    (t : gmap string V) (k : string) (v : V) :
  apply_updates t es !! k = Some v → (k, v) ∈ es ∨ t !! k = Some v.
Proof.
  revert t. induction es as [|[k' v'] es IH]; intros t Hk; [right; exact Hk|].
  change (apply_updates (<[k' := v']> t) es !! k = Some v) in Hk.
  apply IH in Hk as [Hin|Hk]; [left; set_solver|].
  apply lookup_insert_Some in Hk as [[-> ->]|[_ Hk]];
    [left; set_solver|right; exact Hk].
Qed.

Lemma table_entries_elem (system : list (list string)) (n : nat) k v :
  (k, v) ∈ table_entries system n ↔
  ∃ i j, (i < n)%nat ∧ (j < n)%nat ∧
         k = label_at system i j ∧ v = neighbors_at system n i j.
Proof.
  unfold table_entries. rewrite list_elem_of_bind. split.
  - intros (i & Hin & Hi). apply list_elem_of_fmap in Hin as (j & [= -> ->] & Hj).
    apply elem_of_seq in Hi. apply elem_of_seq in Hj.
    exists i, j. repeat split; lia.
  - intros (i & j & Hi & Hj & -> & ->). exists i.
    split; [|apply elem_of_seq; lia].
    apply list_elem_of_fmap. exists j. split; [reflexivity|].
    apply elem_of_seq. lia.
Qed.

Lemma label_in_grid (system : list (list string)) (n i j : nat) :
  square system n → (i < n)%nat → (j < n)%nat →
  label_at system i j ∈ concat system.
Proof.
  intros Hsq Hi Hj. rewrite <- (table_entries_keys system n Hsq).
  apply list_elem_of_fmap. exists (label_at system i j, neighbors_at system n i j).
  split; [reflexivity|]. apply table_entries_elem. eauto 10.
Qed.

Lemma neighbors_at_spec (system : list (list string)) (n i j : nat) :
  square system n → (i < n)%nat → (j < n)%nat →
  neighbors_at system n i j =
    [label_at system (if (0 <? i)%nat then i - 1 else i)%nat j;
     label_at system i (if (j <? n - 1)%nat then j + 1 else j)%nat;
     label_at system (if (i <? n - 1)%nat then i + 1 else i)%nat j;
     label_at system i (if (0 <? j)%nat then j - 1 else j)%nat].
Proof.
  intros Hsq Hi Hj. unfold neighbors_at.
  rewrite (neighbors_of_spec system n Hsq i j Hi Hj). reflexivity.
Qed.

(** The entry of a cell in the table of a square grid of distinct labels. *)
Lemma table_cell (system : list (list string)) (n i j : nat) :
  square system n → NoDup (concat system) → (i < n)%nat → (j < n)%nat →
  apply_updates ∅ (table_entries system n) !! label_at system i j
  = Some (neighbors_at system n i j).
Proof.
  intros Hsq Hnd Hi Hj. apply apply_updates_lookup.
  - rewrite (table_entries_keys system n Hsq). exact Hnd.
  - apply table_entries_elem. eauto 10.
Qed.

(** Every entry of the table of a square array lists four labels of the
    array. *)
Lemma table_entry_closed (system : list (list string)) (n : nat) lbl nbrs :
  square system n →
  apply_updates ∅ (table_entries system n) !! lbl = Some nbrs →
  length nbrs = 4%nat ∧ ∀ q, q ∈ nbrs → q ∈ concat system.
Proof.
  intros Hsq Hl.
  apply apply_updates_lookup_inv in Hl as [Hin|Hl]; [|discriminate].
  apply table_entries_elem in Hin as (i & j & Hi & Hj & -> & ->).
  rewrite (neighbors_at_spec system n i j Hsq Hi Hj).
  split; [reflexivity|]. intros q Hq.
  repeat (apply elem_of_cons in Hq as [->|Hq]); [..|set_solver];
    apply (label_in_grid system n _ _ Hsq);
    try destruct (Nat.ltb_spec 0 i); try destruct (Nat.ltb_spec 0 j);
    try destruct (Nat.ltb_spec i (n - 1));
    try destruct (Nat.ltb_spec j (n - 1)); lia.
Qed.

Lemma table_dom (system : list (list string)) (n : nat) :
  square system n →
  dom (apply_updates ∅ (table_entries system n))
  = list_to_set (concat system).
Proof.
  intros Hsq.
  rewrite apply_updates_dom, (table_entries_keys _ _ Hsq), dom_empty_L.
  set_solver.
Qed.

(** X5. For every square array, distinct labels or not, the table has
    exactly the labels of the array as keys, every entry lists four labels,
    and each of them is again a key: the walk never leaves the table. *)
Theorem neighborhood_table_closed (system : list (list string)) (n : nat) :
  square system n →
  ∃ table,
    Lattice.get_neighborhood_table system = Some table ∧
    dom table = list_to_set (concat system) ∧
    ∀ lbl nbrs, table !! lbl = Some nbrs →
      length nbrs = 4%nat ∧ ∀ q, q ∈ nbrs → q ∈ dom table.
Proof.
  intros Hsq. exists (apply_updates ∅ (table_entries system n)).
  split; [apply get_neighborhood_table_eq, Hsq|].
  split; [apply table_dom, Hsq|]. intros lbl nbrs Hl.
  destruct (table_entry_closed system n lbl nbrs Hsq Hl) as [Hlen Hin].
  split; [exact Hlen|]. intros q Hq.
  rewrite (table_dom system n Hsq), elem_of_list_to_set. apply Hin, Hq.
Qed.

Lemma neighborhood_table_closed_witness :
  square [["A"; "B"]; ["B"; "A"]]%string 2 ∧
  ∃ table,
    Lattice.get_neighborhood_table [["A"; "B"]; ["B"; "A"]]%string
      = Some table ∧
    dom table = ({["A"; "B"]} : gset string)%string.
Proof.
  assert (square [["A"; "B"]; ["B"; "A"]]%string 2) as Hsq
    by (split; [reflexivity|repeat constructor]).
  split; [exact Hsq|].
  destruct (neighborhood_table_closed _ 2 Hsq) as (table & Hret & Hdom & _).
  exists table. split; [exact Hret|]. rewrite Hdom. simpl. set_solver.
Defined.

(** X6. In the table of a square grid of distinct labels, opposite
    directions undo each other: when the entry of [a] in direction [d] (0 up,
    1 right, 2 down, 3 left) is another label [b], the entry of [b] in the
    opposite direction is [a]. The proposals of the lattice walker are
    symmetric. *)
Theorem neighborhood_table_symmetric (system : list (list string)) (n : nat) :
  square system n →
  NoDup (concat system) →
  ∃ table,
    Lattice.get_neighborhood_table system = Some table ∧
    ∀ a b nbrs_a (d : nat),
      table !! a = Some nbrs_a → nbrs_a !! d = Some b → b ≠ a →
      ∃ nbrs_b, table !! b = Some nbrs_b ∧
                nbrs_b !! ((d + 2) mod 4)%nat = Some a.
Proof.
  intros Hsq Hnd. exists (apply_updates ∅ (table_entries system n)).
  split; [apply get_neighborhood_table_eq, Hsq|].
  intros a b nbrs_a d Ha Hd Hne.
  apply apply_updates_lookup_inv in Ha as [Hin|Ha]; [|discriminate].
  apply table_entries_elem in Hin as (i & j & Hi & Hj & -> & ->).
  rewrite (neighbors_at_spec system n i j Hsq Hi Hj) in Hd.
  destruct d as [|[|[|[|d]]]]; simpl in Hd; [| | | |discriminate];
    injection Hd as <-.
  - destruct (Nat.ltb_spec 0 i); [|congruence].
    exists (neighbors_at system n (i - 1) j).
    split; [apply table_cell; [assumption..|lia|lia]|].
    rewrite (neighbors_at_spec system n (i - 1) j Hsq) by lia. simpl.
    destruct (Nat.ltb_spec (i - 1) (n - 1)); [|lia].
    replace (i - 1 + 1)%nat with i by lia. reflexivity.
  - destruct (Nat.ltb_spec j (n - 1)); [|congruence].
    exists (neighbors_at system n i (j + 1)).
    split; [apply table_cell; [assumption..|lia|lia]|].
    rewrite (neighbors_at_spec system n i (j + 1) Hsq) by lia. simpl.
    destruct (Nat.ltb_spec 0 (j + 1)); [|lia].
    replace (j + 1 - 1)%nat with j by lia. reflexivity.
  - destruct (Nat.ltb_spec i (n - 1)); [|congruence].
    exists (neighbors_at system n (i + 1) j).
    split; [apply table_cell; [assumption..|lia|lia]|].
    rewrite (neighbors_at_spec system n (i + 1) j Hsq) by lia. simpl.
    destruct (Nat.ltb_spec 0 (i + 1)); [|lia].
    replace (i + 1 - 1)%nat with i by lia. reflexivity.
  - destruct (Nat.ltb_spec 0 j); [|congruence].
    exists (neighbors_at system n i (j - 1)).
    split; [apply table_cell; [assumption..|lia|lia]|].
    rewrite (neighbors_at_spec system n i (j - 1) Hsq) by lia. simpl.
    destruct (Nat.ltb_spec (j - 1) (n - 1)); [|lia].
    replace (j - 1 + 1)%nat with j by lia. reflexivity.
Qed.

Lemma neighborhood_table_symmetric_witness :
  square notebook_system 4 ∧
  NoDup (concat notebook_system) ∧
  ∃ table,
    Lattice.get_neighborhood_table notebook_system = Some table ∧
    ∀ a b nbrs_a (d : nat),
      table !! a = Some nbrs_a → nbrs_a !! d = Some b → b ≠ a →
      ∃ nbrs_b, table !! b = Some nbrs_b ∧
                nbrs_b !! ((d + 2) mod 4)%nat = Some a.
Proof.
  split; [exact notebook_system_square|].
  split; [exact notebook_system_NoDup|].
  exact (neighborhood_table_symmetric notebook_system 4
           notebook_system_square notebook_system_NoDup).
Defined.


(** ** From the grid to the walk *)

(** The table of a square array whose labels are scored, include the start
    and have positive weights is a well-formed input of the walker. *)
Lemma lattice_inputs_of_grid (system : list (list string)) (n : nat)
    (sta_prob : gmap string float) :
  square system n →
  (∀ l, l ∈ concat system → l ∈ Lattice.score_labels) →
  "A"%string ∈ concat system →
  (∀ l, l ∈ concat system → ∃ p, sta_prob !! l = Some p ∧ pos_double p = true) →
  lattice_inputs (concat system) (apply_updates ∅ (table_entries system n))
    sta_prob = true.
Proof.
  intros Hsq Hscored HA Hpos.
  assert (∀ q, q ∈ concat system →
               lattice_label_ok (concat system) sta_prob q = true) as Hok.
  { intros q Hq. unfold lattice_label_ok. apply andb_true_iff. split.
    - apply bool_decide_eq_true, Hq.
    - destruct (Hpos q Hq) as (p & -> & Hp). exact Hp. }
  unfold lattice_inputs. apply andb_true_iff. split; [|apply Hok, HA].
  apply forallb_forall. intros p Hp%list_elem_of_In.
  apply andb_true_iff. split; [apply bool_decide_eq_true, Hscored, Hp|].
  assert (p ∈ dom (apply_updates ∅ (table_entries system n))) as Hdom
    by (rewrite (table_dom system n Hsq); set_solver).
  apply elem_of_dom in Hdom as [nbrs Hnbrs]. rewrite Hnbrs.
  destruct (table_entry_closed system n p nbrs Hsq Hnbrs) as [Hlen Hin].
  apply andb_true_iff. split; [apply Nat.leb_le; lia|].
  rewrite take_ge by lia.
  apply forallb_forall. intros q Hq%list_elem_of_In. apply Hok, Hin, Hq.
Qed.

(** The loop of the lattice walker only scores labels of the system. *)
Lemma lattice_walk_support labels neighborhood_table sta_prob tape num_iter
    w0 k w k' :
  lattice_inputs labels neighborhood_table sta_prob = true →
  lattice_walk_inv labels w0 →
  for_each (range num_iter)
    (λ _ w, Lattice.iteration neighborhood_table sta_prob w) w0 tape k
  = Some (w, k') →
  ∀ l, l ∉ labels → scores w !! l = scores w0 !! l.
Proof.
  intros Hin Hinv Hrun.
  apply (for_each_preserves
           (λ w, lattice_walk_inv labels w ∧
                 ∀ l, l ∉ labels → scores w !! l = scores w0 !! l)
           _ tape (range num_iter) ) with (s := w0) (k := k) (k' := k') in Hrun;
    [apply Hrun| |split; [exact Hinv|reflexivity]].
  intros _ s c s' c' [Hs Hsame] Hit.
  destruct (lattice_iteration_spec _ _ _ s tape c Hin Hs)
    as (_ & _ & _ & _ & w' & _ & _ & _ & _ & _ & _ & Hit' & Hincr & Hw').
  rewrite Hit' in Hit. injection Hit as <- <-.
  split; [exact Hw'|]. intros l Hl. rewrite <- (Hsame l Hl).
  unfold incr in Hincr.
  destruct (scores s !! current_pos w') as [v|]; simpl in Hincr;
    [|discriminate].
  injection Hincr as <-. apply lookup_insert_ne.
  destruct Hw' as (_ & Hcur & _). intros Heq. rewrite Heq in Hcur.
  contradiction.
Qed.

Lemma init_scores_zero activities l v :
  init_scores activities !! l = Some v → v = 0%nat.
Proof.
  unfold init_scores.
  assert (∀ sc0 : gmap string nat,
            (∀ v, sc0 !! l = Some v → v = 0%nat) →
            ∀ v, foldl (λ sc a, <[a := 0%nat]> sc) sc0 activities !! l = Some v
                 → v = 0%nat) as Hgen.
  { induction activities as [|a acts IH]; intros sc0 H0 v'; simpl; [apply H0|].
    apply IH. intros v'' Hv''.
    apply lookup_insert_Some in Hv'' as [[_ <-]|[_ Hv'']]; [reflexivity|].
    apply H0, Hv''. }
  apply Hgen. intros v' Hv'. rewrite lookup_empty in Hv'. discriminate.
Qed.

(** A run of the lattice walker on well-formed inputs: it returns, the hits
    sum to the iteration count and lie on the labels of the system. *)
Lemma lattice_run labels neighborhood_table sta_prob tape num_iter k :
  lattice_inputs labels neighborhood_table sta_prob = true →
  ∃ sc,
    Lattice.metropolis_pebble num_iter neighborhood_table sta_prob tape k
      = Some (sc, (k + 2 * num_iter)%nat) ∧
    score_sum sc = num_iter ∧
    ∀ l v, l ∉ labels → sc !! l = Some v → v = 0%nat.
Proof.
  intros Hin.
  destruct (lattice_initial_walk_spec _ _ _ Hin)
    as (w0 & H0 & _ & _ & Hsc & Hinv).
  destruct (lattice_walk_loop _ _ _ tape num_iter w0 k Hin Hinv)
    as (w & Hrun & Hsum).
  exists (scores w). split; [|split].
  - unfold Lattice.metropolis_pebble.
    rewrite (bind_eq _ _ tape k w0 k) by (apply lift_Some; auto).
    rewrite (bind_eq _ _ tape k w _ Hrun). reflexivity.
  - rewrite Hsum, Hsc, init_scores_sum. reflexivity.
  - intros l v Hl Hv.
    rewrite (lattice_walk_support _ _ _ _ _ _ _ _ _ Hin Hinv Hrun l Hl), Hsc
      in Hv.
    exact (init_scores_zero _ _ _ Hv).
Qed.

(** X7. From the grid to the walk: for a square array whose labels are among
    the sixteen scored labels, include the start ["A"] and all have a positive
    weight, the table is built and the walker run on it returns; its hits sum
    to [num_iter] and every label outside the array keeps the count 0. *)
Theorem lattice_walk_on_grid (system : list (list string)) (n : nat)
    (sta_prob : gmap string float) tape num_iter k :
  square system n →
  (∀ l, l ∈ concat system → l ∈ Lattice.score_labels) →
  "A"%string ∈ concat system →
  (∀ l, l ∈ concat system → ∃ p, sta_prob !! l = Some p ∧ pos_double p = true) →
  ∃ table sc,
    Lattice.get_neighborhood_table system = Some table ∧
    Lattice.metropolis_pebble num_iter table sta_prob tape k
      = Some (sc, (k + 2 * num_iter)%nat) ∧
    score_sum sc = num_iter ∧
    ∀ l v, l ∉ concat system → sc !! l = Some v → v = 0%nat.
Proof.
  intros Hsq Hscored HA Hpos.
  pose proof (lattice_inputs_of_grid system n sta_prob Hsq Hscored HA Hpos)
    as Hin.
  destruct (lattice_run _ _ _ tape num_iter k Hin) as (sc & Hrun & Hsum & Hz).
  exists (apply_updates ∅ (table_entries system n)), sc.
  split; [apply get_neighborhood_table_eq, Hsq|]. auto.
Qed.

Lemma notebook_weights_positive l :
  l ∈ Lattice.score_labels →
  ∃ p, notebook_sta_prob !! l = Some p ∧ pos_double p = true.
Proof.
  unfold Lattice.score_labels. intros Hl.
  repeat (apply elem_of_cons in Hl as [->|Hl]);
    [(eexists; split; [vm_compute; reflexivity|reflexivity])..|].
  apply elem_of_nil in Hl. contradiction.
Qed.

Lemma lattice_walk_on_grid_witness :
  square notebook_system 4 ∧
  (∀ l, l ∈ concat notebook_system → l ∈ Lattice.score_labels) ∧
  "A"%string ∈ concat notebook_system ∧
  (∀ l, l ∈ concat notebook_system →
        ∃ p, notebook_sta_prob !! l = Some p ∧ pos_double p = true) ∧
  ∃ table sc,
    Lattice.get_neighborhood_table notebook_system = Some table ∧
    Lattice.metropolis_pebble 25 table notebook_sta_prob sample_tape 0%nat
      = Some (sc, 50%nat) ∧
    score_sum sc = 25%nat.
Proof.
  assert (∀ l, l ∈ concat notebook_system → l ∈ Lattice.score_labels)
    as Hscored by (intros l Hl; exact Hl).
  assert ("A"%string ∈ concat notebook_system) as HA by (simpl; left).
  split; [exact notebook_system_square|]. split; [exact Hscored|].
  split; [exact HA|]. split; [exact notebook_weights_positive|].
  destruct (lattice_walk_on_grid notebook_system 4 notebook_sta_prob
              sample_tape 25 0%nat notebook_system_square Hscored HA
              notebook_weights_positive)
    as (table & sc & Htab & Hrun & Hsum & _).
  exists table, sc. split; [exact Htab|]. split; [exact Hrun|exact Hsum].
Defined.

(** X8. The pipeline of the notebook: for the sizes 1 to 4 and positive
    weights on the sixteen scored labels, [create_system],
    [get_neighborhood_table] and [metropolis_pebble] compose: each step
    returns and the scores of the walk sum to [num_iter]. *)
Theorem notebook_pipeline (n : Z) (sta_prob : gmap string float) tape num_iter k :
  1 <= n <= 4 →
  (∀ l, l ∈ Lattice.score_labels → ∃ p, sta_prob !! l = Some p ∧ pos_double p = true) →
  ∃ system table sc,
    Lattice.create_system n = Some system ∧
    Lattice.get_neighborhood_table system = Some table ∧
    Lattice.metropolis_pebble num_iter table sta_prob tape k
      = Some (sc, (k + 2 * num_iter)%nat) ∧
    score_sum sc = num_iter.
Proof.
  intros Hn Hpos.
  assert (∃ system (m c : nat),
            Lattice.create_system n = Some system ∧ square system m ∧
            concat system = take (S c) Lattice.score_labels)
    as (system & m & c & Hsys & Hsq & Hlabels).
  { assert (n = 1 ∨ n = 2 ∨ n = 3 ∨ n = 4) as [->|[->|[-> | ->]]] by lia.
    - exists [["A"]]%string, 1%nat, 0%nat.
      split; [reflexivity|]. split; [|reflexivity].
      split; [reflexivity|repeat constructor].
    - eexists _, 2%nat, 3%nat.
      split; [reflexivity|]. split; [|reflexivity].
      split; [reflexivity|repeat constructor].
    - eexists _, 3%nat, 8%nat.
      split; [reflexivity|]. split; [|reflexivity].
      split; [reflexivity|repeat constructor].
    - eexists _, 4%nat, 15%nat.
      split; [reflexivity|]. split; [|reflexivity].
      split; [reflexivity|repeat constructor]. }
  assert (∀ l, l ∈ concat system → l ∈ Lattice.score_labels) as Hscored
    by (intros l Hl; rewrite Hlabels in Hl; exact (subseteq_take _ _ _ Hl)).
  assert (lattice_inputs (concat system)
            (apply_updates ∅ (table_entries system m)) sta_prob = true)
    as Hin.
  { apply lattice_inputs_of_grid; [exact Hsq|exact Hscored| |].
    - rewrite Hlabels. simpl. left.
    - intros l Hl. apply Hpos, Hscored, Hl. }
  destruct (lattice_run _ _ _ tape num_iter k Hin) as (sc & Hrun & Hsum & _).
  exists system, (apply_updates ∅ (table_entries system m)), sc.
  split; [exact Hsys|].
  split; [apply get_neighborhood_table_eq, Hsq|]. auto.
Qed.

Lemma notebook_pipeline_witness :
  1 <= 4 <= 4 ∧
  (∀ l, l ∈ Lattice.score_labels →
        ∃ p, notebook_sta_prob !! l = Some p ∧ pos_double p = true) ∧
  ∃ system table sc,
    Lattice.create_system 4 = Some system ∧
    Lattice.get_neighborhood_table system = Some table ∧
    Lattice.metropolis_pebble 25 table notebook_sta_prob sample_tape 0%nat
      = Some (sc, 50%nat) ∧
    score_sum sc = 25%nat.
Proof.
  split; [lia|]. split; [exact notebook_weights_positive|].
  exact (notebook_pipeline 4 notebook_sta_prob sample_tape 25 0%nat
           ltac:(lia) notebook_weights_positive).
Defined.

(** X9. A table without the start label makes the walker raise as soon as
    one iteration is asked, whatever the weights and the tape; this is the
    case of the table of the empty system [create_system(0)]. *)
Theorem lattice_walk_missing_start neighborhood_table sta_prob tape
    (num_iter : nat) k :
  neighborhood_table !! "A"%string = None →
  Lattice.metropolis_pebble (S num_iter) neighborhood_table sta_prob tape k
  = None.
Proof.
  intros Hmiss.
  destruct (Lattice.metropolis_pebble (S num_iter) neighborhood_table
              sta_prob tape k) as [[sc k']|] eqn:Hrun; [exfalso|reflexivity].
  unfold Lattice.metropolis_pebble in Hrun.
  apply bind_Some in Hrun as (w0 & k0 & Hw0 & Hrun).
  apply lift_Some in Hw0 as [Hw0 ->].
  apply bind_Some in Hrun as (w & k1 & Hloop & _).
  unfold range in Hloop. cbn [seq for_each] in Hloop.
  apply bind_Some in Hloop as (w1 & k2 & Hit & _).
  unfold Lattice.iteration in Hit.
  apply bind_Some in Hit as (d & k3 & _ & Hit).
  apply bind_Some in Hit as (nbrs & k4 & Hnbrs & _).
  apply lift_Some in Hnbrs as [Hnbrs _].
  unfold Lattice.initial_walk in Hw0.
  destruct (sta_prob !! "A"%string); simpl in Hw0; [|discriminate].
  injection Hw0 as <-. simpl in Hnbrs. congruence.
Qed.

Lemma lattice_walk_missing_start_witness :
  (default ∅ (Lattice.create_system 0 ≫= Lattice.get_neighborhood_table)
     : gmap string (list string)) !! "A"%string = None ∧
  Lattice.metropolis_pebble 1
    (default ∅ (Lattice.create_system 0 ≫= Lattice.get_neighborhood_table))
    notebook_sta_prob sample_tape 0%nat = None.
Proof.
  assert ((default ∅ (Lattice.create_system 0 ≫= Lattice.get_neighborhood_table)
             : gmap string (list string)) !! "A"%string = None) as Hmiss
    by reflexivity.
  split; [exact Hmiss|].
  exact (lattice_walk_missing_start _ notebook_sta_prob sample_tape 0 0%nat
           Hmiss).
Defined.


(** ** Edge cases of the acceptance step *)

Lemma py_div_zero a b : feq b F0 = true → py_div a b = None.
Proof. intros Hb. unfold py_div. rewrite Hb. reflexivity. Qed.

(** With a zero cached weight the division raises. *)
Lemma metropolis_accept_zero new_pos new_prob w tape k :
  feq (current_pos_prob w) F0 = true →
  metropolis_accept new_pos new_prob w tape k = None.
Proof.
  intros Hz. unfold metropolis_accept, mbind, Rand_bind, lift.
  rewrite (py_div_zero _ _ Hz). reflexivity.
Qed.

Lemma basic_iteration_zero activities probabilities w tape k :
  feq (current_pos_prob w) F0 = true →
  Basic.iteration activities probabilities w tape k = None.
Proof.
  intros Hz.
  destruct (Basic.iteration activities probabilities w tape k)
    as [[w' k']|] eqn:Hit; [exfalso|reflexivity].
  unfold Basic.iteration in Hit.
  apply bind_Some in Hit as (r & k1 & _ & Hit).
  apply bind_Some in Hit as (a & k2 & _ & Hit).
  apply bind_Some in Hit as (p & k3 & _ & Hit).
  rewrite metropolis_accept_zero in Hit by exact Hz. discriminate.
Qed.

Lemma lattice_iteration_zero neighborhood_table sta_prob w tape k :
  feq (current_pos_prob w) F0 = true →
  Lattice.iteration neighborhood_table sta_prob w tape k = None.
Proof.
  intros Hz.
  destruct (Lattice.iteration neighborhood_table sta_prob w tape k)
    as [[w' k']|] eqn:Hit; [exfalso|reflexivity].
  unfold Lattice.iteration in Hit.
  apply bind_Some in Hit as (r & k1 & _ & Hit).
  apply bind_Some in Hit as (nbrs & k2 & _ & Hit).
  apply bind_Some in Hit as (a & k3 & _ & Hit).
  apply bind_Some in Hit as (p & k4 & _ & Hit).
  rewrite metropolis_accept_zero in Hit by exact Hz. discriminate.
Qed.

(** X10. A start of weight zero makes both walkers raise in the first
    iteration (the division [new_pos_prob/current_pos_prob] raises when the
    statements before it complete), whatever the other weights and the
    tape. *)
Theorem walkers_zero_start_weight activities probabilities neighborhood_table
    sta_prob tape (num_iter : nat) k (p0 pA : float) :
  probabilities !! 0%nat = Some p0 → feq p0 F0 = true →
  sta_prob !! "A"%string = Some pA → feq pA F0 = true →
  Basic.metropolis_pebble (S num_iter) activities probabilities tape k = None ∧
  Lattice.metropolis_pebble (S num_iter) neighborhood_table sta_prob tape k
    = None.
Proof.
  intros Hp0 Hz0 HpA HzA. split.
  - destruct (Basic.metropolis_pebble (S num_iter) activities probabilities
                tape k) as [[sc k']|] eqn:Hrun; [exfalso|reflexivity].
    unfold Basic.metropolis_pebble in Hrun.
    apply bind_Some in Hrun as (w0 & k0 & Hw0 & Hrun).
    apply lift_Some in Hw0 as [Hw0 ->].
    apply bind_Some in Hrun as (w & k1 & Hloop & _).
    unfold range in Hloop. cbn [seq for_each] in Hloop.
    apply bind_Some in Hloop as (w1 & k2 & Hit & _).
    rewrite basic_iteration_zero in Hit; [discriminate|].
    unfold Basic.initial_walk in Hw0.
    rewrite !py_index_nonneg in Hw0 by lia.
    change (Z.to_nat 0) with 0%nat in Hw0. rewrite Hp0 in Hw0.
    destruct (activities !! 0%nat); simpl in Hw0; [|discriminate].
    injection Hw0 as <-. exact Hz0.
  - destruct (Lattice.metropolis_pebble (S num_iter) neighborhood_table
                sta_prob tape k) as [[sc k']|] eqn:Hrun; [exfalso|reflexivity].
    unfold Lattice.metropolis_pebble in Hrun.
    apply bind_Some in Hrun as (w0 & k0 & Hw0 & Hrun).
    apply lift_Some in Hw0 as [Hw0 ->].
    apply bind_Some in Hrun as (w & k1 & Hloop & _).
    unfold range in Hloop. cbn [seq for_each] in Hloop.
    apply bind_Some in Hloop as (w1 & k2 & Hit & _).
    rewrite lattice_iteration_zero in Hit; [discriminate|].
    unfold Lattice.initial_walk in Hw0. rewrite HpA in Hw0.
    injection Hw0 as <-. exact HzA.
Qed.

Lemma walkers_zero_start_weight_witness :
  [F0; F1] !! 0%nat = Some F0 ∧ feq F0 F0 = true ∧
  (<["A"%string := F0]> notebook_sta_prob) !! "A"%string = Some F0 ∧
  Basic.metropolis_pebble 1 ["a"; "b"]%string [F0; F1] sample_tape 0%nat
    = None ∧
  Lattice.metropolis_pebble 1 notebook_table
    (<["A"%string := F0]> notebook_sta_prob) sample_tape 0%nat = None.
Proof.
  assert ((<["A"%string := F0]> notebook_sta_prob) !! "A"%string = Some F0)
    as HA by apply lookup_insert_eq.
  split; [reflexivity|]. split; [reflexivity|]. split; [exact HA|].
  exact (walkers_zero_start_weight ["a"; "b"]%string [F0; F1] notebook_table
           (<["A"%string := F0]> notebook_sta_prob) sample_tape 0 0%nat F0 F0
           eq_refl eq_refl HA eq_refl).
Defined.






(** ** The keys of the returned score tables *)

Lemma metropolis_accept_dom new_pos new_prob w tape k w' k' :
  metropolis_accept new_pos new_prob w tape k = Some (w', k') →
  dom (scores w') = dom (scores w).
Proof.
  intros (_ & Hincr & _)%metropolis_accept_scores.
  exact (incr_dom _ _ _ Hincr).
Qed.

Lemma basic_iteration_dom activities probabilities w tape k w' k' :
  Basic.iteration activities probabilities w tape k = Some (w', k') →
  dom (scores w') = dom (scores w).
Proof.
  intros (_ & Hincr)%basic_iteration_scores. exact (incr_dom _ _ _ Hincr).
Qed.

Lemma lattice_iteration_dom neighborhood_table sta_prob w tape k w' k' :
  Lattice.iteration neighborhood_table sta_prob w tape k = Some (w', k') →
  dom (scores w') = dom (scores w).
Proof.
  intros (_ & Hincr)%lattice_iteration_scores. exact (incr_dom _ _ _ Hincr).
Qed.

Lemma reject_iteration_dom activities probabilities max_prob st tape k st' k' :
  Basic.reject_iteration activities probabilities max_prob st tape k
    = Some (st', k') →
  dom st'.1 = dom st.1.
Proof.
  unfold Basic.reject_iteration.
  intros (r & k1 & _ & H1)%bind_Some.
  apply bind_Some in H1 as (g & k2 & _ & H2).
  apply bind_Some in H2 as (p & k3 & _ & H3).
  destruct (fle g p).
  - apply bind_Some in H3 as (a & k4 & _ & H4).
    apply bind_Some in H4 as (sc & k5 & Hsc & H5).
    apply lift_Some in Hsc as [Hsc _].
    injection H5 as <- _. simpl. exact (incr_dom _ _ _ Hsc).
  - injection H3 as <- _. reflexivity.
Qed.

(** Whatever the weights, the tower sampler returns after one draw per
    iteration when there is an activity for every weight, with the keys it
    started from. *)
Lemma tower_run tape num_iter activities probabilities k :
  (length probabilities ≤ length activities)%nat →
  ∃ sc,
    Basic.tower_sample num_iter activities probabilities tape k
      = Some (sc, (k + num_iter)%nat) ∧
    dom sc = list_to_set activities.
Proof.
  intros Hlen.
  destruct (for_each_counted
    (λ n (sc : gmap string nat) c,
       dom sc = list_to_set activities ∧ c = (k + n)%nat)
    (λ _ sc, Basic.tower_iteration activities (prefix_sums F0 probabilities) sc)
    tape (range num_iter))
    with (n := 0%nat) (s := init_scores activities) (k := k)
    as (sc & k' & Hrun & Hdom & ->).
  - intros _ n sc c (Hdom & ->).
    destruct (tower_iteration_is_Some activities probabilities sc tape
                (k + n)%nat Hlen) as (sc' & Hit & Hdom');
      [rewrite Hdom; done|].
    exists sc', (S (k + n)). split; [exact Hit|].
    rewrite Hdom'. split; [exact Hdom|lia].
  - rewrite init_scores_dom. split; [done|lia].
  - rewrite length_range in *. exists sc. split; [|exact Hdom].
    apply tower_run_iterated, for_each_iterated, Hrun.
Qed.

(** X13. The score table returned by either walker has exactly the keys it
    was created with, hit or not: the activities for the generic walker, the
    sixteen labels ["A"] to ["P"] for the lattice walker. *)
Theorem walkers_score_keys tape num_iter activities probabilities labels
    neighborhood_table sta_prob k :
  basic_inputs activities probabilities →
  lattice_inputs labels neighborhood_table sta_prob = true →
  (∃ sc,
     Basic.metropolis_pebble num_iter activities probabilities tape k
       = Some (sc, (k + 2 * num_iter)%nat) ∧
     dom sc = list_to_set activities) ∧
  (∃ sc,
     Lattice.metropolis_pebble num_iter neighborhood_table sta_prob tape k
       = Some (sc, (k + 2 * num_iter)%nat) ∧
     dom sc = list_to_set Lattice.score_labels).
Proof.
  intros Hb Hl. split.
  - destruct (basic_initial_walk_spec _ _ Hb)
      as (w0 & H0 & _ & _ & Hsc & Hinv).
    destruct (basic_walk_loop _ _ tape num_iter w0 k Hb Hinv)
      as (w & Hrun & _).
    exists (scores w). split.
    + unfold Basic.metropolis_pebble.
      rewrite (bind_eq _ _ tape k w0 k) by (apply lift_Some; auto).
      rewrite (bind_eq _ _ tape k w _ Hrun). reflexivity.
    + rewrite <- init_scores_dom, <- Hsc.
      apply (for_each_preserves (λ w, dom (scores w) = dom (scores w0))
               _ tape (range num_iter)) in Hrun; [exact Hrun| |reflexivity].
      intros _ s c s' c' Hs Hit.
      rewrite (basic_iteration_dom _ _ _ _ _ _ _ Hit). exact Hs.
  - destruct (lattice_initial_walk_spec _ _ _ Hl)
      as (w0 & H0 & _ & _ & Hsc & Hinv).
    destruct (lattice_walk_loop _ _ _ tape num_iter w0 k Hl Hinv)
      as (w & Hrun & _).
    exists (scores w). split.
    + unfold Lattice.metropolis_pebble.
      rewrite (bind_eq _ _ tape k w0 k) by (apply lift_Some; auto).
      rewrite (bind_eq _ _ tape k w _ Hrun). reflexivity.
    + destruct Hinv as (Hdom0 & _). rewrite <- Hdom0.
      apply (for_each_preserves (λ w, dom (scores w) = dom (scores w0))
               _ tape (range num_iter)) in Hrun; [exact Hrun| |reflexivity].
      intros _ s c s' c' Hs Hit.
      rewrite (lattice_iteration_dom _ _ _ _ _ _ _ Hit). exact Hs.
Qed.

Lemma walkers_score_keys_witness :
  basic_inputs notebook_activities notebook_probabilities ∧
  lattice_inputs Lattice.score_labels notebook_table notebook_sta_prob
    = true ∧
  (∃ sc,
     Basic.metropolis_pebble 25 notebook_activities notebook_probabilities
       sample_tape 0%nat = Some (sc, 50%nat) ∧
     dom sc = list_to_set notebook_activities) ∧
  (∃ sc,
     Lattice.metropolis_pebble 25 notebook_table notebook_sta_prob
       sample_tape 0%nat = Some (sc, 50%nat) ∧
     dom sc = list_to_set Lattice.score_labels).
Proof.
  split; [exact notebook_basic_inputs|].
  split; [exact notebook_lattice_inputs|].
  exact (walkers_score_keys sample_tape 25 notebook_activities
           notebook_probabilities Lattice.score_labels notebook_table
           notebook_sta_prob 0%nat notebook_basic_inputs
           notebook_lattice_inputs).
Defined.

(** X14. The score tables returned by the rejection sampler and by the tower
    sampler have exactly the activities as keys, hit or not. *)
Theorem samplers_score_keys tape num_iter activities probabilities k :
  basic_inputs activities probabilities →
  (length probabilities ≤ length activities)%nat →
  (∃ sc accept_count,
     Basic.reject_finite num_iter activities probabilities tape k
       = Some ((sc, accept_count), (k + 2 * num_iter)%nat) ∧
     dom sc = list_to_set activities) ∧
  (∃ sc,
     Basic.tower_sample num_iter activities probabilities tape k
       = Some (sc, (k + num_iter)%nat) ∧
     dom sc = list_to_set activities).
Proof.
  intros (Hne & Hlen & Hpos) Hlen'.
  assert (probabilities ≠ []) as Hpne.
  { destruct activities; [congruence|].
    destruct probabilities; [simpl in Hlen; lia|discriminate]. }
  split.
  - destruct (py_max_elem probabilities Hpne) as (max_prob & Hmax & _).
    destruct (reject_loop activities probabilities max_prob tape num_iter k
                Hne Hlen) as (sc & ac & Hrun & _).
    exists sc, ac. split.
    + unfold Basic.reject_finite.
      rewrite (bind_eq _ _ tape k max_prob k) by (apply lift_Some; auto).
      exact Hrun.
    + rewrite <- init_scores_dom.
      apply (for_each_preserves
               (λ st : gmap string nat * nat,
                  dom st.1 = dom (init_scores activities))
               _ tape (range num_iter)) in Hrun; [exact Hrun| |reflexivity].
      intros _ s c s' c' Hs Hit.
      rewrite (reject_iteration_dom _ _ _ _ _ _ _ _ Hit). exact Hs.
  - exact (tower_run tape num_iter activities probabilities k Hlen').
Qed.

Lemma samplers_score_keys_witness :
  basic_inputs notebook_activities notebook_probabilities ∧
  (length notebook_probabilities ≤ length notebook_activities)%nat ∧
  (∃ sc accept_count,
     Basic.reject_finite 25 notebook_activities notebook_probabilities
       sample_tape 0%nat = Some ((sc, accept_count), 50%nat) ∧
     dom sc = list_to_set notebook_activities) ∧
  (∃ sc,
     Basic.tower_sample 25 notebook_activities notebook_probabilities
       sample_tape 0%nat = Some (sc, 25%nat) ∧
     dom sc = list_to_set notebook_activities).
Proof.
  split; [exact notebook_basic_inputs|].
  split; [simpl; lia|].
  exact (samplers_score_keys sample_tape 25 notebook_activities
           notebook_probabilities 0%nat
           notebook_basic_inputs ltac:(simpl; lia)).
Defined.

(** ** More on the rejection sampler *)



(** X16. With equal positive weights the rejection sampler rejects nothing:
    the run returns [accept_count = num_iter]. *)
Theorem reject_finite_equal_weights tape num_iter activities probabilities
    (m : float) k :
  valid_tape tape →
  activities ≠ [] →
  (length activities ≤ length probabilities)%nat →
  pos_double m = true →
  Forall (λ p, p = m) probabilities →
  ∃ sc,
    Basic.reject_finite num_iter activities probabilities tape k
      = Some ((sc, num_iter), (k + 2 * num_iter)%nat).
Proof.
  intros Htape Hne Hlen Hm Heq.
  assert (probabilities ≠ []) as Hpne.
  { destruct activities; [congruence|].
    destruct probabilities; [simpl in Hlen; lia|discriminate]. }
  destruct (py_max_elem probabilities Hpne) as (max_prob & Hmax & Hin).
  rewrite Forall_forall in Heq.
  assert (max_prob = m) as -> by apply Heq, Hin.
  destruct (for_each_counted
    (λ n (st : gmap string nat * nat) c,
       list_to_set activities ⊆ dom st.1 ∧ c = (k + 2 * n)%nat ∧ st.2 = n)
    (λ _ st, Basic.reject_iteration activities probabilities m st)
    tape (range num_iter))
    with (n := 0%nat) (s := (init_scores activities, 0%nat)) (k := k)
    as ([sc ac] & k' & Hrun & _ & -> & Hac).
  - intros _ n st c (Hsub & -> & Hn).
    destruct (reject_iteration_spec activities probabilities m st tape
                (k + 2 * n)%nat Hne Hlen Hsub)
      as (idx & a & p & t & sc & _ & _ & Hp & Hu & Hincr & Hit).
    destruct (uniform_range tape (S (k + 2 * n)) m Htape Hm)
      as (Hu' & _ & Hub).
    assert (t = fmul m (raw_unit (tape (S (k + 2 * n))))) as ->
      by congruence.
    assert (p = m) as -> by (eapply Heq, list_elem_of_lookup_2, Hp).
    rewrite Hub in Hit.
    eexists _, _. split; [exact Hit|]. cbn [fst snd].
    rewrite (incr_dom _ _ _ Hincr). split; [exact Hsub|]. split; lia.
  - simpl. rewrite init_scores_dom. split; [done|]. split; lia.
  - rewrite length_range in *. simpl in Hac. subst ac. exists sc.
    unfold Basic.reject_finite.
    rewrite (bind_eq _ _ tape k m k) by (apply lift_Some; auto).
    exact Hrun.
Qed.

Lemma reject_finite_equal_weights_witness :
  valid_tape sample_tape ∧
  ["a"; "b"; "c"]%string ≠ [] ∧
  pos_double (decimal 1 3) = true ∧
  Forall (λ p, p = decimal 1 3) [decimal 1 3; decimal 1 3; decimal 1 3] ∧
  ∃ sc,
    Basic.reject_finite 25 ["a"; "b"; "c"]%string
      [decimal 1 3; decimal 1 3; decimal 1 3]
      sample_tape 0%nat = Some ((sc, 25%nat), 50%nat).
Proof.
  assert (Forall (λ p, p = decimal 1 3)
            [decimal 1 3; decimal 1 3; decimal 1 3]) as Heq
    by (repeat constructor).
  split; [exact sample_tape_valid|]. split; [discriminate|].
  split; [reflexivity|]. split; [exact Heq|].
  exact (reject_finite_equal_weights sample_tape 25 ["a"; "b"; "c"]%string
           [decimal 1 3; decimal 1 3; decimal 1 3] (decimal 1 3) 0%nat
           sample_tape_valid ltac:(discriminate) ltac:(simpl; lia) eq_refl Heq).
Defined.

(** X17. Empty inputs of the rejection sampler: without weights [max] raises
    before the loop, whatever the iteration count; without activities (and
    with weights) the sampler returns the empty table and the count 0 for no
    iteration, and raises in [randint(0, -1)] as soon as one is asked. *)
Theorem reject_finite_empty_inputs tape (num_iter : nat) activities
    probabilities k :
  Basic.reject_finite num_iter activities [] tape k = None ∧
  (probabilities ≠ [] →
   Basic.reject_finite 0 [] probabilities tape k = Some ((∅, 0%nat), k) ∧
   Basic.reject_finite (S num_iter) [] probabilities tape k = None).
Proof.
  split; [reflexivity|]. intros Hpne.
  destruct (py_max_elem probabilities Hpne) as (max_prob & Hmax & _).
  unfold Basic.reject_finite. rewrite Hmax. split; reflexivity.
Qed.

(** ** More on the tower sampler *)

(** X18. Without weights the tower sampler is not rejection-free: the
    cumulative sequence is [[0]], the scan has nothing to visit, and the run
    returns the untouched scores after reading one draw per iteration. *)
Theorem tower_sample_no_weights tape num_iter activities k :
  Basic.tower_sample num_iter activities [] tape k
  = Some (init_scores activities, (k + num_iter)%nat).
Proof.
  unfold Basic.tower_sample.
  rewrite (bind_eq _ _ tape k [F0] k) by reflexivity.
  destruct (for_each_counted
    (λ n (sc : gmap string nat) c,
       sc = init_scores activities ∧ c = (k + n)%nat)
    (λ _ sc, Basic.tower_iteration activities [F0] sc)
    tape (range num_iter))
    with (n := 0%nat) (s := init_scores activities) (k := k)
    as (sc & k' & Hrun & -> & ->).
  - intros _ n sc c (-> & ->). eexists _, _.
    split; [reflexivity|]. split; [reflexivity|lia].
  - split; [reflexivity|lia].
  - rewrite length_range in Hrun. exact Hrun.
Qed.

Lemma init_scores_lookup activities a :
  a ∈ activities → init_scores activities !! a = Some 0%nat.
Proof.
  intros Ha.
  assert (a ∈ dom (init_scores activities)) as [v Hv]%elem_of_dom
    by (rewrite init_scores_dom; set_solver).
  rewrite Hv. f_equal. exact (init_scores_zero _ _ _ Hv).
Qed.

(** An iteration never scores an activity of weight zero that is not the
    first one. *)
Lemma tower_iteration_zero_weight activities probabilities sc tape c sc' c'
    (j : nat) a w :
  NoDup activities →
  (1 ≤ j)%nat →
  activities !! j = Some a →
  probabilities !! j = Some w →
  feq w F0 = true →
  Basic.tower_iteration activities (prefix_sums F0 probabilities) sc tape c
    = Some (sc', c') →
  sc' !! a = sc !! a.
Proof.
  intros Hnd Hj Ha Hw Hz. unfold Basic.tower_iteration.
  intros (top & k1 & _ & H1)%bind_Some.
  apply bind_Some in H1 as (gamma & k2 & _ & H2).
  apply lift_Some in H2 as [Hscan _].
  apply scan_hit in Hscan as [[-> _]|Hhit]; [reflexivity|].
  destruct Hhit as (i & ci & act & Hi & Hci & Hle & Hfirst & Hact & Hincr).
  destruct (prefix_sums_step F0 probabilities j w Hw) as (cj & Hcj & Hcj').
  assert (act ≠ a) as Hne.
  { intros ->.
    assert ((i - 1)%nat = j) as Hij by exact (NoDup_lookup _ _ _ _ Hnd Hact Ha).
    assert (i = S j) as -> by lia.
    rewrite Hcj' in Hci. injection Hci as <-.
    pose proof (Hfirst j cj ltac:(lia) Hcj) as Hnot.
    unfold fle, SFleb in Hle, Hnot.
    rewrite (fadd_zero_r_compare gamma cj w Hz) in Hle. congruence. }
  unfold incr in Hincr.
  destruct (sc !! act) as [v|]; simpl in Hincr; [|discriminate].
  injection Hincr as <-. apply lookup_insert_ne, Hne.
Qed.

(** X19. An activity of weight zero that is not the first of the list is
    never hit by the tower sampler: its returned score is 0. (The first
    activity is hit by the draw [0] even when its weight is zero.) *)
Theorem tower_zero_weight_never_hit tape num_iter activities probabilities k
    (j : nat) a w :
  (length probabilities ≤ length activities)%nat →
  NoDup activities →
  (1 ≤ j)%nat →
  activities !! j = Some a →
  probabilities !! j = Some w →
  feq w F0 = true →
  ∃ sc,
    Basic.tower_sample num_iter activities probabilities tape k
      = Some (sc, (k + num_iter)%nat) ∧
    sc !! a = Some 0%nat.
Proof.
  intros Hlen Hnd Hj Ha Hw Hz.
  destruct (tower_run tape num_iter activities probabilities k Hlen)
    as (sc & Hrun & _).
  exists sc. split; [exact Hrun|].
  unfold Basic.tower_sample in Hrun.
  apply bind_Some in Hrun as (cum & k1 & Hcum & Hrun).
  apply lift_Some in Hcum as [Hcum ->].
  rewrite cumulative_eq in Hcum. injection Hcum as <-.
  apply (for_each_preserves (λ sc : gmap string nat, sc !! a = Some 0%nat)
           _ tape (range num_iter)) in Hrun; [exact Hrun| |].
  - intros _ s c s' c' Hs Hit.
    rewrite (tower_iteration_zero_weight _ _ _ _ _ _ _ j a w Hnd Hj Ha Hw Hz
               Hit).
    exact Hs.
  - apply init_scores_lookup. eapply list_elem_of_lookup_2, Ha.
Qed.

Lemma tower_zero_weight_never_hit_witness :
  NoDup ["a"; "b"; "c"]%string ∧
  feq F0 F0 = true ∧
  ∃ sc,
    Basic.tower_sample 25 ["a"; "b"; "c"]%string [F1; F0; F1] sample_tape
      0%nat = Some (sc, 25%nat) ∧
    sc !! "b"%string = Some 0%nat.
Proof.
  assert (NoDup ["a"; "b"; "c"]%string) as Hnd
    by (apply (bool_decide_unpack _); vm_compute; exact I).
  split; [exact Hnd|]. split; [reflexivity|].
  exact (tower_zero_weight_never_hit sample_tape 25 ["a"; "b"; "c"]%string
           [F1; F0; F1] 0%nat 1 "b"%string F0
           ltac:(simpl; lia) Hnd ltac:(lia) eq_refl eq_refl eq_refl).
Defined.

(** ** More on the continuum sampler *)

Lemma cos_sample (u : R) :
  (0 <= u < 1)%R → cos (acos (1 - 2 * u)) = (1 - 2 * u)%R.
Proof. intros Hu. apply cos_acos. lra. Qed.

(** X21. The samples follow the order of the draws: a larger draw gives a
    larger sample. *)
Theorem cont_tower_sample_monotone tape num_iter k :
  valid_tape tape →
  ∃ results,
    Basic.cont_tower_sample num_iter tape k
      = Some (results, (k + num_iter)%nat) ∧
    ∀ (i j : nat) xi xj,
      results !! i = Some xi → results !! j = Some xj →
      fle (raw_unit (tape (k + i)%nat)) (raw_unit (tape (k + j)%nat)) = true →
      (xi <= xj)%R.
Proof.
  intros Htape.
  destruct (cont_tower_sample_run tape num_iter k Htape)
    as (results & Hrun & _ & Hall).
  exists results. split; [exact Hrun|]. intros i j xi xj Hi Hj Hle.
  apply unit_double_le_value in Hle; [|apply Htape..].
  apply Qle_Rle in Hle. fold (SF2R (raw_unit (tape (k + i)%nat))) in Hle.
  fold (SF2R (raw_unit (tape (k + j)%nat))) in Hle.
  pose proof (valid_tape_real tape (k + i)%nat Htape) as Hui.
  pose proof (valid_tape_real tape (k + j)%nat Htape) as Huj.
  rewrite (Hall i xi Hi), (Hall j xj Hj).
  pose proof (acos_bound (1 - 2 * SF2R (raw_unit (tape (k + i)%nat)))) as Hbi.
  pose proof (acos_bound (1 - 2 * SF2R (raw_unit (tape (k + j)%nat)))) as Hbj.
  apply cos_decr_0; [lra..|].
  rewrite !cos_sample by assumption. lra.
Qed.

Lemma cont_tower_sample_monotone_witness :
  valid_tape sample_tape ∧
  ∃ results,
    Basic.cont_tower_sample 25 sample_tape 0%nat = Some (results, 25%nat) ∧
    ∀ xi xj,
      results !! 1%nat = Some xi → results !! 2%nat = Some xj →
      (xi <= xj)%R.
Proof.
  split; [exact sample_tape_valid|].
  destruct (cont_tower_sample_monotone sample_tape 25 0%nat sample_tape_valid)
    as (results & Hrun & Hmono).
  exists results. split; [exact Hrun|]. intros xi xj Hi Hj.
  apply (Hmono 1%nat 2%nat xi xj Hi Hj). reflexivity.
Defined.

(** ** Lists of different lengths *)

Lemma py_index_past_end {A : Type} (l : list A) (r : Z) :
  Z.of_nat (length l) <= r → py_index l r = None.
Proof.
  intros Hr. rewrite py_index_nonneg by lia. apply lookup_ge_None. lia.
Qed.

(** X22. With fewer weights than activities, a first index draw that points
    past the end of the weights finds no weight ([probabilities[r]] is out of
    range), and both the generic walker and the rejection sampler raise
    instead of returning. *)
Theorem draw_past_weights_raises tape (num_iter : nat) activities
    probabilities k r :
  randint 0 (Z.of_nat (length activities) - 1) tape k = Some (r, S k) →
  Z.of_nat (length probabilities) <= r →
  py_index probabilities r = None ∧
  Basic.metropolis_pebble (S num_iter) activities probabilities tape k = None ∧
  Basic.reject_finite (S num_iter) activities probabilities tape k = None.
Proof.
  intros Hdraw Hpast. split; [apply py_index_past_end, Hpast|]. split.
  - destruct (Basic.metropolis_pebble (S num_iter) activities probabilities
                tape k) as [[sc k']|] eqn:Hrun; [exfalso|reflexivity].
    unfold Basic.metropolis_pebble in Hrun.
    apply bind_Some in Hrun as (w0 & k0 & Hw0 & Hrun).
    apply lift_Some in Hw0 as [_ ->].
    apply bind_Some in Hrun as (w & k1 & Hloop & _).
    unfold range in Hloop. cbn [seq for_each] in Hloop.
    apply bind_Some in Hloop as (w1 & k2 & Hit & _).
    unfold Basic.iteration in Hit.
    apply bind_Some in Hit as (r' & k3 & Hdraw' & Hit).
    rewrite Hdraw in Hdraw'. injection Hdraw' as <- <-.
    apply bind_Some in Hit as (a & k4 & _ & Hit).
    apply bind_Some in Hit as (p & k5 & Hp & _).
    apply lift_Some in Hp as [Hp _].
    rewrite py_index_past_end in Hp by exact Hpast. discriminate.
  - destruct (Basic.reject_finite (S num_iter) activities probabilities
                tape k) as [[st k']|] eqn:Hrun; [exfalso|reflexivity].
    unfold Basic.reject_finite in Hrun.
    apply bind_Some in Hrun as (max_prob & k0 & Hmax & Hloop).
    apply lift_Some in Hmax as [_ ->].
    unfold range in Hloop. cbn [seq for_each] in Hloop.
    apply bind_Some in Hloop as (st1 & k2 & Hit & _).
    unfold Basic.reject_iteration in Hit.
    apply bind_Some in Hit as (r' & k3 & Hdraw' & Hit).
    rewrite Hdraw in Hdraw'. injection Hdraw' as <- <-.
    apply bind_Some in Hit as (g & k4 & _ & Hit).
    apply bind_Some in Hit as (p & k5 & Hp & _).
    apply lift_Some in Hp as [Hp _].
    rewrite py_index_past_end in Hp by exact Hpast. discriminate.
Qed.

Lemma draw_past_weights_raises_witness :
  randint 0 (Z.of_nat (length notebook_activities) - 1) sample_tape 0%nat
    = Some (3, 1%nat) ∧
  Z.of_nat (length [F1; F1]) <= 3 ∧
  Basic.metropolis_pebble 1 notebook_activities [F1; F1] sample_tape 0%nat
    = None ∧
  Basic.reject_finite 1 notebook_activities [F1; F1] sample_tape 0%nat = None.
Proof.
  split; [reflexivity|]. split; [simpl; lia|].
  exact (proj2 (draw_past_weights_raises sample_tape 0 notebook_activities
                  [F1; F1] 0%nat 3 eq_refl ltac:(simpl; lia))).
Defined.
